(** * famous-flex: ScrollView and LayoutNode

    A shallow embedding of [src/ScrollView.js] (the scroll-offset model, the
    view-window normaliser and the boundary detector) and of the [LayoutNode]
    class that follows it in the same source file (committed spec, [set],
    [setSpec], the interpolation read and [remove]).

    Numbers.  JavaScript numbers are idealised as rationals ([Q]): the data
    model of the scroll view keeps every offset finite and never NaN.  Where a
    JavaScript expression of the scroll view would produce NaN (arithmetic on
    [undefined]) the embedded function is partial and answers [None].  A
    [TypeError] raised by a property read on [undefined] is an explicit
    outcome.  Numeric results are compared with [==] ([Qeq]). *)

From Stdlib Require Import QArith ZArith List Bool Lia Qround.
Import ListNotations.
Open Scope Q_scope.

(** ** JavaScript arithmetic used by the source *)

(** [Math.round]: the nearest integer, ties towards plus infinity. *)
Definition Math_round (x : Q) : Q := inject_Z (Qfloor (x + (1 # 2))).

(** [Math.max] on two finite numbers. *)
Definition Math_max (a b : Q) : Q := if Qle_bool a b then b else a.

(** [a < b] and [a >= b] as the source's comparisons. *)
Definition Qltb (a b : Q) : bool := negb (Qle_bool b a).
Definition Qgeb (a b : Q) : bool := Qle_bool b a.
Definition Qgtb (a b : Q) : bool := negb (Qle_bool a b).

(** The scroll axis: [this._direction] is 0 (horizontal) or 1 (vertical). *)
Inductive direction : Type := DirX | DirY.

Definition dir_index (d : direction) : nat :=
  match d with DirX => 0%nat | DirY => 1%nat end.

(** [arr[i]] on an array of numbers.  Sizes have two entries and transforms
    sixteen; the read agrees with JavaScript on every index below the length. *)
Definition at_index (arr : list Q) (i : nat) : Q := nth i arr 0.

Module ScrollView.

(** Boundary reached detection (the [Bounds] table of the source). *)
Module Bounds.
Definition NONE : Z := 0.
Definition FIRST : Z := 1.
Definition LAST : Z := 2.
Definition BOTH : Z := 3.
End Bounds.

(** [x & mask] read as a condition. *)
Definition has_bit (x mask : Z) : bool := negb (Z.eqb (Z.land x mask) 0).

(** *** Data *)

(** A render node is an object compared by identity: its identity is a number. *)
Definition RenderNode : Type := nat.

(** The part of a spec of [_commitOutput.target] that the scroll view reads. *)
Record Spec : Type := mkSpec {
  renderNode : option RenderNode;
  transform : list Q;
  size : list Q;
  trueSizeRequested : bool
}.

(** A view-sequence node: a cursor into the array that backs the sequence.
    [get] is the item under the cursor ([None]: no item), [getPrevious] and
    [getNext] the neighbouring cursors ([None]: null). *)
Record ViewSequence : Type := mkViewSequence {
  items : list (option RenderNode);
  index : nat
}.

Definition get (vs : ViewSequence) : option RenderNode :=
  match nth_error (items vs) (index vs) with
  | Some item => item
  | None => None
  end.

Definition getPrevious (vs : ViewSequence) : option ViewSequence :=
  match index vs with
  | O => None
  | S j => Some (mkViewSequence (items vs) j)
  end.

Definition getNext (vs : ViewSequence) : option ViewSequence :=
  if Nat.ltb (S (index vs)) (length (items vs))
  then Some (mkViewSequence (items vs) (S (index vs)))
  else None.

(** The physics particle, through [getPosition1D], [setPosition1D] and
    [setVelocity1D]. *)
Record Particle : Type := mkParticle {
  position : Q;
  velocity : Q
}.

(** [this._scroll].  [boundsReached] is a bit mask ([undefined] before the
    first layout behaves as 0 under [&]); [moveStart] and [lastScrollOffset]
    are [undefined] until first assigned. *)
Record Scroll : Type := mkScroll {
  moveOffset : Q;
  scrollDelta : Q;
  moveStart : option Q;
  particle : Particle;
  boundsReached : Z;
  lastScrollOffset : option Q
}.

(** The scroll view.  [endReachedPrev] is the answer of the base controller's
    [this._nodes.endReached(true)] for the current layout pass. *)
Record ScrollView : Type := mkScrollView {
  _scroll : Scroll;
  _viewSequence : option ViewSequence;
  _direction : direction;
  particleRounding : Q;
  target : list Spec;
  endReachedPrev : bool
}.

Definition with_scroll (s : ScrollView) (sc : Scroll) : ScrollView :=
  mkScrollView sc (_viewSequence s) (_direction s) (particleRounding s)
    (target s) (endReachedPrev s).

Definition with_viewSequence (s : ScrollView) (vs : option ViewSequence) : ScrollView :=
  mkScrollView (_scroll s) vs (_direction s) (particleRounding s)
    (target s) (endReachedPrev s).

Definition setPosition1D (p : Q) (sc : Scroll) : Scroll :=
  mkScroll (moveOffset sc) (scrollDelta sc) (moveStart sc)
    (mkParticle p (velocity (particle sc))) (boundsReached sc) (lastScrollOffset sc).

Definition setVelocity1D (v : Q) (sc : Scroll) : Scroll :=
  mkScroll (moveOffset sc) (scrollDelta sc) (moveStart sc)
    (mkParticle (position (particle sc)) v) (boundsReached sc) (lastScrollOffset sc).

Definition set_moveOffset (m : Q) (sc : Scroll) : Scroll :=
  mkScroll m (scrollDelta sc) (moveStart sc) (particle sc) (boundsReached sc)
    (lastScrollOffset sc).

Definition set_scrollDelta (d : Q) (sc : Scroll) : Scroll :=
  mkScroll (moveOffset sc) d (moveStart sc) (particle sc) (boundsReached sc)
    (lastScrollOffset sc).

Definition set_moveStart (m : option Q) (sc : Scroll) : Scroll :=
  mkScroll (moveOffset sc) (scrollDelta sc) m (particle sc) (boundsReached sc)
    (lastScrollOffset sc).

Definition set_boundsReached (b : Z) (sc : Scroll) : Scroll :=
  mkScroll (moveOffset sc) (scrollDelta sc) (moveStart sc) (particle sc) b
    (lastScrollOffset sc).

Definition set_lastScrollOffset (l : option Q) (sc : Scroll) : Scroll :=
  mkScroll (moveOffset sc) (scrollDelta sc) (moveStart sc) (particle sc)
    (boundsReached sc) l.

(** *** Gesture samples *)

(** A position, delta or velocity of a gesture event: a scalar or a vector. *)
Inductive sample : Type :=
| Scalar (v : Q)
| Vector (xs : list Q).

Record Event : Type := mkEvent {
  ev_position : sample;
  ev_delta : sample;
  ev_velocity : option sample
}.

(** The event source a handler was bound to. *)
Inductive sync : Type := TouchSync | ScrollSync | OtherSync.

(** [Array.isArray(v) ? v[this._direction] : v] *)
Definition along (d : direction) (v : sample) : Q :=
  match v with
  | Scalar x => x
  | Vector xs => at_index xs (dir_index d)
  end.

(** [v[this._direction]] without the array test: [undefined] on a scalar. *)
Definition indexed (d : direction) (v : sample) : option Q :=
  match v with
  | Scalar _ => None
  | Vector xs => Some (at_index xs (dir_index d))
  end.

(** *** Gesture handlers *)

(** [_moveStart(sync, event)] *)
Definition _moveStart (sy : sync) (event : Event) (s : ScrollView) : ScrollView :=
  let d := _direction s in
  let sc := _scroll s in
  let sc1 :=
    match sy with
    | TouchSync => set_moveStart (Some (along d (ev_position event))) sc
    | ScrollSync => set_scrollDelta (scrollDelta sc + along d (ev_delta event)) sc
    | OtherSync => sc
    end in
  with_scroll s (setVelocity1D 0 sc1).

(** [_moveUpdate(sync, event)].  The touch branch indexes [event.position]
    without an array test and subtracts [moveStart]: with a scalar position or
    no recorded start the stored offset would be NaN ([None]). *)
Definition _moveUpdate (sy : sync) (event : Event) (s : ScrollView) : option ScrollView :=
  let d := _direction s in
  let sc := _scroll s in
  match sy with
  | TouchSync =>
      match indexed d (ev_position event), moveStart sc with
      | Some p, Some start => Some (with_scroll s (set_moveOffset (p - start) sc))
      | _, _ => None
      end
  | ScrollSync =>
      Some (with_scroll s
              (setVelocity1D 0 (set_scrollDelta (scrollDelta sc + along d (ev_delta event)) sc)))
  | OtherSync => Some s
  end.

(** [_moveEnd(sync, event)] *)
Definition _moveEnd (sy : sync) (event : Event) (s : ScrollView) : ScrollView :=
  let d := _direction s in
  let sc := _scroll s in
  match sy with
  | TouchSync =>
      let sc1 := setPosition1D (position (particle sc) + moveOffset sc) sc in
      let sc2 :=
        match ev_velocity event with
        | Some v => setVelocity1D (along d v) sc1
        | None => sc1
        end in
      with_scroll s (set_moveStart None (set_moveOffset 0 sc2))
  | ScrollSync =>
      with_scroll s
        (setVelocity1D 0 (set_scrollDelta (scrollDelta sc + along d (ev_delta event)) sc))
  | OtherSync => s
  end.

(** *** The effective offset *)

(** [_getParticlePosition()]: the particle position rounded to a multiple of
    [options.particleRounding]. *)
Definition _getParticlePosition (s : ScrollView) : Q :=
  let pos := position (particle (_scroll s)) in
  Math_round (pos / particleRounding s) * particleRounding s.

(** [_getScrollOffset()]: the in-use scroll offset.  A wheel delta that points
    past a reached boundary is dropped first. *)
Definition _getScrollOffset (s : ScrollView) : ScrollView * Q :=
  let sc := _scroll s in
  let s1 :=
    if Qgtb (scrollDelta sc) 0 && has_bit (boundsReached sc) Bounds.FIRST
    then with_scroll s (set_scrollDelta 0 sc)
    else if Qltb (scrollDelta sc) 0 && has_bit (boundsReached sc) Bounds.LAST
    then with_scroll s (set_scrollDelta 0 sc)
    else s in
  (s1, _getParticlePosition s1 + moveOffset (_scroll s1) + scrollDelta (_scroll s1)).

(** [_integrateScrollDelta()]: folds the wheel delta into the particle
    position.  [Math.max] with an [undefined] [lastScrollOffset] would be NaN
    ([None]). *)
Definition _integrateScrollDelta (s : ScrollView) : option (ScrollView * Q) :=
  let sc := _scroll s in
  let oldOffset := _getParticlePosition s in
  if Qeq_bool (scrollDelta sc) 0 then Some (s, oldOffset + moveOffset sc)
  else
    let newOffset := oldOffset + scrollDelta sc in
    let clamped :=
      if has_bit (boundsReached sc) Bounds.FIRST then Some 0
      else if has_bit (boundsReached sc) Bounds.LAST then
        match lastScrollOffset sc with
        | Some l => Some (Math_max l newOffset)
        | None => None
        end
      else Some newOffset in
    match clamped with
    | Some newOffset' =>
        let sc' := set_scrollDelta 0 (setVelocity1D 0 (setPosition1D newOffset' sc)) in
        Some (with_scroll s sc', newOffset' + moveOffset sc')
    | None => None
    end.

(** *** Outcomes of a call that may throw *)

(** A call either returns, with the scroll view as it left it and its result,
    or throws a [TypeError] (a property read on [undefined]), with the scroll
    view as it was at the throw. *)
Inductive completion (A : Type) : Type :=
| Returned (s : ScrollView) (a : A)
| TypeError (s : ScrollView).
Arguments Returned {A} s a.
Arguments TypeError {A} s.

Definition final_state {A : Type} (c : completion A) : ScrollView :=
  match c with
  | Returned s _ => s
  | TypeError s => s
  end.

(** *** Spec lookup *)

(** The scan of [_lookupSpecByViewSequence]: the first spec of the window
    owned by [node], with its index. *)
Fixpoint find_spec (specs : list Spec) (node : RenderNode) (i : nat) : option (nat * Spec) :=
  match specs with
  | [] => None
  | sp :: rest =>
      match renderNode sp with
      | Some r => if Nat.eqb r node then Some (i, sp) else find_spec rest node (S i)
      | None => find_spec rest node (S i)
      end
  end.

(** [_lookupSpecByViewSequence(specs, viewSequence, getIndex, startIndex)].
    The source answers the index (or -1) when [getIndex] is set and the spec
    (or [undefined]) otherwise, and ignores [startIndex]; here both answers
    come as a pair, [None] standing for -1 and [undefined]. *)
Definition _lookupSpecByViewSequence (specs : list Spec) (viewSequence : option ViewSequence)
  : option (nat * Spec) :=
  match viewSequence with
  | None => None
  | Some vs =>
      match get vs with
      | None => None
      | Some node => find_spec specs node 0%nat
      end
  end.

Definition lookup_spec (specs : list Spec) (viewSequence : option ViewSequence) : option Spec :=
  option_map snd (_lookupSpecByViewSequence specs viewSequence).

(** *** The view-window normaliser *)

(** The result of a normalising walk: the new anchor, particle position and
    scroll offset. *)
Definition walk : Type := (ViewSequence * Q * Q)%type.

(** The loop of the branch [scrollOffset >= 0]: [anchor] is
    [this._viewSequence], at index [i] of [its]; the node tried is its
    predecessor.  The recursion is on the index, which [getPrevious] lowers
    by one until it answers null at index 0. *)
Fixpoint normalize_prev (specs : list Spec) (d : direction) (its : list (option RenderNode))
    (i : nat) (pos scrollOffset : Q) {struct i} : walk :=
  let anchor := mkViewSequence its i in
  match i with
  | O => (anchor, pos, scrollOffset)
  | S j =>
      let sequenceNode := mkViewSequence its j in
      match get sequenceNode with
      | None => (anchor, pos, scrollOffset)
      | Some _ =>
          match lookup_spec specs (Some sequenceNode) with
          | None => (anchor, pos, scrollOffset)
          | Some spec =>
              if trueSizeRequested spec then (anchor, pos, scrollOffset)
              else
                let specOffset := at_index (transform spec) (12 + dir_index d) in
                let specSize := at_index (size spec) (dir_index d) in
                if Qltb (specOffset + specSize) 0 then (anchor, pos, scrollOffset)
                else normalize_prev specs d its j (pos - specSize) (scrollOffset - specSize)
          end
      end
  end.

(** The loop of the branch [scrollOffset < 0]: [prevSequenceNode] is at index
    [i] of [its] and [following] holds the items after it, so that the head
    of [following] is [sequenceNode.get()] and an empty [following] is a null
    [getNext()]. *)
Fixpoint normalize_next (specs : list Spec) (d : direction) (its : list (option RenderNode))
    (following : list (option RenderNode)) (i : nat) (pos scrollOffset : Q)
    {struct following} : walk :=
  let prevSequenceNode := mkViewSequence its i in
  match following with
  | [] => (prevSequenceNode, pos, scrollOffset)
  | None :: _ => (prevSequenceNode, pos, scrollOffset)
  | Some _ :: following' =>
      match lookup_spec specs (Some prevSequenceNode) with
      | None => (prevSequenceNode, pos, scrollOffset)
      | Some prevSpec =>
          if trueSizeRequested prevSpec then (prevSequenceNode, pos, scrollOffset)
          else
            let prevSpecOffset := at_index (transform prevSpec) (12 + dir_index d) in
            let prevSpecSize := at_index (size prevSpec) (dir_index d) in
            if Qgeb (prevSpecOffset + prevSpecSize) 0 then (prevSequenceNode, pos, scrollOffset)
            else normalize_next specs d its following' (S i)
                   (pos + prevSpecSize) (scrollOffset + prevSpecSize)
      end
  end.

Definition commit_walk (s : ScrollView) (w : walk) : completion Q :=
  let '(anchor, pos, scrollOffset) := w in
  Returned (with_scroll (with_viewSequence s (Some anchor)) (setPosition1D pos (_scroll s)))
           scrollOffset.

(** [_normalizeScrollOffset(size, scrollOffset)] *)
Definition _normalizeScrollOffset (size_ : list Q) (scrollOffset : Q) (s : ScrollView)
  : completion Q :=
  match _viewSequence s with
  | None => Returned s scrollOffset
  | Some vs =>
      let specs := target s in
      let d := _direction s in
      let pos := position (particle (_scroll s)) in
      if Qgeb scrollOffset 0 then
        commit_walk s (normalize_prev specs d (items vs) (index vs) pos scrollOffset)
      else
        match last (map Some specs) None with
        | None => TypeError s
        | Some lastSpec =>
            let lastSpecOffset := at_index (transform lastSpec) (12 + dir_index d) in
            let lastSpecSize := at_index (size lastSpec) (dir_index d) in
            if Qltb (lastSpecOffset + lastSpecSize) (at_index size_ (dir_index d))
            then Returned s scrollOffset
            else
              commit_walk s
                (normalize_next specs d (items vs) (skipn (S (index vs)) (items vs))
                   (index vs) pos scrollOffset)
        end
  end.

(** *** The boundary detector *)

(** The forward walk of [_calculateBoundsReached], from the items at and after
    the cursor: [Some spec] when the loop ran to its end with [spec] the value
    of the source's variable, [None] when the function returned from inside
    the loop. *)
Fixpoint walk_to_last (specs : list Spec) (rest : list (option RenderNode))
    (spec : option Spec) : option (option Spec) :=
  match rest with
  | [] => Some spec
  | None :: _ => Some spec
  | Some node :: rest' =>
      match option_map snd (find_spec specs node 0%nat) with
      | None => None
      | Some sp => if trueSizeRequested sp then None else walk_to_last specs rest' (Some sp)
      end
  end.

(** [_calculateBoundsReached(size, scrollOffset)] *)
Definition _calculateBoundsReached (size_ : list Q) (scrollOffset : Q) (s : ScrollView)
  : completion unit :=
  let specs := target s in
  let d := _direction s in
  let b0 := match _viewSequence s with None => Bounds.FIRST | Some _ => Bounds.NONE end in
  (* Check whether the top was reached *)
  let '(b1, spec1) :=
    match specs with
    | first :: _ =>
        if endReachedPrev s && Qgeb scrollOffset 0 then
          (if Qgeb (at_index (transform first) (12 + dir_index d)) 0
           then Z.lor b0 Bounds.FIRST else b0, Some first)
        else (b0, None)
    | [] => (b0, None)
    end in
  let s1 := with_scroll s (set_boundsReached b1 (_scroll s)) in
  (* Check whether the bottom was reached *)
  let rest :=
    match _viewSequence s with
    | None => []
    | Some vs => skipn (index vs) (items vs)
    end in
  match walk_to_last specs rest spec1 with
  | None => Returned s1 tt
  | Some None => TypeError s1
  | Some (Some spec) =>
      let specOffset := at_index (transform spec) (12 + dir_index d) in
      let specSize := at_index (size spec) (dir_index d) in
      if Qgtb (specOffset + specSize) (at_index size_ (dir_index d)) then Returned s1 tt
      else
        let b2 := if endReachedPrev s then Z.lor b1 Bounds.FIRST else b1 in
        let last_ := (at_index size_ (dir_index d) - (specOffset + specSize)) + scrollOffset in
        Returned
          (with_scroll s
             (set_boundsReached (Z.lor b2 Bounds.LAST)
                (set_lastScrollOffset (Some last_) (_scroll s))))
          tt
  end.

End ScrollView.

(** ** Properties of the scroll view *)

Section QFacts.

Lemma Qltb_lt (a b : Q) : Qltb a b = true <-> a < b.
Proof.
  unfold Qltb. rewrite negb_true_iff. split; intro H.
  - apply Qnot_le_lt. intro Hle. apply Qle_bool_iff in Hle. congruence.
  - destruct (Qle_bool b a) eqn:E; [|reflexivity].
    apply Qle_bool_iff in E. exfalso. exact (Qlt_not_le _ _ H E).
Qed.

Lemma Qgtb_gt (a b : Q) : Qgtb a b = true <-> b < a.
Proof. unfold Qgtb. exact (Qltb_lt b a). Qed.

Lemma Qgeb_ge (a b : Q) : Qgeb a b = true <-> b <= a.
Proof. unfold Qgeb. apply Qle_bool_iff. Qed.

Lemma Qgeb_Qltb (a b : Q) : Qgeb a b = negb (Qltb a b).
Proof. unfold Qgeb, Qltb. now rewrite negb_involutive. Qed.

Lemma Math_max_lower (a b : Q) : a <= Math_max a b.
Proof.
  unfold Math_max. destruct (Qle_bool a b) eqn:E.
  - now apply Qle_bool_iff.
  - apply Qle_refl.
Qed.

End QFacts.

Module ScrollViewFacts.
Import ScrollView.

(** [boundsReached & mask] is non-zero. *)
Definition includes (b mask : Z) : Prop := Z.land b mask <> 0%Z.

Lemma has_bit_includes (b mask : Z) : has_bit b mask = true <-> includes b mask.
Proof.
  unfold has_bit, includes. rewrite negb_true_iff. split; intro H.
  - now apply Z.eqb_neq.
  - now apply Z.eqb_neq.
Qed.

Lemma has_bit_excludes (b mask : Z) : has_bit b mask = false <-> ~ includes b mask.
Proof.
  rewrite <- has_bit_includes. destruct (has_bit b mask); split; congruence.
Qed.


(** *** The effective offset and the wheel delta *)

(** A run of wheel [update] events, delivered in order. *)
Fixpoint wheel_updates (events : list Event) (s : ScrollView) : option ScrollView :=
  match events with
  | [] => Some s
  | e :: rest =>
      match _moveUpdate ScrollSync e s with
      | Some s1 => wheel_updates rest s1
      | None => None
      end
  end.

(** d1 + ... + dn along the scroll axis. *)
Definition sum_deltas (d : direction) (events : list Event) : Q :=
  fold_right (fun e acc => along d (ev_delta e) + acc) 0 events.

Lemma wheel_updates_accumulate (events : list Event) :
  forall s, exists s',
    wheel_updates events s = Some s' /\
    scrollDelta (_scroll s') == scrollDelta (_scroll s) + sum_deltas (_direction s) events /\
    moveOffset (_scroll s') = moveOffset (_scroll s) /\
    boundsReached (_scroll s') = boundsReached (_scroll s) /\
    position (particle (_scroll s')) = position (particle (_scroll s)) /\
    particleRounding s' = particleRounding s.
Proof.
  induction events as [|e rest IH]; intro s; simpl.
  - exists s. repeat split; try reflexivity. ring.
  - destruct (IH (with_scroll s
        (setVelocity1D 0
           (set_scrollDelta (scrollDelta (_scroll s) + along (_direction s) (ev_delta e))
              (_scroll s))))) as (s' & Hrun & Hd & Hm & Hb & Hp & Hr).
    exists s'. simpl in *. repeat split; try assumption.
    rewrite Hd. ring.
Qed.

Lemma getParticlePosition_ext (s s' : ScrollView) :
  position (particle (_scroll s')) = position (particle (_scroll s)) ->
  particleRounding s' = particleRounding s ->
  _getParticlePosition s' = _getParticlePosition s.
Proof. unfold _getParticlePosition. intros -> ->. reflexivity. Qed.

(** With no boundary bit set [_getScrollOffset] leaves the scroll view as it
    is and adds the three parts of the offset. *)
Lemma getScrollOffset_no_bounds (s : ScrollView) :
  boundsReached (_scroll s) = Bounds.NONE ->
  _getScrollOffset s =
    (s, _getParticlePosition s + moveOffset (_scroll s) + scrollDelta (_scroll s)).
Proof.
  intro Hb. unfold _getScrollOffset. rewrite Hb.
  unfold has_bit, Bounds.NONE. simpl. rewrite !andb_false_r. reflexivity.
Qed.

(** C2 (as amended): a run of wheel updates with deltas d1..dn, delivered with
    no boundary reached, no drag in progress and no wheel delta pending, makes
    the effective offset the rounded particle position
    ([_getParticlePosition]) plus d1 + ... + dn. *)
Theorem wheel_updates_effective_offset (s : ScrollView) (events : list Event) :
  boundsReached (_scroll s) = Bounds.NONE ->
  moveOffset (_scroll s) == 0 ->
  scrollDelta (_scroll s) == 0 ->
  exists s',
    wheel_updates events s = Some s' /\
    snd (_getScrollOffset s') == _getParticlePosition s + sum_deltas (_direction s) events.
Proof.
  intros Hb Hm Hd.
  destruct (wheel_updates_accumulate events s) as (s' & Hrun & Hd' & Hm' & Hb' & Hp & Hr).
  exists s'. split; [exact Hrun|].
  rewrite getScrollOffset_no_bounds by congruence. simpl.
  rewrite (getParticlePosition_ext s s' Hp Hr), Hm', Hd', Hm, Hd. ring.
Qed.

(** A scroll view at rest: particle at [pos], wheel delta [delta], bounds [b]. *)
Definition scroll_view_at (pos delta : Q) (b : Z) : ScrollView :=
  mkScrollView
    (mkScroll 0 delta None (mkParticle pos 0) b (Some 0))
    None DirY (2 # 10) [] true.

(** A wheel event with the given delta sample. *)
Definition wheel (delta : sample) : Event := mkEvent (Scalar 0) delta None.

Lemma wheel_updates_effective_offset_witness :
  exists s',
    wheel_updates [wheel (Scalar 3); wheel (Vector [0; 4])] (scroll_view_at 7 0 Bounds.NONE)
      = Some s' /\
    snd (_getScrollOffset s') ==
      _getParticlePosition (scroll_view_at 7 0 Bounds.NONE) +
      sum_deltas DirY [wheel (Scalar 3); wheel (Vector [0; 4])].
Proof.
  apply (wheel_updates_effective_offset (scroll_view_at 7 0 Bounds.NONE)
           [wheel (Scalar 3); wheel (Vector [0; 4])]); reflexivity.
Defined.

(** C2 (as stated) fails: with the particle at 1/10 and the default rounding
    of 2/10, one wheel update of 5 gives the effective offset 2/10 + 5, not
    the particle position 1/10 plus 5. *)
Lemma wheel_updates_raw_position_counterexample :
  let s := scroll_view_at (1 # 10) 0 Bounds.NONE in
  boundsReached (_scroll s) = Bounds.NONE /\
  moveOffset (_scroll s) == 0 /\
  exists s',
    wheel_updates [wheel (Scalar 5)] s = Some s' /\
    snd (_getScrollOffset s') == (2 # 10) + 5 /\
    ~ snd (_getScrollOffset s') ==
        position (particle (_scroll s)) + sum_deltas (_direction s) [wheel (Scalar 5)].
Proof.
  cbv zeta. split; [reflexivity|]. split; [reflexivity|].
  eexists. split; [reflexivity|]. split; vm_compute; [reflexivity|discriminate].
Qed.

(** C8: a positive wheel delta with FIRST reached (a negative one with LAST
    reached) is reset to 0 by [_getScrollOffset], nothing else changes (the
    particle stays where it is), and the answer is the rounded particle
    position, [Math.round(position / particleRounding) * particleRounding],
    plus [moveOffset]: the delta has no part in it. *)
Theorem getScrollOffset_halts_at_boundary (s : ScrollView) :
  (0 < scrollDelta (_scroll s) /\ includes (boundsReached (_scroll s)) Bounds.FIRST) \/
  (scrollDelta (_scroll s) < 0 /\ includes (boundsReached (_scroll s)) Bounds.LAST) ->
  fst (_getScrollOffset s) = with_scroll s (set_scrollDelta 0 (_scroll s)) /\
  scrollDelta (_scroll (fst (_getScrollOffset s))) = 0 /\
  snd (_getScrollOffset s) == _getParticlePosition s + moveOffset (_scroll s) /\
  position (particle (_scroll (fst (_getScrollOffset s)))) = position (particle (_scroll s)) /\
  snd (_getScrollOffset s) ==
    Math_round (position (particle (_scroll s)) / particleRounding s) * particleRounding s
    + moveOffset (_scroll s).
Proof.
  intros [[Hd Hb] | [Hd Hb]]; unfold _getScrollOffset.
  - apply Qgtb_gt in Hd. apply has_bit_includes in Hb. rewrite Hd, Hb. simpl.
    repeat split; try reflexivity;
      unfold _getParticlePosition; simpl; ring.
  - assert (Hn : Qgtb (scrollDelta (_scroll s)) 0 = false).
    { destruct (Qgtb (scrollDelta (_scroll s)) 0) eqn:E; [|reflexivity].
      apply Qgtb_gt in E. exfalso. exact (Qlt_irrefl _ (Qlt_trans _ _ _ E Hd)). }
    apply Qltb_lt in Hd. apply has_bit_includes in Hb. rewrite Hn, Hd, Hb. simpl.
    repeat split; try reflexivity;
      unfold _getParticlePosition; simpl; ring.
Qed.

(** The scenario of the specification: a wheel delta of +50 while
    BoundsReached = FIRST, with the particle at 7.13 and the default rounding
    of 0.2.  The delta is dropped and the answer is 7.2, the rounded
    position, not 7.13 and not 57.2. *)
Lemma getScrollOffset_halts_at_boundary_witness :
  let s := scroll_view_at (713 # 100) 50 Bounds.FIRST in
  (fst (_getScrollOffset s) = with_scroll s (set_scrollDelta 0 (_scroll s)) /\
   scrollDelta (_scroll (fst (_getScrollOffset s))) = 0 /\
   snd (_getScrollOffset s) == _getParticlePosition s + moveOffset (_scroll s) /\
   position (particle (_scroll (fst (_getScrollOffset s)))) = 713 # 100 /\
   snd (_getScrollOffset s) ==
     Math_round ((713 # 100) / (2 # 10)) * (2 # 10) + moveOffset (_scroll s)) /\
  snd (_getScrollOffset s) == 72 # 10 /\
  ~ snd (_getScrollOffset s) == 713 # 100.
Proof.
  cbv zeta. split.
  - apply (getScrollOffset_halts_at_boundary (scroll_view_at (713 # 100) 50 Bounds.FIRST)).
    left. split; [reflexivity | discriminate].
  - split; vm_compute; [reflexivity | discriminate].
Defined.

Example getScrollOffset_plus_50_at_first :
  snd (_getScrollOffset (scroll_view_at 7 50 Bounds.FIRST)) == 7.
Proof. vm_compute. reflexivity. Qed.

Example getScrollOffset_minus_50_at_last :
  snd (_getScrollOffset (scroll_view_at 7 (-50) Bounds.BOTH)) == 7 /\
  scrollDelta (_scroll (fst (_getScrollOffset (scroll_view_at 7 (-50) Bounds.BOTH)))) = 0.
Proof. split; vm_compute; reflexivity. Qed.

(** *** Integration of the wheel delta *)

(** With no wheel delta pending [_integrateScrollDelta] returns early and
    leaves the scroll view, the particle included, as it is. *)
Lemma integrateScrollDelta_no_delta (s : ScrollView) :
  scrollDelta (_scroll s) == 0 ->
  _integrateScrollDelta s = Some (s, _getParticlePosition s + moveOffset (_scroll s)).
Proof.
  intro H. unfold _integrateScrollDelta.
  apply Qeq_bool_iff in H. rewrite H. reflexivity.
Qed.

(** C1 (as amended): when a non-zero wheel delta is pending,
    [_integrateScrollDelta] leaves the particle at exactly 0 if FIRST is
    reached, and at or above [lastScrollOffset] if LAST but not FIRST is
    reached, whatever the prior position, delta and [moveOffset]. *)
Theorem integrateScrollDelta_clamps (s : ScrollView) :
  ~ scrollDelta (_scroll s) == 0 ->
  (includes (boundsReached (_scroll s)) Bounds.FIRST ->
   exists s' r,
     _integrateScrollDelta s = Some (s', r) /\
     position (particle (_scroll s')) = 0) /\
  (includes (boundsReached (_scroll s)) Bounds.LAST ->
   ~ includes (boundsReached (_scroll s)) Bounds.FIRST ->
   forall l, lastScrollOffset (_scroll s) = Some l ->
   exists s' r,
     _integrateScrollDelta s = Some (s', r) /\
     l <= position (particle (_scroll s'))).
Proof.
  intro Hd.
  assert (E : Qeq_bool (scrollDelta (_scroll s)) 0 = false).
  { destruct (Qeq_bool (scrollDelta (_scroll s)) 0) eqn:E; [|reflexivity].
    apply Qeq_bool_iff in E. contradiction. }
  split.
  - intro Hf. apply has_bit_includes in Hf.
    unfold _integrateScrollDelta. rewrite E, Hf.
    eexists. eexists. split; reflexivity.
  - intros Hl Hf l Hlast.
    apply has_bit_includes in Hl. apply has_bit_excludes in Hf.
    unfold _integrateScrollDelta. rewrite E, Hf, Hl, Hlast.
    eexists. eexists. split; [reflexivity|]. simpl. apply Math_max_lower.
Qed.

Lemma integrateScrollDelta_clamps_witness :
  (exists s' r,
     _integrateScrollDelta (scroll_view_at 7 50 Bounds.FIRST) = Some (s', r) /\
     position (particle (_scroll s')) = 0) /\
  (exists s' r,
     _integrateScrollDelta (scroll_view_at 7 (-50) Bounds.LAST) = Some (s', r) /\
     0 <= position (particle (_scroll s'))).
Proof.
  split.
  - apply (integrateScrollDelta_clamps (scroll_view_at 7 50 Bounds.FIRST));
      [discriminate | discriminate].
  - apply (integrateScrollDelta_clamps (scroll_view_at 7 (-50) Bounds.LAST));
      [discriminate | discriminate | intro H; apply H; reflexivity | reflexivity].
Defined.

(** C1 (as stated) fails for a zero wheel delta: with FIRST reached and the
    particle at 5 the call returns early and the particle stays at 5. *)
Lemma integrateScrollDelta_zero_delta_counterexample :
  let s := scroll_view_at 5 0 Bounds.FIRST in
  includes (boundsReached (_scroll s)) Bounds.FIRST /\
  exists s' r,
    _integrateScrollDelta s = Some (s', r) /\
    position (particle (_scroll s')) == 5 /\
    ~ position (particle (_scroll s')) == 0.
Proof.
  cbv zeta. split; [discriminate|].
  eexists. eexists. split; [reflexivity|]. split; [reflexivity|discriminate].
Qed.

(** *** The boundary detector *)

(** C5 (as amended): when [_calculateBoundsReached] leaves the FIRST bit set
    and the anchor is not null, the base controller reports the start of the
    sequence reached, and either the scroll offset and the leading edge of the
    first spec are at or after 0, or the end is reached as well (LAST is set:
    the content ends inside the viewport). *)
Theorem calculateBoundsReached_first (size_ : list Q) (scrollOffset : Q)
    (s : ScrollView) (vs : ViewSequence) :
  _viewSequence s = Some vs ->
  includes
    (boundsReached (_scroll (final_state (_calculateBoundsReached size_ scrollOffset s))))
    Bounds.FIRST ->
  endReachedPrev s = true /\
  ((0 <= scrollOffset /\
    exists first rest,
      target s = first :: rest /\
      0 <= at_index (transform first) (12 + dir_index (_direction s))) \/
   includes
     (boundsReached (_scroll (final_state (_calculateBoundsReached size_ scrollOffset s))))
     Bounds.LAST).
Proof.
  intros Hvs. unfold _calculateBoundsReached. rewrite Hvs.
  destruct (target s) as [|first rest] eqn:Ht.
  - (* empty window: the first check is skipped *)
    destruct (walk_to_last [] (skipn (index vs) (items vs)) None) as [[spec|]|];
      simpl; try (intro H; exfalso; apply H; reflexivity).
    destruct (Qgtb _ _); simpl; try (intro H; exfalso; apply H; reflexivity).
    destruct (endReachedPrev s); simpl; intro H.
    + split; [reflexivity|]. right. unfold includes; simpl; discriminate.
    + exfalso; apply H; reflexivity.
  - destruct (endReachedPrev s) eqn:He; simpl.
    + destruct (Qgeb scrollOffset 0) eqn:Hoff; simpl.
      * destruct (Qgeb (at_index (transform first) _) 0) eqn:Hlead.
        -- intros _. split; [reflexivity|]. left.
           apply Qgeb_ge in Hoff. apply Qgeb_ge in Hlead.
           split; [assumption|]. exists first, rest. split; [reflexivity|assumption].
        -- destruct (walk_to_last _ _ _) as [[spec|]|];
             simpl; try (intro H; exfalso; apply H; reflexivity).
           destruct (Qgtb _ _); simpl; try (intro H; exfalso; apply H; reflexivity).
           intros _. split; [reflexivity|]. right. unfold includes; simpl; discriminate.
      * destruct (walk_to_last _ _ _) as [[spec|]|];
          simpl; try (intro H; exfalso; apply H; reflexivity).
        destruct (Qgtb _ _); simpl; try (intro H; exfalso; apply H; reflexivity).
        intros _. split; [reflexivity|]. right. unfold includes; simpl; discriminate.
    + destruct (walk_to_last _ _ _) as [[spec|]|];
        simpl; try (intro H; exfalso; apply H; reflexivity).
      destruct (Qgtb _ _); simpl; intro H; exfalso; apply H; reflexivity.
Qed.

(** A spec owned by [node] at [offset] along the vertical axis, [extent] high. *)
Definition spec_at (node : RenderNode) (offset extent : Q) : Spec :=
  mkSpec (Some node)
    [1; 0; 0; 0;  0; 1; 0; 0;  0; 0; 1; 0;  0; offset; 0; 1]
    [150; extent] false.
Arguments spec_at node%_nat offset%_Q extent%_Q.

(** A vertical scroll view over [its], anchored at index [i], with the window
    [specs] and the particle at [pos]. *)
Definition scroll_view_over (its : list (option RenderNode)) (i : nat)
    (specs : list Spec) (pos : Q) : ScrollView :=
  mkScrollView
    (mkScroll 0 0 None (mkParticle pos 0) Bounds.NONE None)
    (Some (mkViewSequence its i)) DirY (2 # 10) specs true.
Arguments scroll_view_over its%_list i%_nat specs%_list pos%_Q.

(** The first scenario of the specification: items of 100 at 0 and 100 in a
    viewport of 150 give FIRST only. *)
Lemma calculateBoundsReached_first_witness :
  let s := scroll_view_over [Some 0%nat; Some 1%nat] 0
             [spec_at 0 0 100; spec_at 1 100 100] 0 in
  boundsReached (_scroll (final_state (_calculateBoundsReached [150; 150] 0 s)))
    = Bounds.FIRST /\
  (endReachedPrev s = true /\
   ((0 <= 0 /\
     exists first rest,
       target s = first :: rest /\
       0 <= at_index (transform first) (12 + dir_index (_direction s))) \/
    includes
      (boundsReached (_scroll (final_state (_calculateBoundsReached [150; 150] 0 s))))
      Bounds.LAST)).
Proof.
  cbv zeta. split; [reflexivity|].
  apply (calculateBoundsReached_first [150; 150] 0
           (scroll_view_over [Some 0%nat; Some 1%nat] 0
              [spec_at 0 0 100; spec_at 1 100 100] 0)
           (mkViewSequence [Some 0%nat; Some 1%nat] 0));
    [reflexivity | discriminate].
Defined.

(** C5 (as stated) fails: a single item of 50 scrolled to -10 in a viewport
    of 150 ends inside the viewport, so FIRST is set (with LAST) although the
    leading edge of the first spec is -10. *)
Lemma calculateBoundsReached_first_counterexample :
  let s := scroll_view_over [Some 0%nat] 0 [spec_at 0 (-10) 50] (-10) in
  let s' := final_state (_calculateBoundsReached [150; 150] (-10) s) in
  _viewSequence s = Some (mkViewSequence [Some 0%nat] 0) /\
  boundsReached (_scroll s') = Bounds.BOTH /\
  includes (boundsReached (_scroll s')) Bounds.FIRST /\
  exists first rest,
    target s = first :: rest /\
    ~ 0 <= at_index (transform first) (12 + dir_index (_direction s)).
Proof.
  cbv zeta. split; [reflexivity|]. split; [reflexivity|]. split; [discriminate|].
  eexists. eexists. split; [reflexivity|]. vm_compute. intro H. apply H. reflexivity.
Qed.

(** Whenever the detector sets LAST it records [lastScrollOffset]. *)
Lemma calculateBoundsReached_last_offset (size_ : list Q) (scrollOffset : Q) (s : ScrollView) :
  includes
    (boundsReached (_scroll (final_state (_calculateBoundsReached size_ scrollOffset s))))
    Bounds.LAST ->
  exists l,
    lastScrollOffset (_scroll (final_state (_calculateBoundsReached size_ scrollOffset s)))
      = Some l.
Proof.
  unfold _calculateBoundsReached.
  destruct (_viewSequence s) as [vs|]; destruct (target s) as [|first rest];
    destruct (endReachedPrev s); simpl;
    repeat match goal with
      | |- context [if ?c then _ else _] => destruct c; simpl
      | |- context [match walk_to_last ?a ?b ?c with _ => _ end] =>
          destruct (walk_to_last a b c) as [[?|]|]; simpl
      end;
    try (intro H; exfalso; apply H; reflexivity);
    intros _; eexists; reflexivity.
Qed.

(** *** The view-window normaliser *)

Section Walks.

Variable specs : list Spec.
Variable d : direction.
Variable its : list (option RenderNode).

(** The trailing edge of a spec along the scroll axis. *)
Definition trailing_edge (spec : Spec) : Q :=
  at_index (transform spec) (12 + dir_index d) + at_index (size spec) (dir_index d).

(** The backward walk makes no step from index [j]. *)
Definition stop_prev (j : nat) : Prop :=
  forall p o, normalize_prev specs d its j p o = (mkViewSequence its j, p, o).

(** The forward walk makes no step from index [j]. *)
Definition stop_next (j : nat) : Prop :=
  forall p o,
    normalize_next specs d its (skipn (S j) its) j p o = (mkViewSequence its j, p, o).

(** The node at index [j] has a resolved spec in the window. *)
Definition resolved (j : nat) (spec : Spec) : Prop :=
  lookup_spec specs (Some (mkViewSequence its j)) = Some spec /\
  trueSizeRequested spec = false.

Lemma lookup_spec_get (vs : ViewSequence) (spec : Spec) :
  lookup_spec specs (Some vs) = Some spec -> exists node, get vs = Some node.
Proof.
  unfold lookup_spec, _lookupSpecByViewSequence.
  destruct (get vs) as [node|]; [eauto | discriminate].
Qed.

(** Where the backward walk ends it would stop again; and it either made no
    step or ended on a node that is resolved and not wholly before the start. *)
Lemma normalize_prev_end (i : nat) :
  forall pos off a p o,
    normalize_prev specs d its i pos off = (a, p, o) ->
    exists j,
      a = mkViewSequence its j /\ stop_prev j /\
      ((j = i /\ p = pos /\ o = off) \/
       (exists spec, resolved j spec /\ Qltb (trailing_edge spec) 0 = false)).
Proof.
  induction i as [|j IH]; intros pos off a p o H.
  - simpl in H. inversion H; subst. exists 0%nat.
    split; [reflexivity|]. split; [intros p' o'; reflexivity|]. left. auto.
  - cbn [normalize_prev] in H.
    destruct (get (mkViewSequence its j)) as [node|] eqn:Hget.
    2:{ inversion H; subst. exists (S j). split; [reflexivity|]. split; [|left; auto].
        intros p' o'. cbn [normalize_prev]. rewrite Hget. reflexivity. }
    destruct (lookup_spec specs (Some (mkViewSequence its j))) as [spec|] eqn:Hspec.
    2:{ inversion H; subst. exists (S j). split; [reflexivity|]. split; [|left; auto].
        intros p' o'. cbn [normalize_prev]. rewrite Hget, Hspec. reflexivity. }
    destruct (trueSizeRequested spec) eqn:Htsr.
    { inversion H; subst. exists (S j). split; [reflexivity|]. split; [|left; auto].
      intros p' o'. cbn [normalize_prev]. rewrite Hget, Hspec, Htsr. reflexivity. }
    destruct (Qltb (at_index (transform spec) (12 + dir_index d) +
                    at_index (size spec) (dir_index d)) 0) eqn:Hedge.
    { inversion H; subst. exists (S j). split; [reflexivity|]. split; [|left; auto].
      intros p' o'. cbn [normalize_prev]. rewrite Hget, Hspec, Htsr, Hedge. reflexivity. }
    destruct (IH _ _ _ _ _ H) as (k & Ha & Hstop & Hk).
    exists k. split; [exact Ha|]. split; [exact Hstop|]. right.
    destruct Hk as [(Hkj & _ & _) | Hk]; [|exact Hk].
    subst k. exists spec. split; [split; assumption | exact Hedge].
Qed.

Lemma skipn_S_tail {A : Type} (n : nat) (l : list A) (x : A) (r : list A) :
  skipn n l = x :: r -> skipn (S n) l = r.
Proof.
  revert l. induction n as [|n IH]; intros l H.
  - simpl in H. subst l. reflexivity.
  - destruct l as [|y l]; [discriminate|]. simpl in H. apply (IH l H).
Qed.

(** The same for the forward walk: it either made no step or stepped over a
    node that is resolved and wholly before the start. *)
Lemma normalize_next_end (following : list (option RenderNode)) :
  forall i pos off a p o,
    following = skipn (S i) its ->
    normalize_next specs d its following i pos off = (a, p, o) ->
    exists j,
      a = mkViewSequence its j /\ stop_next j /\
      ((j = i /\ p = pos /\ o = off) \/
       (exists k spec, j = S k /\ resolved k spec /\ Qgeb (trailing_edge spec) 0 = false)).
Proof.
  induction following as [|item following' IH]; intros i pos off a p o Hf H.
  - simpl in H. inversion H; subst. exists i.
    split; [reflexivity|]. split; [|left; auto].
    intros p' o'. rewrite <- Hf. reflexivity.
  - cbn [normalize_next] in H. destruct item as [node|].
    2:{ inversion H; subst. exists i. split; [reflexivity|]. split; [|left; auto].
        intros p' o'. rewrite <- Hf. reflexivity. }
    destruct (lookup_spec specs (Some (mkViewSequence its i))) as [spec|] eqn:Hspec.
    2:{ inversion H; subst. exists i. split; [reflexivity|]. split; [|left; auto].
        intros p' o'. rewrite <- Hf. cbn [normalize_next]. rewrite Hspec. reflexivity. }
    destruct (trueSizeRequested spec) eqn:Htsr.
    { inversion H; subst. exists i. split; [reflexivity|]. split; [|left; auto].
      intros p' o'. rewrite <- Hf. cbn [normalize_next]. rewrite Hspec, Htsr. reflexivity. }
    destruct (Qgeb (at_index (transform spec) (12 + dir_index d) +
                    at_index (size spec) (dir_index d)) 0) eqn:Hedge.
    { inversion H; subst. exists i. split; [reflexivity|]. split; [|left; auto].
      intros p' o'. rewrite <- Hf. cbn [normalize_next]. rewrite Hspec, Htsr, Hedge.
      reflexivity. }
    assert (Hf' : following' = skipn (S (S i)) its).
    { symmetry. apply (skipn_S_tail (S i) its (Some node)). symmetry. exact Hf. }
    destruct (IH _ _ _ _ _ _ Hf' H) as (j & Ha & Hstop & Hj).
    exists j. split; [exact Ha|]. split; [exact Hstop|]. right.
    destruct Hj as [(Hji & _ & _) | Hj]; [|exact Hj].
    subst j. exists i, spec. split; [reflexivity|]. split; [split; assumption | exact Hedge].
Qed.

(** A node that is resolved and not wholly before the start stops the
    forward walk. *)
Lemma resolved_visible_stops_next (j : nat) (spec : Spec) :
  resolved j spec -> Qltb (trailing_edge spec) 0 = false -> stop_next j.
Proof.
  intros [Hspec Htsr] Hedge p o.
  destruct (skipn (S j) its) as [|[node|] following']; try reflexivity.
  cbn [normalize_next]. rewrite Hspec, Htsr.
  fold (trailing_edge spec). rewrite Qgeb_Qltb, Hedge. reflexivity.
Qed.

(** A predecessor that is resolved and wholly before the start stops the
    backward walk. *)
Lemma resolved_hidden_stops_prev (k : nat) (spec : Spec) :
  resolved k spec -> Qgeb (trailing_edge spec) 0 = false -> stop_prev (S k).
Proof.
  intros [Hspec Htsr] Hedge p o.
  cbn [normalize_prev].
  destruct (lookup_spec_get _ _ Hspec) as [node Hget].
  rewrite Hget, Hspec, Htsr. fold (trailing_edge spec).
  rewrite Qgeb_Qltb in Hedge. apply negb_false_iff in Hedge. rewrite Hedge. reflexivity.
Qed.

(** A window in which some node has a spec has a last spec. *)
Lemma resolved_last (j : nat) (spec : Spec) :
  resolved j spec -> exists lastSpec, last (map Some specs) None = Some lastSpec.
Proof.
  intros [Hspec _]. unfold lookup_spec, _lookupSpecByViewSequence in Hspec.
  destruct specs as [|sp rest].
  - destruct (get _); discriminate.
  - clear Hspec. revert sp. induction rest as [|sp' rest IH]; intro sp.
    + exists sp. reflexivity.
    + destruct (IH sp') as [l Hl]. exists l. exact Hl.
Qed.

End Walks.

(** The scroll view after a walk that ended at index [j] with the particle at
    [p]. *)
Definition moved_to (s : ScrollView) (its : list (option RenderNode)) (j : nat) (p : Q)
  : ScrollView :=
  with_scroll (with_viewSequence s (Some (mkViewSequence its j)))
    (setPosition1D p (_scroll s)).

Lemma commit_walk_moved (s : ScrollView) (its : list (option RenderNode)) (j : nat) (p o : Q) :
  commit_walk s (mkViewSequence its j, p, o) = Returned (moved_to s its j p) o.
Proof. reflexivity. Qed.

(** Normalising again where the backward walk stops, with an offset at or
    after 0, makes no step. *)
Lemma normalize_again_prev (size_ : list Q) (s : ScrollView)
    (its : list (option RenderNode)) (j : nat) (p o : Q) :
  Qgeb o 0 = true ->
  stop_prev (target s) (_direction s) its j ->
  _normalizeScrollOffset size_ o (moved_to s its j p) = Returned (moved_to s its j p) o.
Proof.
  intros Ho Hprev. unfold _normalizeScrollOffset. simpl.
  rewrite Ho, Hprev. reflexivity.
Qed.

(** Normalising again where the forward walk stops, with an offset before 0
    and a non-empty window, makes no step. *)
Lemma normalize_again_next (size_ : list Q) (s : ScrollView)
    (its : list (option RenderNode)) (j : nat) (p o : Q) :
  Qgeb o 0 = false ->
  (exists lastSpec, last (map Some (target s)) None = Some lastSpec) ->
  stop_next (target s) (_direction s) its j ->
  _normalizeScrollOffset size_ o (moved_to s its j p) = Returned (moved_to s its j p) o.
Proof.
  intros Ho [lastSpec Hl] Hnext. unfold _normalizeScrollOffset. simpl.
  rewrite Ho, Hl. destruct (Qltb _ _); [reflexivity|].
  rewrite Hnext. reflexivity.
Qed.

(** C6: normalisation is idempotent.  When [_normalizeScrollOffset] returns,
    running it again on the scroll view it left, with the offset it returned
    and the same spec window, returns that offset unchanged and leaves the
    anchor and the particle where they are.  (When it throws it has changed
    nothing.) *)
Theorem normalizeScrollOffset_idempotent (size_ : list Q) (scrollOffset : Q) (s : ScrollView) :
  match _normalizeScrollOffset size_ scrollOffset s with
  | Returned s1 scrollOffset1 =>
      _normalizeScrollOffset size_ scrollOffset1 s1 = Returned s1 scrollOffset1
  | TypeError s1 => s1 = s
  end.
Proof.
  destruct (_normalizeScrollOffset size_ scrollOffset s) as [s1 off1|s1] eqn:Hrun.
  2:{ unfold _normalizeScrollOffset in Hrun.
      destruct (_viewSequence s) as [vs|]; [|discriminate].
      destruct (Qgeb scrollOffset 0).
      - destruct (normalize_prev _ _ _ _ _ _) as [[a p] o]. discriminate.
      - destruct (last _ _) as [lastSpec|]; [|now inversion Hrun].
        destruct (Qltb _ _); [discriminate|].
        destruct (normalize_next _ _ _ _ _ _ _) as [[a p] o]. discriminate. }
  pose proof Hrun as Hfirst.
  unfold _normalizeScrollOffset in Hrun.
  destruct (_viewSequence s) as [vs|] eqn:Hvs.
  2:{ inversion Hrun; subst. exact Hfirst. }
  destruct (Qgeb scrollOffset 0) eqn:Hoff.
  - (* the backward walk *)
    destruct (normalize_prev (target s) (_direction s) (items vs) (index vs)
                (position (particle (_scroll s))) scrollOffset) as [[a p] o] eqn:Hwalk.
    destruct (normalize_prev_end _ _ _ _ _ _ _ _ _ Hwalk) as (j & Ha & Hstop & Hj).
    subst a. rewrite commit_walk_moved in Hrun. inversion Hrun; subst s1 off1. clear Hrun.
    destruct Hj as [(Hji & Hp & Ho) | (spec & Hres & Hedge)].
    + subst. apply normalize_again_prev; assumption.
    + destruct (Qgeb o 0) eqn:Ho.
      * apply normalize_again_prev; assumption.
      * apply normalize_again_next; [assumption | |].
        -- eapply resolved_last; eassumption.
        -- eapply resolved_visible_stops_next; eassumption.
  - (* the forward walk *)
    destruct (last (map Some (target s)) None) as [lastSpec|] eqn:Hl; [|discriminate].
    destruct (Qltb _ _) eqn:Hgap.
    { inversion Hrun; subst. exact Hfirst. }
    destruct (normalize_next (target s) (_direction s) (items vs)
                (skipn (S (index vs)) (items vs)) (index vs)
                (position (particle (_scroll s))) scrollOffset) as [[a p] o] eqn:Hwalk.
    destruct (normalize_next_end _ _ _ _ _ _ _ _ _ _ eq_refl Hwalk) as (j & Ha & Hstop & Hj).
    subst a. rewrite commit_walk_moved in Hrun. inversion Hrun; subst s1 off1. clear Hrun.
    destruct Hj as [(Hji & Hp & Ho) | (k & spec & Hjk & Hres & Hedge)].
    + subst. apply normalize_again_next; [assumption | eauto | assumption].
    + destruct (Qgeb o 0) eqn:Ho.
      * subst j. apply normalize_again_prev; [assumption|].
        eapply resolved_hidden_stops_prev; eassumption.
      * apply normalize_again_next; [assumption | eauto | assumption].
Qed.

(** Items of 100 at -120, -20 and 80 in a viewport of 150, scrolled to -120:
    the first call steps over item 0 (offset -20, particle +100) and the
    second call changes nothing. *)
Lemma normalizeScrollOffset_idempotent_witness :
  let its := [Some 0%nat; Some 1%nat; Some 2%nat] in
  let s := scroll_view_over its 0
             [spec_at 0 (-120) 100; spec_at 1 (-20) 100; spec_at 2 80 100] (-120) in
  let s1 := moved_to s its 1 (-120 + 100) in
  _normalizeScrollOffset [150; 150] (-120) s = Returned s1 (-120 + 100) /\
  _normalizeScrollOffset [150; 150] (-120 + 100) s1 = Returned s1 (-120 + 100).
Proof.
  cbv zeta. split; [reflexivity|].
  exact (normalizeScrollOffset_idempotent [150; 150] (-120)
           (scroll_view_over [Some 0%nat; Some 1%nat; Some 2%nat] 0
              [spec_at 0 (-120) 100; spec_at 1 (-20) 100; spec_at 2 80 100] (-120))).
Defined.

(** *** Degenerate inputs of the normaliser *)

(** With a null anchor the offset comes back unchanged and nothing is
    touched. *)
Lemma normalizeScrollOffset_null_anchor (size_ : list Q) (scrollOffset : Q) (s : ScrollView) :
  _viewSequence s = None ->
  _normalizeScrollOffset size_ scrollOffset s = Returned s scrollOffset.
Proof. intro H. unfold _normalizeScrollOffset. rewrite H. reflexivity. Qed.

Lemma moved_to_same (s : ScrollView) (vs : ViewSequence) :
  _viewSequence s = Some vs ->
  moved_to s (items vs) (index vs) (position (particle (_scroll s))) = s.
Proof.
  destruct s as [[mo sd ms [pos vel] br lso] anchor dir rounding specs er].
  destruct vs as [its i]. simpl. intros ->. reflexivity.
Qed.

(** With an empty window and an offset at or after 0 the offset comes back
    unchanged and nothing is touched. *)
Lemma normalizeScrollOffset_empty_window (size_ : list Q) (scrollOffset : Q)
    (s : ScrollView) (vs : ViewSequence) :
  _viewSequence s = Some vs ->
  target s = [] ->
  0 <= scrollOffset ->
  _normalizeScrollOffset size_ scrollOffset s = Returned s scrollOffset.
Proof.
  intros Hvs Ht Hoff. unfold _normalizeScrollOffset. rewrite Hvs, Ht.
  apply Qgeb_ge in Hoff. rewrite Hoff.
  assert (Hstop : forall i p o,
             normalize_prev [] (_direction s) (items vs) i p o
             = (mkViewSequence (items vs) i, p, o)).
  { intros [|j] p o; [reflexivity|]. cbn [normalize_prev].
    destruct (get _); [|reflexivity].
    unfold lookup_spec, _lookupSpecByViewSequence. destruct (get _); reflexivity. }
  rewrite Hstop, commit_walk_moved, (moved_to_same s vs Hvs). reflexivity.
Qed.

(** C7, the code at the failing input: with an anchor, an empty window and an
    offset before 0, [_normalizeScrollOffset] reads [transform] of the
    [undefined] last spec and throws instead of returning the offset. *)
Theorem normalizeScrollOffset_empty_window_throws (size_ : list Q) (scrollOffset : Q)
    (s : ScrollView) (vs : ViewSequence) :
  _viewSequence s = Some vs ->
  target s = [] ->
  scrollOffset < 0 ->
  _normalizeScrollOffset size_ scrollOffset s = TypeError s.
Proof.
  intros Hvs Ht Hoff. unfold _normalizeScrollOffset. rewrite Hvs, Ht.
  assert (Hneg : Qgeb scrollOffset 0 = false).
  { rewrite Qgeb_Qltb. apply Qltb_lt in Hoff. rewrite Hoff. reflexivity. }
  rewrite Hneg. reflexivity.
Qed.

Lemma normalizeScrollOffset_empty_window_throws_witness :
  _normalizeScrollOffset [150; 150] (-1) (scroll_view_over [Some 0%nat] 0 [] 0)
  = TypeError (scroll_view_over [Some 0%nat] 0 [] 0).
Proof.
  apply (normalizeScrollOffset_empty_window_throws [150; 150] (-1)
           (scroll_view_over [Some 0%nat] 0 [] 0) (mkViewSequence [Some 0%nat] 0));
    reflexivity.
Defined.

(** An anchor cursor without a current item is not treated as a null anchor:
    with an offset at or after 0 the walk still steps back onto a preceding
    item that has a spec. *)
Example normalizeScrollOffset_itemless_anchor_steps_back :
  let its := [Some 0%nat; None] in
  let s := scroll_view_over its 1 [spec_at 0 0 100] 0 in
  get (mkViewSequence its 1) = None /\
  _normalizeScrollOffset [150; 150] 0 s = Returned (moved_to s its 0 (0 - 100)) (0 - 100).
Proof. cbv zeta. split; reflexivity. Qed.

End ScrollViewFacts.

(** * LayoutNode

    The [LayoutNode] class.  Its property sets and specs hold arrays that the
    code compares by identity ([===]), writes in place ([setSpec]) and
    allocates ([_modifySpecFromSet], [_interpolateSet]); arrays therefore live
    in a store and are named by their location.  Components of these arrays
    may be [undefined] (the default size is [[undefined, undefined]]), and
    arithmetic on [undefined] gives NaN. *)

From stdpp Require Import base list.

Module LayoutNode.

(** *** Values *)

Inductive value : Type :=
| VUndefined
| VNaN
| VNum (q : Q).

(** Arithmetic after [ToNumber]: [undefined] and NaN give NaN. *)
Definition js_arith (op : Q -> Q -> Q) (a b : value) : value :=
  match a, b with
  | VNum x, VNum y => VNum (op x y)
  | _, _ => VNaN
  end.
Definition js_add : value -> value -> value := js_arith Qplus.
Definition js_sub : value -> value -> value := js_arith Qminus.
Definition js_mul : value -> value -> value := js_arith Qmult.

(** *** The array store *)

Definition loc : Type := nat.
Abbreviation heap := (list (list value)).

(** The array at a location. *)
Definition read (h : heap) (l : loc) : list value := default [] (h !! l).

(** A new array: its location is fresh. *)
Definition alloc (a : list value) (h : heap) : loc * heap := (length h, h ++ [a]).

(** [a[i]]: [undefined] past the end. *)
Definition item (a : list value) (i : nat) : value := default VUndefined (a !! i).

(** [a[i] = v]: a write past the end extends the array. *)
Definition put (i : nat) (v : value) (a : list value) : list value :=
  if Nat.ltb i (length a) then <[i := v]> a
  else a ++ replicate (i - length a) VUndefined ++ [v].

(** [a[i] = v] on the array at [l]. *)
Definition write (l : loc) (i : nat) (v : value) (h : heap) : heap :=
  <[l := put i v (read h l)]> h.

(** *** Property sets *)

(** The animatable properties, in the order of [propertiesWithDefaults]. *)
Inductive channel : Type :=
| Size | Origin | Align | Skew | Rotate | Scale | Translate | Opacity.

Definition channels_in_order : list channel :=
  [Size; Origin; Align; Skew; Rotate; Scale; Translate; Opacity].

Definition propertiesWithDefaults (c : channel) : list value :=
  match c with
  | Size => [VUndefined; VUndefined]
  | Origin => [VNum 0; VNum 0]
  | Align => [VNum 0; VNum 0]
  | Skew => [VNum 0; VNum 0; VNum 0]
  | Rotate => [VNum 0; VNum 0; VNum 0]
  | Scale => [VNum 1; VNum 1; VNum 1]
  | Translate => [VNum 0; VNum 0; VNum 0]
  | Opacity => [VNum 1]
  end.

Definition channel_eqb (a b : channel) : bool :=
  match a, b with
  | Size, Size | Origin, Origin | Align, Align | Skew, Skew
  | Rotate, Rotate | Scale, Scale | Translate, Translate | Opacity, Opacity => true
  | _, _ => false
  end.

(** An array object: one of the module's default arrays or an array of the
    store. *)
Inductive array_ref : Type :=
| DefaultOf (c : channel)
| At (l : loc).

(** The value of a property of a set. *)
Inductive prop : Type :=
| PVal (v : value)
| PArr (a : array_ref).

Definition read_ref (h : heap) (a : array_ref) : list value :=
  match a with
  | DefaultOf c => propertiesWithDefaults c
  | At l => read h l
  end.

(** [p !== undefined] *)
Definition defined (p : prop) : bool :=
  match p with
  | PVal VUndefined => false
  | _ => true
  end.

(** [p] read as a condition: arrays are truthy, 0, NaN and [undefined] are not. *)
Definition truthy (p : prop) : bool :=
  match p with
  | PArr _ => true
  | PVal (VNum q) => negb (Qeq_bool q 0)
  | PVal _ => false
  end.

Definition array_ref_eqb (a b : array_ref) : bool :=
  match a, b with
  | DefaultOf c, DefaultOf c' => channel_eqb c c'
  | At l, At l' => Nat.eqb l l'
  | _, _ => false
  end.

(** [p === q]: arrays by identity, numbers by value, NaN equal to nothing. *)
Definition strict_eq (p q : prop) : bool :=
  match p, q with
  | PArr a, PArr b => array_ref_eqb a b
  | PVal (VNum x), PVal (VNum y) => Qeq_bool x y
  | PVal VUndefined, PVal VUndefined => true
  | _, _ => false
  end.

(** [p[i]], for a [p] that is not [undefined]: a number has no components. *)
Definition index (h : heap) (p : prop) (i : nat) : value :=
  match p with
  | PArr a => item (read_ref h a) i
  | PVal _ => VUndefined
  end.

(** [Array.isArray(p) ? p : [p]] *)
Definition as_array (h : heap) (p : prop) : list value :=
  match p with
  | PArr a => read_ref h a
  | PVal v => [v]
  end.

(** A transition definition, as handed to the [Transitionable]. *)
Record Transition : Type := mkTransition {
  duration : value
}.

(** A property set, as handed to [set]: the eight animatable properties and
    [transition], [hide] ([undefined] reads as [false]) and [scrollLength]. *)
Record LayoutSet : Type := mkSet {
  channels : channel -> prop;
  transition : option Transition;
  hide : bool;
  set_scrollLength : value
}.

(** *** Specs and nodes *)

Definition RenderNode : Type := nat.

(** A spec object.  [s_removed] and [s_hide] read [undefined] as [false]. *)
Record Spec : Type := mkSpec {
  s_renderNode : option RenderNode;
  s_opacity : prop;
  s_size : option loc;
  s_origin : option loc;
  s_align : option loc;
  s_hide : bool;
  s_transform : option loc;
  s_removed : bool
}.

(** [{}] *)
Definition empty_spec : Spec :=
  mkSpec None (PVal VUndefined) None None None false None false.

(** The [Transitionable] a node holds.  The tween itself runs in the
    animation engine: what [get()] and [isActive()] answer at the time of a
    read comes with the read, as a [Clock]. *)
Record Transitionable : Type := mkTransitionable {
  tr_transition : Transition
}.

Record Clock : Type := mkClock {
  tween : Q;
  active : bool
}.

Record LayoutNode : Type := mkNode {
  renderNode : option RenderNode;
  _spec : Spec;
  _specModified : bool;
  _invalidated : bool;
  _removing : bool;
  trueSizeRequested : bool;
  _transitionable : option Transitionable;
  _originalSet : option LayoutSet;
  _lastSet : option LayoutSet;
  _targetSet : option LayoutSet;
  scrollLength : value;
  _viewSequence : option nat
}.

(** The store and the node a method runs on. *)
Record State : Type := mkState {
  arrays : heap;
  this : LayoutNode
}.

(** A method call returns a result or throws a [TypeError]; either way it
    leaves a state. *)
Inductive completion (A : Type) : Type :=
| Normal (a : A) (st : State)
| TypeError (st : State).
Arguments Normal {A} a st.
Arguments TypeError {A} st.

Definition M (A : Type) : Type := State -> completion A.

Definition ret {A : Type} (a : A) : M A := fun st => Normal a st.

Definition bind {A B : Type} (m : M A) (k : A -> M B) : M B :=
  fun st =>
    match m st with
    | Normal a st' => k a st'
    | TypeError st' => TypeError st'
    end.

Definition throw {A : Type} : M A := fun st => TypeError st.

Notation "'let*' x ':=' m 'in' k" := (bind m (fun x => k))
  (at level 10, x name, m at level 100, k at level 200).
Notation "m ';;' k" := (bind m (fun _ => k))
  (at level 100, k at level 200, right associativity).

Definition final_state {A : Type} (c : completion A) : State :=
  match c with
  | Normal _ st => st
  | TypeError st => st
  end.

(** Updates of [this] and of [this._spec]. *)
Definition modify_node (f : LayoutNode -> LayoutNode) : M unit :=
  fun st => Normal tt (mkState (arrays st) (f (this st))).

Definition with_spec (sp : Spec) (n : LayoutNode) : LayoutNode :=
  mkNode (renderNode n) sp (_specModified n) (_invalidated n) (_removing n)
    (trueSizeRequested n) (_transitionable n) (_originalSet n) (_lastSet n)
    (_targetSet n) (scrollLength n) (_viewSequence n).

Definition with_specModified (b : bool) (n : LayoutNode) : LayoutNode :=
  mkNode (renderNode n) (_spec n) b (_invalidated n) (_removing n)
    (trueSizeRequested n) (_transitionable n) (_originalSet n) (_lastSet n)
    (_targetSet n) (scrollLength n) (_viewSequence n).

Definition with_invalidated (b : bool) (n : LayoutNode) : LayoutNode :=
  mkNode (renderNode n) (_spec n) (_specModified n) b (_removing n)
    (trueSizeRequested n) (_transitionable n) (_originalSet n) (_lastSet n)
    (_targetSet n) (scrollLength n) (_viewSequence n).

Definition with_removing (b : bool) (n : LayoutNode) : LayoutNode :=
  mkNode (renderNode n) (_spec n) (_specModified n) (_invalidated n) b
    (trueSizeRequested n) (_transitionable n) (_originalSet n) (_lastSet n)
    (_targetSet n) (scrollLength n) (_viewSequence n).

Definition with_trueSizeRequested (b : bool) (n : LayoutNode) : LayoutNode :=
  mkNode (renderNode n) (_spec n) (_specModified n) (_invalidated n) (_removing n)
    b (_transitionable n) (_originalSet n) (_lastSet n)
    (_targetSet n) (scrollLength n) (_viewSequence n).

Definition with_transitionable (t : option Transitionable) (n : LayoutNode) : LayoutNode :=
  mkNode (renderNode n) (_spec n) (_specModified n) (_invalidated n) (_removing n)
    (trueSizeRequested n) t (_originalSet n) (_lastSet n)
    (_targetSet n) (scrollLength n) (_viewSequence n).

Definition with_originalSet (s : option LayoutSet) (n : LayoutNode) : LayoutNode :=
  mkNode (renderNode n) (_spec n) (_specModified n) (_invalidated n) (_removing n)
    (trueSizeRequested n) (_transitionable n) s (_lastSet n)
    (_targetSet n) (scrollLength n) (_viewSequence n).

Definition with_lastSet (s : option LayoutSet) (n : LayoutNode) : LayoutNode :=
  mkNode (renderNode n) (_spec n) (_specModified n) (_invalidated n) (_removing n)
    (trueSizeRequested n) (_transitionable n) (_originalSet n) s
    (_targetSet n) (scrollLength n) (_viewSequence n).

Definition with_targetSet (s : option LayoutSet) (n : LayoutNode) : LayoutNode :=
  mkNode (renderNode n) (_spec n) (_specModified n) (_invalidated n) (_removing n)
    (trueSizeRequested n) (_transitionable n) (_originalSet n) (_lastSet n)
    s (scrollLength n) (_viewSequence n).

Definition with_scrollLength (v : value) (n : LayoutNode) : LayoutNode :=
  mkNode (renderNode n) (_spec n) (_specModified n) (_invalidated n) (_removing n)
    (trueSizeRequested n) (_transitionable n) (_originalSet n) (_lastSet n)
    (_targetSet n) v (_viewSequence n).

Definition modify_spec (f : Spec -> Spec) : M unit :=
  modify_node (fun n => with_spec (f (_spec n)) n).

(** The three two-component properties of a spec. *)
Inductive pair_field : Type := FAlign | FOrigin | FSize.

Definition get_pair (f : pair_field) (sp : Spec) : option loc :=
  match f with
  | FAlign => s_align sp
  | FOrigin => s_origin sp
  | FSize => s_size sp
  end.

Definition set_pair (f : pair_field) (v : option loc) (sp : Spec) : Spec :=
  match f with
  | FAlign =>
      mkSpec (s_renderNode sp) (s_opacity sp) (s_size sp) (s_origin sp) v
        (s_hide sp) (s_transform sp) (s_removed sp)
  | FOrigin =>
      mkSpec (s_renderNode sp) (s_opacity sp) (s_size sp) v (s_align sp)
        (s_hide sp) (s_transform sp) (s_removed sp)
  | FSize =>
      mkSpec (s_renderNode sp) (s_opacity sp) v (s_origin sp) (s_align sp)
        (s_hide sp) (s_transform sp) (s_removed sp)
  end.

Definition set_transform (v : option loc) (sp : Spec) : Spec :=
  mkSpec (s_renderNode sp) (s_opacity sp) (s_size sp) (s_origin sp) (s_align sp)
    (s_hide sp) v (s_removed sp).

Definition set_opacity (p : prop) (sp : Spec) : Spec :=
  mkSpec (s_renderNode sp) p (s_size sp) (s_origin sp) (s_align sp)
    (s_hide sp) (s_transform sp) (s_removed sp).

Definition set_hide (b : bool) (sp : Spec) : Spec :=
  mkSpec (s_renderNode sp) (s_opacity sp) (s_size sp) (s_origin sp) (s_align sp)
    b (s_transform sp) (s_removed sp).

Definition set_removed (b : bool) (sp : Spec) : Spec :=
  mkSpec (s_renderNode sp) (s_opacity sp) (s_size sp) (s_origin sp) (s_align sp)
    (s_hide sp) (s_transform sp) b.

Definition set_renderNode (r : option RenderNode) (sp : Spec) : Spec :=
  mkSpec r (s_opacity sp) (s_size sp) (s_origin sp) (s_align sp)
    (s_hide sp) (s_transform sp) (s_removed sp).

(** [this._transitionable] read as a condition. *)
Definition present_transitionable (n : LayoutNode) : bool :=
  match _transitionable n with Some _ => true | None => false end.

(** An array field read as a condition. *)
Definition present (r : option loc) : bool :=
  match r with Some _ => true | None => false end.

(** [new LayoutNode(renderNode, spec)].  [cloned] is the initial spec as
    [LayoutUtility.cloneSpec] (not part of this source) copied it, [None]
    when the node is constructed without a spec. *)
Definition new_LayoutNode (node : option RenderNode) (cloned : option Spec) : LayoutNode :=
  let spec := match cloned with Some sp => sp | None => empty_spec end in
  mkNode node (set_renderNode node spec) true false false false
    None None None None VUndefined None.

(** [setRenderNode(renderNode)] *)
Definition setRenderNode (node : option RenderNode) : M unit :=
  modify_node (fun n =>
    mkNode node (set_renderNode node (_spec n)) (_specModified n) (_invalidated n)
      (_removing n) (trueSizeRequested n) (_transitionable n) (_originalSet n)
      (_lastSet n) (_targetSet n) (scrollLength n) (_viewSequence n)).

(** [reset()] *)
Definition reset : M unit :=
  modify_node (fun n => with_trueSizeRequested false (with_invalidated false n)).

(** [remove(removeSpec)] *)
Definition remove (removeSpec : option Spec) : M unit :=
  modify_node (with_removing true).

(** *** [setSpec] *)

(** [this._spec.F[i] = spec.F[i]]: a [TypeError] when [this._spec.F] is
    [undefined]. *)
Definition assign_pair_item (f : pair_field) (src : loc) (i : nat) : M unit :=
  fun st =>
    match get_pair f (_spec (this st)) with
    | Some dst =>
        Normal tt (mkState (write dst i (item (read (arrays st) src) i) (arrays st)) (this st))
    | None => TypeError st
    end.

(** One of the three blocks of [setSpec] for align, origin and size. *)
Definition setSpec_pair (f : pair_field) (spec : Spec) : M unit :=
  match get_pair f spec with
  | Some src =>
      (if negb (present (get_pair f spec))
       then (fun st =>
               let '(l, h) := alloc [VNum 0; VNum 0] (arrays st) in
               Normal tt (mkState h (with_spec (set_pair f (Some l) (_spec (this st))) (this st))))
       else ret tt) ;;
      assign_pair_item f src 0 ;;
      assign_pair_item f src 1
  | None => modify_spec (set_pair f None)
  end.

(** [this._spec.transform[i] = spec.transform[i]] *)
Definition assign_transform_item (src : loc) (i : nat) : M unit :=
  fun st =>
    match s_transform (_spec (this st)) with
    | Some dst =>
        Normal tt (mkState (write dst i (item (read (arrays st) src) i) (arrays st)) (this st))
    | None => TypeError st
    end.

(** [for (var i = ...) body(i)] over the given indices. *)
Fixpoint for_each (indices : list nat) (body : nat -> M unit) : M unit :=
  match indices with
  | [] => ret tt
  | i :: rest => body i ;; for_each rest body
  end.

(** [setSpec(spec)] *)
Definition setSpec (spec : Spec) : M unit :=
  modify_node (with_specModified true) ;;
  setSpec_pair FAlign spec ;;
  setSpec_pair FOrigin spec ;;
  setSpec_pair FSize spec ;;
  modify_spec (set_hide (s_hide spec)) ;;
  match s_transform spec with
  | Some src =>
      if negb (present (s_transform spec))
      then (fun st =>
              (* spec.transform.slice(0) *)
              let '(l, h) := alloc (read (arrays st) src) (arrays st) in
              Normal tt (mkState h (with_spec (set_transform (Some l) (_spec (this st))) (this st))))
      else for_each (seq 0 16) (assign_transform_item src)
  | None => modify_spec (set_transform None)
  end ;;
  modify_spec (set_opacity (s_opacity spec)).

(** *** Sets, specs and the interpolation *)

Section Famous.

(** [Transform.build({translate, skew, scale, rotate})] and
    [Transform.translate(x, y, z)] of the famo.us core, which are not part of
    this source: each answers a new array of sixteen components.  [build]
    takes the components of its four arrays. *)
Variable Transform_build :
  list value -> list value -> list value -> list value -> list value.
Variable Transform_translate : value -> value -> value -> list value.

(** [v === undefined ? d : v] *)
Definition or_default (v d : value) : value :=
  match v with
  | VUndefined => d
  | _ => v
  end.

(** The new two-component array that [_modifySpecFromSet] builds for size,
    origin or align, [None] when the property is not set. *)
Definition pair_from_set (h : heap) (set : LayoutSet) (c : channel) : option (list value) :=
  let p := channels set c in
  let defaultProperty := propertiesWithDefaults c in
  if truthy p
  then Some [or_default (index h p 0) (item defaultProperty 0);
             or_default (index h p 1) (item defaultProperty 1)]
  else None.

(** [p || dflt], as the components [Transform.build] reads. *)
Definition components_or (h : heap) (p : prop) (dflt : list value) : list value :=
  if truthy p then
    match p with
    | PArr a => read_ref h a
    | PVal _ => []
    end
  else dflt.

(** The transform that [_modifySpecFromSet] derives from a set, [None] when
    there is no translate, skew, rotate or scale. *)
Definition transform_from_set (h : heap) (set : LayoutSet) : option (list value) :=
  let p := channels set in
  if truthy (p Skew) || truthy (p Rotate) || truthy (p Scale) then
    Some (Transform_build
            (components_or h (p Translate) [VNum 0; VNum 0; VNum 0])
            (components_or h (p Skew) [VNum 0; VNum 0; VNum 0])
            (components_or h (p Scale) [VNum 1; VNum 1; VNum 1])
            (components_or h (p Rotate) [VNum 0; VNum 0; VNum 0]))
  else if truthy (p Translate) then
    Some (Transform_translate (index h (p Translate) 0) (index h (p Translate) 1)
            (index h (p Translate) 2))
  else None.

(** Stores a new array when there is one. *)
Definition alloc_opt (a : option (list value)) (h : heap) : option loc * heap :=
  match a with
  | Some items => let '(l, h') := alloc items h in (Some l, h')
  | None => (None, h)
  end.

(** [_modifySpecFromSet(spec, set)], on a spec object [spec]. *)
Definition _modifySpecFromSet (spec : Spec) (set : LayoutSet) (h : heap) : Spec * heap :=
  let '(size_, h1) := alloc_opt (pair_from_set h set Size) h in
  let '(origin_, h2) := alloc_opt (pair_from_set h1 set Origin) h1 in
  let '(align_, h3) := alloc_opt (pair_from_set h2 set Align) h2 in
  let '(transform_, h4) := alloc_opt (transform_from_set h3 set) h3 in
  (mkSpec (s_renderNode spec) (channels set Opacity) size_ origin_ align_
     (hide set) transform_ (s_removed spec),
   h4).

(** The set under construction in [_interpolateSet]. *)
Definition assign (c : channel) (p : prop) (result : channel -> prop) : channel -> prop :=
  fun c' => if channel_eqb c' c then p else result c'.

(** The components of a tweened property. *)
Definition tweened (tweenValue : Q) (tweenFrom tweenTo : list value) (numberOfDimensions : nat)
  : list value :=
  map (fun dimension =>
         js_add (item tweenFrom dimension)
           (js_mul (js_sub (item tweenTo dimension) (item tweenFrom dimension))
              (VNum tweenValue)))
      (seq 0 numberOfDimensions).

(** One turn of the loop over [propertiesWithDefaults]: the store, the set
    under construction and whether [_specModified] was raised. *)
Definition tween_property (tweenValue : Q) (tweenFromSet tweenToSet : LayoutSet) (c : channel)
    (acc : heap * (channel -> prop) * bool) : heap * (channel -> prop) * bool :=
  let '(h, resultingSet, modified) := acc in
  let defaultProperty := PArr (DefaultOf c) in
  let tweenFrom :=
    if defined (channels tweenFromSet c) then channels tweenFromSet c else defaultProperty in
  let tweenTo :=
    if defined (channels tweenToSet c) then channels tweenToSet c else tweenFrom in
  if strict_eq tweenTo tweenFrom then (h, assign c tweenTo resultingSet, modified)
  else
    let numberOfDimensions := length (propertiesWithDefaults c) in
    let '(l, h') :=
      alloc (tweened tweenValue (as_array h tweenFrom) (as_array h tweenTo) numberOfDimensions)
        h in
    (h', assign c (PArr (At l)) resultingSet, true).

(** [_interpolateSet()], with the clock's [tween] as the answer of
    [this._transitionable.get()]. *)
Definition _interpolateSet (clock : Clock) : M (option LayoutSet) :=
  fun st =>
    let n := this st in
    match _transitionable n with
    | None => TypeError st
    | Some _ =>
        let tweenValue := tween clock in
        match _originalSet n with
        | None => Normal (_lastSet n) st
        | Some tweenFromSet =>
            if Qeq_bool tweenValue 1 then Normal (_lastSet n) st
            else
              match _lastSet n with
              | None => TypeError st
              | Some tweenToSet =>
                  let '(h, resultingSet, modified) :=
                    fold_left
                      (fun acc c => tween_property tweenValue tweenFromSet tweenToSet c acc)
                      channels_in_order
                      (arrays st, (fun _ => PVal VUndefined), false) in
                  let resultingSet' :=
                    assign Opacity (PVal (index h (resultingSet Opacity) 0)) resultingSet in
                  Normal (Some (mkSet resultingSet' None false VUndefined))
                    (mkState h
                       (if modified then with_specModified true n else n))
              end
        end
    end.

(** What [getSpec] answers: the committed spec object itself ([this._spec])
    or a new spec object. *)
Inductive spec_read : Type :=
| Committed
| Fresh (spec : Spec).

(** [_getFinalSpec()], with the clock's [active] as the answer of
    [this._transitionable.isActive()]. *)
Definition _getFinalSpec (clock : Clock) : M spec_read :=
  fun st =>
    let n := this st in
    if present_transitionable n && negb (s_hide (_spec n)) then
      ((if negb (active clock) then modify_node (with_transitionable None) else ret tt) ;;
       let* set := _interpolateSet clock in
       fun st' =>
         let spec := set_renderNode (s_renderNode (_spec (this st'))) empty_spec in
         match set with
         | None => TypeError st'
         | Some set_ =>
             let '(spec', h) := _modifySpecFromSet spec set_ (arrays st') in
             Normal (Fresh spec') (mkState h (this st'))
         end) st
    else Normal Committed st.

(** [getSpec()] *)
Definition getSpec (clock : Clock) : M spec_read :=
  modify_node (with_specModified false) ;;
  modify_node (fun n => with_spec (set_removed (negb (_invalidated n)) (_spec n)) n) ;;
  _getFinalSpec clock.

(** [new Transitionable(0)] set to run to 1 with [transition].  The
    completion callback handed to it is a plain function and is called
    without a receiver, so it cannot reach the node: it is not part of the
    node's state. *)
Definition start_transitionable (tr : Transition) : Transitionable :=
  mkTransitionable tr.

(** [set(set, size)] *)
Definition set (set_ : LayoutSet) (size_ : option (list value)) : M unit :=
  (match transition set_ with
   | Some tr =>
       modify_node (with_targetSet (Some set_)) ;;
       (fun st =>
          if present_transitionable (this st) then Normal tt st
          else modify_node (with_transitionable (Some (start_transitionable tr))) st)
   | None => ret tt
   end) ;;
  (fun st =>
     if present_transitionable (this st) then Normal tt st
     else modify_node (with_originalSet (Some set_)) st) ;;
  modify_node (with_lastSet (Some set_)) ;;
  modify_node (with_invalidated true) ;;
  modify_node (with_specModified true) ;;
  modify_node (with_removing false) ;;
  (fun st =>
     let '(spec', h) := _modifySpecFromSet (_spec (this st)) set_ (arrays st) in
     Normal tt (mkState h (with_spec spec' (this st)))) ;;
  modify_node (with_scrollLength (set_scrollLength set_)).

(** [transition(transition, onComplete)]: the running interpolation, if any,
    is sampled and becomes the new start. *)
Definition transition_ (clock : Clock) (tr : Transition) : M unit :=
  let* original :=
    (fun st =>
       if present_transitionable (this st) then _interpolateSet clock st
       else Normal (_lastSet (this st)) st) in
  modify_node (with_originalSet original) ;;
  let duration' :=
    match duration tr with
    | VNum q => if Qeq_bool q 0 then VNum 200 else VNum q
    | _ => VNum 200
    end in
  modify_node (with_transitionable (Some (start_transitionable (mkTransition duration')))).

End Famous.

End LayoutNode.

(** ** Properties of the layout node *)

Module LayoutNodeFacts.
Import LayoutNode.

(** *** The array store *)

Lemma length_write (l : loc) (i : nat) (v : value) (h : heap) :
  length (write l i v h) = length h.
Proof. unfold write. apply length_insert. Qed.

Lemma read_write_eq (l : loc) (i : nat) (v : value) (h : heap) :
  (l < length h)%nat -> read (write l i v h) l = put i v (read h l).
Proof.
  intro H. unfold read at 1, write. rewrite list_lookup_insert_eq by exact H. reflexivity.
Qed.

Lemma read_write_ne (l l' : loc) (i : nat) (v : value) (h : heap) :
  l <> l' -> read (write l i v h) l' = read h l'.
Proof.
  intro H. unfold read, write. rewrite list_lookup_insert_ne by exact H. reflexivity.
Qed.

Lemma item_put_eq (i : nat) (v : value) (a : list value) : item (put i v a) i = v.
Proof.
  unfold item, put. destruct (Nat.ltb_spec i (length a)) as [H|H].
  - rewrite list_lookup_insert_eq by exact H. reflexivity.
  - rewrite lookup_app_r by lia.
    rewrite lookup_app_r; rewrite length_replicate; [|lia].
    replace (i - length a - (i - length a))%nat with 0%nat by lia. reflexivity.
Qed.

Lemma item_put_ne (i j : nat) (v : value) (a : list value) :
  i <> j -> item (put i v a) j = item a j.
Proof.
  intro Hne. unfold item, put. destruct (Nat.ltb_spec i (length a)) as [H|H].
  - rewrite list_lookup_insert_ne by exact Hne. reflexivity.
  - destruct (decide (j < length a)%nat) as [Hj|Hj].
    + rewrite lookup_app_l by exact Hj. reflexivity.
    + rewrite lookup_app_r by lia.
      rewrite (lookup_ge_None_2 a j) by lia. simpl.
      destruct (decide (j - length a < i - length a)%nat) as [Hk|Hk].
      * rewrite lookup_app_l by (rewrite length_replicate; exact Hk).
        rewrite lookup_replicate_2 by exact Hk. reflexivity.
      * rewrite lookup_app_r by (rewrite length_replicate; lia).
        rewrite length_replicate.
        destruct (j - length a - (i - length a))%nat as [|k] eqn:E; [lia|]. reflexivity.
Qed.

(** *** [remove] *)

(** C10: [remove(removeSpec)] only raises [_removing]: whatever [removeSpec]
    is, the call returns, the committed spec, the interpolation (the
    transitionable and its start, last and target sets), the invalidation
    flag, the render node and the array store are as before. *)
Theorem remove_only_flags (removeSpec : option Spec) (st : State) :
  exists st',
    remove removeSpec st = Normal tt st' /\
    _removing (this st') = true /\
    arrays st' = arrays st /\
    _spec (this st') = _spec (this st) /\
    _transitionable (this st') = _transitionable (this st) /\
    _originalSet (this st') = _originalSet (this st) /\
    _lastSet (this st') = _lastSet (this st) /\
    _targetSet (this st') = _targetSet (this st) /\
    _invalidated (this st') = _invalidated (this st) /\
    _specModified (this st') = _specModified (this st) /\
    renderNode (this st') = renderNode (this st) /\
    trueSizeRequested (this st') = trueSizeRequested (this st) /\
    scrollLength (this st') = scrollLength (this st) /\
    _viewSequence (this st') = _viewSequence (this st).
Proof.
  eexists. split; [reflexivity|]. simpl. repeat split; reflexivity.
Qed.

(** *** [setSpec] *)

(** The store after [dst[i] = src[i]] for each of [indices] in turn. *)
Fixpoint copy_items (dst src : loc) (indices : list nat) (h : heap) : heap :=
  match indices with
  | [] => h
  | i :: rest => copy_items dst src rest (write dst i (item (read h src) i) h)
  end.

Lemma length_copy_items (dst src : loc) (indices : list nat) :
  forall h, length (copy_items dst src indices h) = length h.
Proof.
  induction indices as [|i rest IH]; intro h; simpl; [reflexivity|].
  rewrite IH. apply length_write.
Qed.

(** Copying from another array leaves the source as it is and makes the
    destination agree with it on the copied indices. *)
Lemma copy_items_distinct (dst src : loc) (indices : list nat) :
  dst <> src ->
  forall h, (dst < length h)%nat ->
    read (copy_items dst src indices h) src = read h src /\
    forall i, item (read (copy_items dst src indices h) dst) i =
              if decide (i ∈ indices) then item (read h src) i else item (read h dst) i.
Proof.
  intro Hne. induction indices as [|j rest IH]; intros h Hdst; simpl.
  - split; [reflexivity|]. intro i.
    destruct (decide (i ∈ [])) as [Hin|_]; [|reflexivity].
    apply elem_of_nil in Hin. contradiction.
  - destruct (IH (write dst j (item (read h src) j) h)) as [Hsrc Hitems].
    { rewrite length_write. exact Hdst. }
    rewrite read_write_ne in Hsrc by exact Hne.
    split; [exact Hsrc|]. intro i. rewrite Hitems.
    rewrite read_write_ne by exact Hne. rewrite read_write_eq by exact Hdst.
    destruct (decide (i ∈ rest)) as [Hr|Hr].
    + destruct (decide (i ∈ j :: rest)) as [_|Hn]; [reflexivity|].
      exfalso. apply Hn. apply elem_of_cons. right. exact Hr.
    + destruct (decide (i = j)) as [->|Hij].
      * rewrite item_put_eq.
        destruct (decide (j ∈ j :: rest)) as [_|Hn]; [reflexivity|].
        exfalso. apply Hn. apply elem_of_cons. left. reflexivity.
      * rewrite item_put_ne by congruence.
        destruct (decide (i ∈ j :: rest)) as [Hin|_]; [|reflexivity].
        apply elem_of_cons in Hin. destruct Hin; contradiction.
Qed.

(** After the copy the destination agrees with the source on every copied
    index, also when both are the same array. *)
Lemma copy_items_agree (dst src : loc) (indices : list nat) (h : heap) (i : nat) :
  (dst < length h)%nat ->
  i ∈ indices ->
  item (read (copy_items dst src indices h) dst) i =
  item (read (copy_items dst src indices h) src) i.
Proof.
  intros Hdst Hin. destruct (decide (dst = src)) as [->|Hne]; [reflexivity|].
  destruct (copy_items_distinct dst src indices Hne h Hdst) as [Hsrc Hitems].
  rewrite Hsrc, Hitems. destruct (decide (i ∈ indices)); [reflexivity|contradiction].
Qed.

(** The loop of [setSpec] over the transform, on a node whose committed spec
    holds a transform array. *)
Lemma for_each_transform_items (src dst : loc) (indices : list nat) :
  forall st,
    s_transform (_spec (this st)) = Some dst ->
    for_each indices (assign_transform_item src) st =
    Normal tt (mkState (copy_items dst src indices (arrays st)) (this st)).
Proof.
  induction indices as [|i rest IH]; intros st Hdst; simpl.
  - destruct st; reflexivity.
  - unfold bind. unfold assign_transform_item at 1. rewrite Hdst.
    rewrite IH by exact Hdst. reflexivity.
Qed.

(** Without a committed transform array the first assignment throws. *)
Lemma for_each_transform_throws (src : loc) (i : nat) (rest : list nat) (st : State) :
  s_transform (_spec (this st)) = None ->
  for_each (i :: rest) (assign_transform_item src) st = TypeError st.
Proof.
  intro H. simpl. unfold bind, assign_transform_item. rewrite H. reflexivity.
Qed.

(** A block of [setSpec] for align, origin or size allocates nothing and
    leaves the committed transform reference alone, whether it returns or
    throws. *)
Lemma setSpec_pair_frame (f : pair_field) (spec : Spec) (st : State) :
  length (arrays (final_state (setSpec_pair f spec st))) = length (arrays st) /\
  s_transform (_spec (this (final_state (setSpec_pair f spec st)))) =
  s_transform (_spec (this st)).
Proof.
  unfold setSpec_pair.
  destruct (get_pair f spec) as [src|] eqn:Hsrc.
  - simpl. unfold bind, ret, assign_pair_item.
    destruct (get_pair f (_spec (this st))) as [dst|] eqn:Hdst; simpl.
    + rewrite Hdst. simpl. rewrite !length_write. split; reflexivity.
    + split; reflexivity.
  - simpl. split; [reflexivity|]. destruct f; reflexivity.
Qed.

(** A block of [setSpec] for align, origin or size, as it ends. *)
Lemma setSpec_pair_result (f : pair_field) (spec : Spec) (st : State) :
  setSpec_pair f spec st =
  match get_pair f spec with
  | Some src =>
      match get_pair f (_spec (this st)) with
      | Some dst => Normal tt (mkState (copy_items dst src [0; 1]%nat (arrays st)) (this st))
      | None => TypeError st
      end
  | None =>
      Normal tt (mkState (arrays st) (with_spec (set_pair f None (_spec (this st))) (this st)))
  end.
Proof.
  unfold setSpec_pair.
  destruct (get_pair f spec) as [src|]; [|reflexivity].
  cbn [present negb]. unfold bind, ret, assign_pair_item.
  destruct (get_pair f (_spec (this st))) as [dst|] eqn:Hdst; [|reflexivity].
  cbn [this arrays]. rewrite Hdst. reflexivity.
Qed.

(** Writing a component back into its own place changes no component. *)
Lemma item_put_same (i : nat) (a : list value) (j : nat) :
  item (put i (item a i) a) j = item a j.
Proof.
  destruct (decide (i = j)) as [->|H]; [apply item_put_eq | apply item_put_ne; exact H].
Qed.

Lemma copy_items_self (d : loc) (indices : list nat) :
  forall h, (d < length h)%nat ->
    forall j, item (read (copy_items d d indices h) d) j = item (read h d) j.
Proof.
  induction indices as [|i rest IH]; intros h Hd j; simpl; [reflexivity|].
  rewrite IH by (rewrite length_write; exact Hd).
  rewrite read_write_eq by exact Hd. apply item_put_same.
Qed.

(** After the copy the destination holds, at every copied index, the
    component the source held before the copy. *)
Lemma copy_items_from (dst src : loc) (indices : list nat) (h : heap) (i : nat) :
  (dst < length h)%nat ->
  i ∈ indices ->
  item (read (copy_items dst src indices h) dst) i = item (read h src) i.
Proof.
  intros Hd Hin. destruct (decide (dst = src)) as [->|Hne];
    [apply copy_items_self; exact Hd|].
  destruct (copy_items_distinct dst src indices Hne h Hd) as [_ Hitems].
  rewrite Hitems. destruct (decide (i ∈ indices)); [reflexivity|contradiction].
Qed.

(** The copy writes into the destination only. *)
Lemma copy_items_other (dst src : loc) (indices : list nat) (l : loc) :
  l <> dst -> forall h, read (copy_items dst src indices h) l = read h l.
Proof.
  intro Hne. induction indices as [|i rest IH]; intro h; simpl; [reflexivity|].
  rewrite IH. apply read_write_ne. congruence.
Qed.

(** The store as one block of [setSpec] for align, origin or size leaves it,
    when the block returns: two components copied into the committed array
    when the incoming spec carries the property, nothing otherwise. *)
Definition copy_pair (incoming committed : option loc) (h : heap) : heap :=
  match incoming, committed with
  | Some src, Some dst => copy_items dst src [0; 1]%nat h
  | _, _ => h
  end.

(** The store as the align, origin and size blocks leave it, in the order of
    the source: what the transform block of [setSpec] starts from. *)
Definition after_pairs (spec committed : Spec) (h : heap) : heap :=
  copy_pair (s_size spec) (s_size committed)
    (copy_pair (s_origin spec) (s_origin committed)
       (copy_pair (s_align spec) (s_align committed) h)).

Lemma copy_pair_other (incoming committed : option loc) (h : heap) (l : loc) :
  committed <> Some l -> read (copy_pair incoming committed h) l = read h l.
Proof.
  intro H. unfold copy_pair. destruct incoming as [src|], committed as [dst|];
    try reflexivity.
  apply copy_items_other. congruence.
Qed.

(** The three blocks write into the committed align, origin and size arrays
    only. *)
Lemma after_pairs_other (spec committed : Spec) (h : heap) (l : loc) :
  (forall f, get_pair f committed <> Some l) ->
  read (after_pairs spec committed h) l = read h l.
Proof.
  intro H. unfold after_pairs.
  rewrite !copy_pair_other; [reflexivity | exact (H FAlign) | exact (H FOrigin) | exact (H FSize)].
Qed.

(** The statements of [setSpec] before the transform block. *)
Definition setSpec_prefix (spec : Spec) : M unit :=
  modify_node (with_specModified true) ;;
  setSpec_pair FAlign spec ;;
  setSpec_pair FOrigin spec ;;
  setSpec_pair FSize spec ;;
  modify_spec (set_hide (s_hide spec)).

(** The transform block of [setSpec] and the assignment of the opacity. *)
Definition setSpec_suffix (spec : Spec) : M unit :=
  match s_transform spec with
  | Some src =>
      if negb (present (s_transform spec))
      then (fun st =>
              let '(l, h) := alloc (read (arrays st) src) (arrays st) in
              Normal tt (mkState h (with_spec (set_transform (Some l) (_spec (this st))) (this st))))
      else for_each (seq 0 16) (assign_transform_item src)
  | None => modify_spec (set_transform None)
  end ;;
  modify_spec (set_opacity (s_opacity spec)).

Lemma setSpec_split (spec : Spec) (st : State) :
  setSpec spec st =
  match setSpec_prefix spec st with
  | Normal _ st1 => setSpec_suffix spec st1
  | TypeError st1 => TypeError st1
  end.
Proof.
  unfold setSpec, setSpec_prefix, setSpec_suffix, bind. simpl.
  destruct (setSpec_pair FAlign spec _) as [[] st1|st1]; [|reflexivity].
  destruct (setSpec_pair FOrigin spec _) as [[] st2|st2]; [|reflexivity].
  destruct (setSpec_pair FSize spec _) as [[] st3|st3]; reflexivity.
Qed.

Lemma setSpec_prefix_frame (spec : Spec) (st : State) :
  length (arrays (final_state (setSpec_prefix spec st))) = length (arrays st) /\
  s_transform (_spec (this (final_state (setSpec_prefix spec st)))) =
  s_transform (_spec (this st)).
Proof.
  unfold setSpec_prefix, bind. simpl.
  set (st0 := mkState (arrays st) (with_specModified true (this st))).
  destruct (setSpec_pair_frame FAlign spec st0) as [L1 T1].
  destruct (setSpec_pair FAlign spec st0) as [[] st1|st1]; simpl in *; [|split; assumption].
  destruct (setSpec_pair_frame FOrigin spec st1) as [L2 T2].
  destruct (setSpec_pair FOrigin spec st1) as [[] st2|st2]; simpl in *;
    [|split; congruence].
  destruct (setSpec_pair_frame FSize spec st2) as [L3 T3].
  destruct (setSpec_pair FSize spec st2) as [[] st3|st3]; simpl in *; split; congruence.
Qed.

(** When the three blocks return, the store is [after_pairs] of the store
    the call started from. *)
Lemma setSpec_prefix_store (spec : Spec) (st st1 : State) :
  setSpec_prefix spec st = Normal tt st1 ->
  arrays st1 = after_pairs spec (_spec (this st)) (arrays st).
Proof.
  destruct spec as [rn' op' sz' og' al' hd' tf' rm'].
  destruct st as [h [rn [srn op sz og al hd tf rm] sm inv rmv ts t os ls tg sl vs]].
  unfold setSpec_prefix, bind, modify_node, modify_spec, after_pairs, copy_pair.
  cbn [_spec this arrays s_align s_origin s_size].
  destruct al' as [al'|], al as [al|], og' as [og'|], og as [og|],
           sz' as [sz'|], sz as [sz|];
    repeat (rewrite setSpec_pair_result; cbn -[copy_items setSpec_pair]);
    intro H; inversion H; reflexivity.
Qed.

(** C9: [setSpec] never allocates an array.  With a transform in the incoming
    spec, a call that returns has written into the transform array the
    committed spec already held: the same array object, whose first sixteen
    components are now the components the incoming array held when the loop
    read them, which are the ones it held when the call was made unless the
    incoming array is itself the committed align, origin or size array, and
    no array other than the committed ones is written.  The call throws when
    the committed spec holds no transform array.  With no transform in the
    incoming spec a call that returns has set the committed transform to
    [undefined]. *)
Theorem setSpec_transform_in_place (spec : Spec) (st : State) :
  length (arrays (final_state (setSpec spec st))) = length (arrays st) /\
  (forall src, s_transform spec = Some src ->
     (forall st', setSpec spec st = Normal tt st' ->
        exists dst,
          s_transform (_spec (this st)) = Some dst /\
          s_transform (_spec (this st')) = Some dst /\
          ((dst < length (arrays st))%nat ->
           forall i, (i < 16)%nat ->
             item (read (arrays st') dst) i = item (read (arrays st') src) i /\
             item (read (arrays st') dst) i
             = item (read (after_pairs spec (_spec (this st)) (arrays st)) src) i /\
             ((forall f, get_pair f (_spec (this st)) <> Some src) ->
              item (read (arrays st') dst) i = item (read (arrays st) src) i)) /\
          (forall l, l <> dst ->
             (forall f, get_pair f (_spec (this st)) <> Some l) ->
             read (arrays st') l = read (arrays st) l)) /\
     (s_transform (_spec (this st)) = None ->
        exists st', setSpec spec st = TypeError st')) /\
  (s_transform spec = None ->
     forall st', setSpec spec st = Normal tt st' ->
       s_transform (_spec (this st')) = None).
Proof.
  rewrite setSpec_split.
  destruct (setSpec_prefix_frame spec st) as [Hlen Htr].
  pose proof (setSpec_prefix_store spec st) as Hstore.
  destruct (setSpec_prefix spec st) as [[] st1|st1]; simpl in Hlen, Htr.
  2:{ split; [exact Hlen|]. split.
      - intros src _. split; [intros st' H; discriminate | intros _; eauto].
      - intros _ st' H. discriminate. }
  specialize (Hstore st1 eq_refl).
  unfold setSpec_suffix, bind.
  assert (Hseq : forall i, (i < 16)%nat -> i ∈ seq 0 16).
  { intros i Hi. apply elem_of_seq. lia. }
  assert (Hcons : exists i0 rest, seq 0 16 = i0 :: rest) by (simpl; eauto).
  revert Hseq Hcons. generalize (seq 0 16). intros indices Hseq (i0 & rest & Hcons).
  destruct (s_transform spec) as [src|] eqn:Hsrc; cbn [present negb].
  - destruct (s_transform (_spec (this st1))) as [dst|] eqn:Hdst.
    + rewrite (for_each_transform_items src dst) by exact Hdst.
      unfold modify_spec, modify_node. cbn [final_state arrays this].
      split; [rewrite length_copy_items; exact Hlen|]. split; [|discriminate].
      intros src' Hsrc'. inversion Hsrc'; subst src'. split.
      * intros st' H. inversion H; subst st'. clear H. cbn [arrays this _spec with_spec].
        exists dst. split; [congruence|]. split; [exact Hdst|]. split.
        -- intros Hvalid i Hi.
           assert (Hfrom : item (read (copy_items dst src indices (arrays st1)) dst) i
                           = item (read (arrays st1) src) i).
           { apply copy_items_from; [lia | apply Hseq; exact Hi]. }
           split; [apply copy_items_agree; [lia | apply Hseq; exact Hi]|].
           split; [rewrite Hfrom, Hstore; reflexivity|].
           intro Hno. rewrite Hfrom, Hstore. rewrite after_pairs_other by exact Hno.
           reflexivity.
        -- intros l Hl Hno. rewrite copy_items_other by exact Hl.
           rewrite Hstore. apply after_pairs_other. exact Hno.
      * intro Hnone. congruence.
    + rewrite Hcons, for_each_transform_throws by exact Hdst. simpl.
      split; [exact Hlen|]. split; [|discriminate].
      intros src' _. split; [intros st' H; discriminate | intros _; eauto].
  - simpl. split; [exact Hlen|]. split; [intros src' H; discriminate|].
    intros _ st' H. inversion H; subst st'. reflexivity.
Qed.

(** The identity transform. *)
Definition identity_matrix : list value :=
  [VNum 1; VNum 0; VNum 0; VNum 0;  VNum 0; VNum 1; VNum 0; VNum 0;
   VNum 0; VNum 0; VNum 1; VNum 0;  VNum 0; VNum 0; VNum 0; VNum 1].

(** The transform that moves by [(x, y, z)]. *)
Definition translate_matrix (x y z : value) : list value :=
  [VNum 1; VNum 0; VNum 0; VNum 0;  VNum 0; VNum 1; VNum 0; VNum 0;
   VNum 0; VNum 0; VNum 1; VNum 0;  x; y; z; VNum 1].

(** A spec that carries only a transform, the array at [l]. *)
Definition transform_only (l : loc) : Spec :=
  mkSpec None (PVal VUndefined) None None None false (Some l) false.

(** A node whose committed spec is [sp]. *)
Definition node_with_spec (sp : Spec) : LayoutNode :=
  new_LayoutNode (Some 7%nat) (Some sp).

(** A node that holds the identity at location 0 takes the transform at
    location 1 into that array, component by component, and leaves the
    incoming array as it is; a node constructed without a spec throws. *)
Lemma setSpec_transform_in_place_witness :
  let h := [identity_matrix; translate_matrix (VNum 3) (VNum 4) (VNum 0)] in
  let st := mkState h (node_with_spec (transform_only 0)) in
  let st0 := mkState h (new_LayoutNode (Some 7%nat) None) in
  (exists st',
     setSpec (transform_only 1) st = Normal tt st' /\
     length (arrays st') = 2%nat /\
     s_transform (_spec (this st')) = Some 0%nat /\
     read (arrays st') 0 = translate_matrix (VNum 3) (VNum 4) (VNum 0)) /\
  (exists st', setSpec (transform_only 1) st0 = TypeError st') /\
  length (arrays (final_state (setSpec (transform_only 1) st0))) = length (arrays st0) /\
  (forall st', setSpec (transform_only 1) st = Normal tt st' ->
     (forall i, (i < 16)%nat ->
        item (read (arrays st') 0) i
        = item (translate_matrix (VNum 3) (VNum 4) (VNum 0)) i) /\
     read (arrays st') 1 = translate_matrix (VNum 3) (VNum 4) (VNum 0)).
Proof.
  cbv zeta. split; [|split; [|split]].
  - exists (final_state
              (setSpec (transform_only 1)
                 (mkState [identity_matrix; translate_matrix (VNum 3) (VNum 4) (VNum 0)]
                    (node_with_spec (transform_only 0))))).
    vm_compute. repeat split; reflexivity.
  - apply (proj2 (proj1 (proj2
      (setSpec_transform_in_place (transform_only 1)
         (mkState [identity_matrix; translate_matrix (VNum 3) (VNum 4) (VNum 0)]
            (new_LayoutNode (Some 7%nat) None)))) 1%nat eq_refl)).
    reflexivity.
  - apply (proj1
      (setSpec_transform_in_place (transform_only 1)
         (mkState [identity_matrix; translate_matrix (VNum 3) (VNum 4) (VNum 0)]
            (new_LayoutNode (Some 7%nat) None)))).
  - intros st' H.
    destruct (proj1 (proj1 (proj2
      (setSpec_transform_in_place (transform_only 1)
         (mkState [identity_matrix; translate_matrix (VNum 3) (VNum 4) (VNum 0)]
            (node_with_spec (transform_only 0))))) 1%nat eq_refl) st' H)
      as (dst & Hc & _ & Hitems & Hframe).
    cbn in Hc. inversion Hc; subst dst. split.
    + intros i Hi.
      apply (proj2 (proj2 (Hitems ltac:(cbn; lia) i Hi))).
      intros [| |]; discriminate.
    + apply (Hframe 1%nat); [discriminate | intros [| |]; discriminate].
Defined.

(** *** Reading the spec *)

Section Reads.

Variable Transform_build :
  list value -> list value -> list value -> list value -> list value.
Variable Transform_translate : value -> value -> value -> list value.

(** The node as [getSpec] leaves its flags before it reads the final spec. *)
Definition flagged (st : State) : State :=
  mkState (arrays st)
    (with_spec (set_removed (negb (_invalidated (this st))) (_spec (this st)))
       (with_specModified false (this st))).

(** Without a transitionable [getSpec] answers the committed spec object. *)
Lemma getSpec_committed (clock : Clock) (st : State) :
  _transitionable (this st) = None ->
  getSpec Transform_build Transform_translate clock st = Normal Committed (flagged st).
Proof.
  intro H. unfold getSpec, bind, modify_node, _getFinalSpec. simpl.
  unfold present_transitionable. simpl. rewrite H. reflexivity.
Qed.

(** With a hidden committed spec too. *)
Lemma getSpec_hidden (clock : Clock) (st : State) :
  s_hide (_spec (this st)) = true ->
  getSpec Transform_build Transform_translate clock st = Normal Committed (flagged st).
Proof.
  intro H. unfold getSpec, bind, modify_node, _getFinalSpec. simpl.
  rewrite H, andb_false_r. reflexivity.
Qed.

(** At progress 1, while the transitionable still reports itself active, the
    read is a new spec built from the target set ([_lastSet]) alone, and the
    transitionable stays. *)
Lemma getSpec_at_progress_one (clock : Clock) (st : State) (t : Transitionable)
    (target : LayoutSet) :
  _transitionable (this st) = Some t ->
  s_hide (_spec (this st)) = false ->
  active clock = true ->
  tween clock == 1 ->
  _lastSet (this st) = Some target ->
  getSpec Transform_build Transform_translate clock st =
  Normal
    (Fresh (fst (_modifySpecFromSet Transform_build Transform_translate
                   (set_renderNode (s_renderNode (_spec (this st))) empty_spec)
                   target (arrays st))))
    (mkState
       (snd (_modifySpecFromSet Transform_build Transform_translate
               (set_renderNode (s_renderNode (_spec (this st))) empty_spec)
               target (arrays st)))
       (this (flagged st))).
Proof.
  intros Ht Hh Ha Hone Hlast.
  unfold getSpec, bind, modify_node, _getFinalSpec. simpl.
  unfold present_transitionable. simpl. rewrite Ht, Hh, Ha. simpl.
  unfold bind, ret, _interpolateSet. simpl. rewrite Ht.
  apply Qeq_bool_iff in Hone.
  destruct (_originalSet (this st)) as [orig|]; [rewrite Hone|]; rewrite Hlast;
    destruct (_modifySpecFromSet _ _ _ _ _) as [spec' h]; reflexivity.
Qed.

(** C4, the code at the failing input: when the transitionable of a node
    with a visible committed spec no longer reports itself active (the tween
    has run to its end), [getSpec] deletes it and then throws, because
    [_interpolateSet] still reads [this._transitionable.get()]; only the
    reads after this one answer the committed spec. *)
Theorem getSpec_retiring_read_throws (clock : Clock) (st : State) (t : Transitionable) :
  _transitionable (this st) = Some t ->
  s_hide (_spec (this st)) = false ->
  active clock = false ->
  exists st',
    getSpec Transform_build Transform_translate clock st = TypeError st' /\
    _transitionable (this st') = None /\
    forall clock',
      getSpec Transform_build Transform_translate clock' st' = Normal Committed (flagged st').
Proof.
  intros Ht Hh Ha.
  unfold getSpec, bind, modify_node, _getFinalSpec. simpl.
  unfold present_transitionable. simpl. rewrite Ht, Hh, Ha. simpl.
  unfold bind, modify_node, _interpolateSet. simpl.
  eexists. split; [reflexivity|]. split; [reflexivity|].
  intro clock'. apply getSpec_committed. reflexivity.
Qed.

End Reads.

(** *** A fading node *)

(** [Transform.translate] of famo.us: a missing [z] is 0. *)
Definition famous_translate (x y z : value) : list value :=
  translate_matrix x y (or_default z (VNum 0)).

(** [Transform.build] of famo.us where no skew or rotation and the unit scale
    are given, which is all the nodes below ask of it: the move by
    [translate]. *)
Definition famous_build_unrotated (translate skew scale rotate : list value) : list value :=
  translate_matrix (item translate 0) (item translate 1) (item translate 2).

(** A set that gives the opacity only. *)
Definition opacity_set (o : Q) (tr : option Transition) : LayoutSet :=
  mkSet (fun c => match c with Opacity => PVal (VNum o) | _ => PVal VUndefined end)
    tr false VUndefined.

Definition curve300 : Transition := mkTransition (VNum 300).

(** The state [set] leaves. *)
Definition after_set (s : LayoutSet) (st : State) : State :=
  final_state (set famous_build_unrotated famous_translate s None st).

(** A node set to opacity [from] and then, with a transition, to opacity
    [to]: its interpolation runs from [from] to [to]. *)
Definition fading (from to : Q) : State :=
  after_set (opacity_set to (Some curve300))
    (after_set (opacity_set from None)
       (mkState [] (new_LayoutNode (Some 7%nat) None))).

Example fading_interpolates :
  _transitionable (this (fading 0 1)) = Some (mkTransitionable curve300) /\
  _originalSet (this (fading 0 1)) = Some (opacity_set 0 None) /\
  _lastSet (this (fading 0 1)) = Some (opacity_set 1 (Some curve300)).
Proof. repeat split; reflexivity. Qed.

(** A read of the opacity: the opacity of the spec that [getSpec] answers. *)
Definition read_opacity (clock : Clock) (st : State) : option prop :=
  match getSpec famous_build_unrotated famous_translate clock st with
  | Normal (Fresh spec) _ => Some (s_opacity spec)
  | Normal Committed st' => Some (s_opacity (_spec (this st')))
  | TypeError _ => None
  end.

(** The state after a read. *)
Definition after_read (clock : Clock) (st : State) : State :=
  final_state (getSpec famous_build_unrotated famous_translate clock st).

(** A node fading from 0 to 1 whose tween has ended: the read throws and the
    next read answers the committed spec. *)
Lemma getSpec_retiring_read_throws_witness :
  exists st',
    getSpec famous_build_unrotated famous_translate (mkClock 1 false) (fading 0 1)
      = TypeError st' /\
    _transitionable (this st') = None /\
    forall clock',
      getSpec famous_build_unrotated famous_translate clock' st'
      = Normal Committed (flagged st').
Proof.
  apply (getSpec_retiring_read_throws famous_build_unrotated famous_translate
           (mkClock 1 false) (fading 0 1) (mkTransitionable curve300));
    reflexivity.
Defined.

(** Midway the opacity reads 1/2; at progress 0 it reads the start, 0; at
    progress 1 the target, 1. *)
Example fading_reads :
  read_opacity (mkClock 0 true) (fading 0 1) = Some (PVal (VNum (0 + (1 - 0) * 0))) /\
  read_opacity (mkClock (1 # 2) true) (fading 0 1)
    = Some (PVal (VNum (0 + (1 - 0) * (1 # 2)))) /\
  read_opacity (mkClock 1 true) (fading 0 1) = Some (PVal (VNum 1)).
Proof. repeat split; reflexivity. Qed.

(** When the start and the target give the same opacity as a number, the
    interpolated set takes [opacity[0]] of that number: the read spec has no
    opacity. *)
Example equal_opacity_reads_undefined :
  read_opacity (mkClock 0 true) (fading (1 # 2) (1 # 2)) = Some (PVal VUndefined).
Proof. reflexivity. Qed.

(** *** Retargeting a running interpolation *)


Section Retarget.

Variable Transform_build :
  list value -> list value -> list value -> list value -> list value.
Variable Transform_translate : value -> value -> value -> list value.


(** **** What a spec and a property look like

    Reads of the interpolation allocate, so two reads never answer the same
    arrays: specs are compared by what they hold. *)

(** A property as it reads: a value, or the components of its array. *)
Inductive pview : Type :=
| VV (v : value)
| VA (components : list value).

Definition prop_view (h : heap) (p : prop) : pview :=
  match p with
  | PVal v => VV v
  | PArr a => VA (read_ref h a)
  end.

(** A spec as it reads. *)
Record SpecView : Type := mkView {
  v_renderNode : option RenderNode;
  v_opacity : pview;
  v_size : option (list value);
  v_origin : option (list value);
  v_align : option (list value);
  v_hide : bool;
  v_transform : option (list value);
  v_removed : bool
}.

Definition spec_view (h : heap) (sp : Spec) : SpecView :=
  mkView (s_renderNode sp) (prop_view h (s_opacity sp))
    (option_map (read h) (s_size sp)) (option_map (read h) (s_origin sp))
    (option_map (read h) (s_align sp)) (s_hide sp)
    (option_map (read h) (s_transform sp)) (s_removed sp).

(** The array a property names exists in the store. *)
Definition valid_prop (h : heap) (p : prop) : Prop :=
  match p with
  | PArr (At l) => (l < length h)%nat
  | _ => True
  end.

Definition valid_set (h : heap) (s : LayoutSet) : Prop :=
  forall c, valid_prop h (channels s c).

Lemma read_prefix (h h' : heap) (l : loc) :
  (l < length h)%nat -> h `prefix_of` h' -> read h' l = read h l.
Proof.
  intros H [k ->]. unfold read. rewrite lookup_app_l by exact H. reflexivity.
Qed.

Lemma read_fresh (h h' : heap) (a : list value) :
  (h ++ [a]) `prefix_of` h' -> read h' (length h) = a.
Proof.
  intros [k ->]. unfold read. rewrite <- app_assoc. simpl.
  rewrite list_lookup_middle by reflexivity. reflexivity.
Qed.

Lemma prop_view_prefix (h h' : heap) (p : prop) :
  valid_prop h p -> h `prefix_of` h' -> prop_view h' p = prop_view h p.
Proof.
  destruct p as [v|[c|l]]; simpl; intros H Hp; try reflexivity.
  rewrite (read_prefix h h') by assumption. reflexivity.
Qed.

Lemma valid_prop_prefix (h h' : heap) (p : prop) :
  valid_prop h p -> h `prefix_of` h' -> valid_prop h' p.
Proof.
  destruct p as [v|[c|l]]; simpl; intros H Hp; try exact I.
  apply prefix_length in Hp. lia.
Qed.

Lemma valid_set_prefix (h h' : heap) (s : LayoutSet) :
  valid_set h s -> h `prefix_of` h' -> valid_set h' s.
Proof. intros H Hp c. exact (valid_prop_prefix h h' _ (H c) Hp). Qed.

(** The tests and reads of the source depend on a property through its view
    only (identity apart). *)
Definition view_truthy (v : pview) : bool :=
  match v with
  | VA _ => true
  | VV (VNum q) => negb (Qeq_bool q 0)
  | VV _ => false
  end.

Definition view_index (v : pview) (i : nat) : value :=
  match v with
  | VA a => item a i
  | VV _ => VUndefined
  end.

Definition view_as_array (v : pview) : list value :=
  match v with
  | VA a => a
  | VV x => [x]
  end.

Definition view_components_or (v : pview) (dflt : list value) : list value :=
  if view_truthy v then
    match v with
    | VA a => a
    | VV _ => []
    end
  else dflt.

Lemma truthy_view (h : heap) (p : prop) : truthy p = view_truthy (prop_view h p).
Proof. destruct p as [[| |q]|a]; reflexivity. Qed.

Lemma index_view (h : heap) (p : prop) (i : nat) :
  index h p i = view_index (prop_view h p) i.
Proof. destruct p; reflexivity. Qed.

Lemma as_array_view (h : heap) (p : prop) : as_array h p = view_as_array (prop_view h p).
Proof. destruct p; reflexivity. Qed.

Lemma components_or_view (h : heap) (p : prop) (dflt : list value) :
  components_or h p dflt = view_components_or (prop_view h p) dflt.
Proof.
  unfold components_or, view_components_or. rewrite (truthy_view h p).
  destruct p; reflexivity.
Qed.

Definition pair_of_view (v : pview) (c : channel) : option (list value) :=
  if view_truthy v
  then Some [or_default (view_index v 0) (item (propertiesWithDefaults c) 0);
             or_default (view_index v 1) (item (propertiesWithDefaults c) 1)]
  else None.

Lemma pair_from_set_view (h : heap) (s : LayoutSet) (c : channel) :
  pair_from_set h s c = pair_of_view (prop_view h (channels s c)) c.
Proof.
  unfold pair_from_set, pair_of_view.
  rewrite (truthy_view h), !index_view. reflexivity.
Qed.

Definition transform_of_views (cv : channel -> pview) : option (list value) :=
  if view_truthy (cv Skew) || view_truthy (cv Rotate) || view_truthy (cv Scale) then
    Some (Transform_build
            (view_components_or (cv Translate) [VNum 0; VNum 0; VNum 0])
            (view_components_or (cv Skew) [VNum 0; VNum 0; VNum 0])
            (view_components_or (cv Scale) [VNum 1; VNum 1; VNum 1])
            (view_components_or (cv Rotate) [VNum 0; VNum 0; VNum 0]))
  else if view_truthy (cv Translate) then
    Some (Transform_translate (view_index (cv Translate) 0) (view_index (cv Translate) 1)
            (view_index (cv Translate) 2))
  else None.

Lemma transform_from_set_view (h : heap) (s : LayoutSet) :
  transform_from_set Transform_build Transform_translate h s =
  transform_of_views (fun c => prop_view h (channels s c)).
Proof.
  unfold transform_from_set, transform_of_views.
  rewrite !(truthy_view h), !components_or_view, !index_view. reflexivity.
Qed.

(** The spec that [_modifySpecFromSet] makes of a set whose properties read
    as [cv]. *)
Definition view_from_channels (node : option RenderNode) (removed hidden : bool)
    (cv : channel -> pview) : SpecView :=
  mkView node (cv Opacity) (pair_of_view (cv Size) Size) (pair_of_view (cv Origin) Origin)
    (pair_of_view (cv Align) Align) hidden (transform_of_views cv) removed.

Lemma view_from_channels_ext (node : option RenderNode) (removed hidden : bool)
    (cv cv' : channel -> pview) :
  (forall c, cv c = cv' c) ->
  view_from_channels node removed hidden cv = view_from_channels node removed hidden cv'.
Proof.
  intro H. unfold view_from_channels, transform_of_views. rewrite !H. reflexivity.
Qed.

Lemma alloc_opt_inv (a : option (list value)) (h h' : heap) (r : option loc) :
  alloc_opt a h = (r, h') ->
  h `prefix_of` h' /\
  forall h'', h' `prefix_of` h'' -> option_map (read h'') r = a.
Proof.
  destruct a as [components|]; simpl; intro H; inversion H; subst.
  - split; [now apply prefix_app_r|]. intros h'' Hp. simpl.
    rewrite (read_fresh h h'' components Hp). reflexivity.
  - split; reflexivity.
Qed.

Lemma pair_from_set_prefix (h h' : heap) (s : LayoutSet) (c : channel) :
  valid_set h s -> h `prefix_of` h' -> pair_from_set h' s c = pair_from_set h s c.
Proof.
  intros Hv Hp. rewrite !pair_from_set_view.
  rewrite (prop_view_prefix h h') by (apply Hv || exact Hp). reflexivity.
Qed.

Lemma transform_from_set_prefix (h h' : heap) (s : LayoutSet) :
  valid_set h s -> h `prefix_of` h' ->
  transform_from_set Transform_build Transform_translate h' s =
  transform_from_set Transform_build Transform_translate h s.
Proof.
  intros Hv Hp. rewrite !transform_from_set_view.
  unfold transform_of_views.
  rewrite !(prop_view_prefix h h') by (apply Hv || exact Hp). reflexivity.
Qed.

(** [_modifySpecFromSet] only adds arrays to the store, and the spec it
    leaves reads as the set does, also after later allocations. *)
Lemma modifySpecFromSet_view (spec spec' : Spec) (s : LayoutSet) (h h' : heap) :
  valid_set h s ->
  _modifySpecFromSet Transform_build Transform_translate spec s h = (spec', h') ->
  h `prefix_of` h' /\
  forall h'', h' `prefix_of` h'' ->
    spec_view h'' spec' =
    view_from_channels (s_renderNode spec) (s_removed spec) (hide s)
      (fun c => prop_view h (channels s c)).
Proof.
  intros Hv. unfold _modifySpecFromSet.
  destruct (alloc_opt (pair_from_set h s Size) h) as [r1 h1] eqn:E1.
  destruct (alloc_opt (pair_from_set h1 s Origin) h1) as [r2 h2] eqn:E2.
  destruct (alloc_opt (pair_from_set h2 s Align) h2) as [r3 h3] eqn:E3.
  destruct (alloc_opt (transform_from_set Transform_build Transform_translate h3 s) h3)
    as [r4 h4] eqn:E4.
  intro H. inversion H; subst spec' h'. clear H.
  destruct (alloc_opt_inv _ _ _ _ E1) as (P1 & R1).
  destruct (alloc_opt_inv _ _ _ _ E2) as (P2 & R2).
  destruct (alloc_opt_inv _ _ _ _ E3) as (P3 & R3).
  destruct (alloc_opt_inv _ _ _ _ E4) as (P4 & R4).
  assert (P12 : h `prefix_of` h2) by (etrans; eassumption).
  assert (P13 : h `prefix_of` h3) by (etrans; eassumption).
  split; [etrans; eassumption|].
  intros h'' P5. unfold spec_view, view_from_channels. cbn.
  rewrite <- !pair_from_set_view, <- transform_from_set_view.
  f_equal.
  - apply prop_view_prefix; [apply Hv|]. etrans; [exact P13|]. etrans; eassumption.
  - apply R1. etrans; [exact P2|]. etrans; [exact P3|]. etrans; eassumption.
  - rewrite R2 by (etrans; [exact P3|]; etrans; eassumption).
    apply pair_from_set_prefix; assumption.
  - rewrite R3 by (etrans; eassumption).
    apply pair_from_set_prefix; assumption.
  - rewrite R4 by exact P5. apply transform_from_set_prefix; assumption.
Qed.

(** **** The interpolated set as it reads *)

(** The property that one turn of the loop of [_interpolateSet] assigns, as
    it reads. *)
Definition tween_view (h : heap) (tweenValue : Q) (tweenFromSet tweenToSet : LayoutSet)
    (c : channel) : pview :=
  let tweenFrom :=
    if defined (channels tweenFromSet c) then channels tweenFromSet c
    else PArr (DefaultOf c) in
  let tweenTo :=
    if defined (channels tweenToSet c) then channels tweenToSet c else tweenFrom in
  if strict_eq tweenTo tweenFrom then prop_view h tweenTo
  else VA (tweened tweenValue (as_array h tweenFrom) (as_array h tweenTo)
             (length (propertiesWithDefaults c))).

#[local] Instance channel_eq_dec : EqDecision channel.
Proof. solve_decision. Defined.

Lemma channel_eqb_eq (a b : channel) : channel_eqb a b = true <-> a = b.
Proof. destruct a, b; simpl; split; intro H; congruence. Qed.

Lemma assign_same (c : channel) (p : prop) (r : channel -> prop) : assign c p r c = p.
Proof.
  unfold assign. destruct (channel_eqb c c) eqn:E; [reflexivity|].
  assert (channel_eqb c c = true) by now apply channel_eqb_eq. congruence.
Qed.

Lemma assign_other (c c' : channel) (p : prop) (r : channel -> prop) :
  c' <> c -> assign c p r c' = r c'.
Proof.
  intro H. unfold assign. destruct (channel_eqb c' c) eqn:E; [|reflexivity].
  apply channel_eqb_eq in E. contradiction.
Qed.

Lemma tween_ends_valid (h : heap) (from to : LayoutSet) (c : channel) :
  valid_set h from -> valid_set h to ->
  let tweenFrom :=
    if defined (channels from c) then channels from c else PArr (DefaultOf c) in
  let tweenTo := if defined (channels to c) then channels to c else tweenFrom in
  valid_prop h tweenFrom /\ valid_prop h tweenTo.
Proof.
  intros Hf Ht. cbv zeta.
  assert (H1 : valid_prop h
                 (if defined (channels from c) then channels from c else PArr (DefaultOf c))).
  { destruct (defined (channels from c)); [apply Hf | exact I]. }
  split; [exact H1|]. destruct (defined (channels to c)); [apply Ht | exact H1].
Qed.

(** One turn of the loop: the store only grows, the assigned property reads
    as [tween_view] says and names an array of the store, and the other
    properties of the set under construction are untouched. *)
Lemma tween_property_view (h0 h : heap) (t : Q) (from to : LayoutSet) (c : channel)
    (r : channel -> prop) (m : bool) :
  valid_set h0 from -> valid_set h0 to -> h0 `prefix_of` h ->
  exists h' r' m',
    tween_property t from to c (h, r, m) = (h', r', m') /\
    h `prefix_of` h' /\
    prop_view h' (r' c) = tween_view h0 t from to c /\
    valid_prop h' (r' c) /\
    forall c', c' <> c -> r' c' = r c'.
Proof.
  intros Hf Ht Hp. destruct (tween_ends_valid h0 from to c Hf Ht) as [Vf Vt].
  cbv zeta in Vf, Vt. unfold tween_property, tween_view.
  set (tweenFrom := if defined (channels from c) then channels from c
                    else PArr (DefaultOf c)) in *.
  set (tweenTo := if defined (channels to c) then channels to c else tweenFrom) in *.
  destruct (strict_eq tweenTo tweenFrom).
  - exists h, (assign c tweenTo r), m. rewrite assign_same.
    split; [reflexivity|]. split; [reflexivity|].
    split; [apply prop_view_prefix; assumption|].
    split; [eapply valid_prop_prefix; eassumption|].
    intros c' Hc. apply assign_other, Hc.
  - unfold alloc. eexists _, _, true. split; [reflexivity|].
    rewrite assign_same. split; [now apply prefix_app_r|]. split; [|split].
    + cbn [prop_view read_ref]. erewrite (read_fresh h) by reflexivity.
      rewrite !as_array_view, !(prop_view_prefix h0 h) by assumption. reflexivity.
    + cbn [valid_prop]. rewrite length_app. simpl. lia.
    + intros c' Hc. apply assign_other, Hc.
Qed.

(** The whole loop, over any list of properties. *)
Lemma tween_loop_view (h0 : heap) (t : Q) (from to : LayoutSet) (cs : list channel) :
  valid_set h0 from -> valid_set h0 to ->
  forall (h : heap) (r : channel -> prop) (m : bool),
  h0 `prefix_of` h ->
  exists h' r' m',
    fold_left (fun acc c => tween_property t from to c acc) cs (h, r, m) = (h', r', m') /\
    h `prefix_of` h' /\
    forall c,
      (c ∈ cs -> prop_view h' (r' c) = tween_view h0 t from to c /\ valid_prop h' (r' c)) /\
      (c ∉ cs -> r' c = r c).
Proof.
  intros Hf Ht. induction cs as [|c0 rest IH]; intros h r m Hp; cbn [fold_left].
  - exists h, r, m. split; [reflexivity|]. split; [reflexivity|].
    intro c. split; [intro H; apply elem_of_nil in H; contradiction | reflexivity].
  - destruct (tween_property_view h0 h t from to c0 r m Hf Ht Hp)
      as (h1 & r1 & m1 & Hstep & Hp1 & Hview & Hvalid & Hother).
    rewrite Hstep.
    destruct (IH h1 r1 m1) as (h2 & r2 & m2 & Hrest & Hp2 & Hall); [etrans; eassumption|].
    exists h2, r2, m2. rewrite Hrest. split; [reflexivity|].
    split; [etrans; eassumption|].
    intro c. destruct (Hall c) as [Hin Hout]. split.
    + intro Hc.
      destruct (decide (c ∈ rest)) as [Hr|Hr]; [exact (Hin Hr)|].
      apply elem_of_cons in Hc. destruct Hc as [->|Hc]; [|contradiction].
      rewrite (Hout Hr). split.
      * rewrite (prop_view_prefix h1 h2) by assumption. exact Hview.
      * eapply valid_prop_prefix; eassumption.
    + intro Hc. rewrite Hout.
      * apply Hother. intros ->. apply Hc. apply elem_of_cons. now left.
      * intro Hr. apply Hc. apply elem_of_cons. now right.
Qed.

Lemma channel_in_order (c : channel) : c ∈ channels_in_order.
Proof.
  unfold channels_in_order. rewrite !elem_of_cons. destruct c; tauto.
Qed.

(** The set that [_interpolateSet] answers, as it reads: the opacity is the
    first component of what the loop assigned. *)
Definition interpolated_view (h : heap) (tweenValue : Q) (from to : LayoutSet)
    (c : channel) : pview :=
  if channel_eqb c Opacity
  then VV (view_index (tween_view h tweenValue from to Opacity) 0)
  else tween_view h tweenValue from to c.

Lemma interpolateSet_view (clock : Clock) (st : State) (t0 : Transitionable)
    (from to : LayoutSet) :
  _transitionable (this st) = Some t0 ->
  _originalSet (this st) = Some from ->
  Qeq_bool (tween clock) 1 = false ->
  _lastSet (this st) = Some to ->
  valid_set (arrays st) from ->
  valid_set (arrays st) to ->
  exists h' rset (m : bool),
    _interpolateSet clock st =
      Normal (Some rset)
        (mkState h' (if m then with_specModified true (this st) else this st)) /\
    arrays st `prefix_of` h' /\
    hide rset = false /\
    valid_set h' rset /\
    forall c,
      prop_view h' (channels rset c) =
      interpolated_view (arrays st) (tween clock) from to c.
Proof.
  intros Ht Hfrom Hone Hto Vf Vt.
  unfold _interpolateSet. rewrite Ht, Hfrom, Hone, Hto.
  destruct (tween_loop_view (arrays st) (tween clock) from to channels_in_order Vf Vt
              (arrays st) (fun _ => PVal VUndefined) false) as (h' & r & m & Hloop & Hp & Hall);
    [reflexivity|].
  rewrite Hloop.
  eexists h', _, m. split; [reflexivity|]. split; [exact Hp|]. split; [reflexivity|].
  assert (Hc : forall c,
             prop_view h' (r c) = tween_view (arrays st) (tween clock) from to c
             /\ valid_prop h' (r c)).
  { intro c. apply Hall, channel_in_order. }
  split.
  - intro c. cbn [channels]. unfold assign.
    destruct (channel_eqb c Opacity); [exact I | apply Hc].
  - intro c. cbn [channels]. unfold assign, interpolated_view.
    destruct (channel_eqb c Opacity); [|apply Hc].
    cbn [prop_view]. rewrite index_view. destruct (Hc Opacity) as [-> _]. reflexivity.
Qed.

(** What a read of a running interpolation shows: its properties and its
    hide flag. *)
Definition read_channels (h : heap) (tweenValue : Q) (original : option LayoutSet)
    (last : LayoutSet) (c : channel) : pview :=
  match original with
  | Some from =>
      if Qeq_bool tweenValue 1 then prop_view h (channels last c)
      else interpolated_view h tweenValue from last c
  | None => prop_view h (channels last c)
  end.

Definition read_hidden (tweenValue : Q) (original : option LayoutSet) (last : LayoutSet)
  : bool :=
  match original with
  | Some _ => if Qeq_bool tweenValue 1 then hide last else false
  | None => hide last
  end.

(** The sets a node interpolates between name arrays of the store. *)
Definition valid_node (st : State) : Prop :=
  (forall from, _originalSet (this st) = Some from -> valid_set (arrays st) from) /\
  (forall to, _lastSet (this st) = Some to -> valid_set (arrays st) to).

(** The set that the read of [_getFinalSpec] is built from. *)
Lemma interpolateSet_read (clock : Clock) (st : State) (t0 : Transitionable)
    (to : LayoutSet) :
  _transitionable (this st) = Some t0 ->
  _lastSet (this st) = Some to ->
  valid_node st ->
  exists h' rset n',
    _interpolateSet clock st = Normal (Some rset) (mkState h' n') /\
    arrays st `prefix_of` h' /\
    hide rset = read_hidden (tween clock) (_originalSet (this st)) to /\
    valid_set h' rset /\
    (forall c,
       prop_view h' (channels rset c) =
       read_channels (arrays st) (tween clock) (_originalSet (this st)) to c) /\
    _spec n' = _spec (this st) /\
    _transitionable n' = Some t0 /\
    _originalSet n' = _originalSet (this st) /\
    _lastSet n' = Some to.
Proof.
  intros Ht Hto [Vfrom Vto]. specialize (Vto to Hto).
  destruct (_originalSet (this st)) as [from|] eqn:Hfrom.
  - destruct (Qeq_bool (tween clock) 1) eqn:Hone.
    + exists (arrays st), to, (this st).
      unfold _interpolateSet. rewrite Ht, Hfrom, Hone, Hto. cbn. rewrite Hone.
      destruct st; cbn. repeat split; first [reflexivity | assumption].
    + destruct (interpolateSet_view clock st t0 from to Ht Hfrom Hone Hto
                  (Vfrom from eq_refl) Vto) as (h' & rset & m & Hi & Hp & Hh & Vr & Hc).
      exists h', rset, (if m then with_specModified true (this st) else this st).
      split; [exact Hi|]. split; [exact Hp|]. cbn. rewrite Hone.
      split; [exact Hh|]. split; [exact Vr|]. split; [exact Hc|].
      destruct m; cbn; repeat split; assumption.
  - exists (arrays st), to, (this st).
    unfold _interpolateSet. rewrite Ht, Hfrom, Hto. cbn.
    destruct st; cbn. repeat split; first [reflexivity | assumption].
Qed.

(** A read of a node with an active transitionable, a visible committed spec
    and a target set answers a new spec that reads as [read_channels] says,
    and leaves the interpolation as it is. *)
Lemma getSpec_fresh_view (clock : Clock) (st : State) (t0 : Transitionable)
    (to : LayoutSet) :
  _transitionable (this st) = Some t0 ->
  s_hide (_spec (this st)) = false ->
  active clock = true ->
  _lastSet (this st) = Some to ->
  valid_node st ->
  exists spec st',
    getSpec Transform_build Transform_translate clock st = Normal (Fresh spec) st' /\
    arrays st `prefix_of` arrays st' /\
    (forall h'', arrays st' `prefix_of` h'' ->
       spec_view h'' spec =
       view_from_channels (s_renderNode (_spec (this st))) false
         (read_hidden (tween clock) (_originalSet (this st)) to)
         (read_channels (arrays st) (tween clock) (_originalSet (this st)) to)) /\
    _transitionable (this st') = Some t0 /\
    _originalSet (this st') = _originalSet (this st) /\
    _lastSet (this st') = Some to /\
    s_hide (_spec (this st')) = false /\
    s_renderNode (_spec (this st')) = s_renderNode (_spec (this st)).
Proof.
  intros Ht Hh Ha Hto Hv.
  unfold getSpec, bind, modify_node, _getFinalSpec. cbn.
  unfold present_transitionable. cbn. rewrite Ht, Hh, Ha. cbn.
  unfold bind, ret.
  set (st0 := mkState (arrays st)
                (with_spec (set_removed (negb (_invalidated (this st))) (_spec (this st)))
                   (with_specModified false (this st)))).
  destruct (interpolateSet_read clock st0 t0 to Ht Hto Hv)
    as (h1 & rset & n1 & Hi & Hp1 & Hhid & Vr & Hc & Hs1 & Ht1 & Ho1 & Hl1).
  rewrite Hi. cbn.
  destruct (_modifySpecFromSet Transform_build Transform_translate
              (set_renderNode (s_renderNode (_spec n1)) empty_spec) rset h1)
    as [spec' h2] eqn:Hm.
  destruct (modifySpecFromSet_view _ _ _ _ _ Vr Hm) as [Hp2 Hview].
  exists spec', (mkState h2 n1). cbn.
  split; [reflexivity|]. split; [etrans; eassumption|]. split.
  - intros h'' Hp3. rewrite (Hview h'' Hp3). cbn. rewrite Hs1, Hhid. cbn.
    apply view_from_channels_ext. exact Hc.
  - rewrite Hs1. cbn. repeat split; assumption.
Qed.

Lemma tween_view_prefix (h h' : heap) (t : Q) (from to to' : LayoutSet) (c : channel) :
  valid_set h from -> valid_set h to -> h `prefix_of` h' ->
  (forall c, channels to' c = channels to c) ->
  tween_view h' t from to' c = tween_view h t from to c.
Proof.
  intros Vf Vt Hp Hsame. destruct (tween_ends_valid h from to c Vf Vt) as [V1 V2].
  cbv zeta in V1, V2. unfold tween_view. rewrite Hsame.
  set (tweenFrom := if defined (channels from c) then channels from c
                    else PArr (DefaultOf c)) in *.
  set (tweenTo := if defined (channels to c) then channels to c else tweenFrom) in *.
  destruct (strict_eq tweenTo tweenFrom).
  - apply prop_view_prefix; assumption.
  - rewrite !as_array_view, !(prop_view_prefix h h') by assumption. reflexivity.
Qed.

Lemma read_channels_prefix (h h' : heap) (t : Q) (original : option LayoutSet)
    (to to' : LayoutSet) (c : channel) :
  (forall from, original = Some from -> valid_set h from) ->
  valid_set h to -> h `prefix_of` h' ->
  (forall c, channels to' c = channels to c) ->
  read_channels h' t original to' c = read_channels h t original to c.
Proof.
  intros Vf Vt Hp Hsame. unfold read_channels.
  assert (Hdirect : prop_view h' (channels to' c) = prop_view h (channels to c)).
  { rewrite Hsame. apply prop_view_prefix; [apply Vt | exact Hp]. }
  destruct original as [from|]; [|exact Hdirect].
  destruct (Qeq_bool t 1); [exact Hdirect|].
  specialize (Vf from eq_refl). unfold interpolated_view.
  rewrite !(tween_view_prefix h h' t from to to') by assumption. reflexivity.
Qed.


End Retarget.


(** A set that hides the node and fades it to 1. *)
Definition hidden_set : LayoutSet :=
  mkSet (fun c => match c with Opacity => PVal (VNum 1) | _ => PVal VUndefined end)
    (Some curve300) true VUndefined.

(** The two sets hide the node alike and the reads differ.  A node is set to
    opacity 0, then to [hidden_set]; [setSpec] makes the committed spec
    visible again.  The read midway is interpolated (opacity 1/2); after the
    node is set to [hidden_set] once more, the read at the same tween value
    answers the committed spec, which is hidden. *)
Example set_retarget_hidden_reads_committed :
  let clock := mkClock (1 # 2) true in
  let st0 :=
    final_state
      (setSpec empty_spec
         (after_set hidden_set
            (after_set (opacity_set 0 None)
               (mkState [] (new_LayoutNode (Some 7%nat) None))))) in
  let st2 := after_set hidden_set (after_read clock st0) in
  _lastSet (this st0) = Some hidden_set /\
  (exists spec1 st1,
     getSpec famous_build_unrotated famous_translate clock st0 = Normal (Fresh spec1) st1 /\
     s_opacity spec1 = PVal (VNum (0 + (1 - 0) * (1 # 2))) /\
     s_hide spec1 = false) /\
  getSpec famous_build_unrotated famous_translate clock st2 = Normal Committed (flagged st2) /\
  s_hide (_spec (this (flagged st2))) = true.
Proof.
  cbv zeta. split; [vm_compute; reflexivity|]. split.
  - match goal with
    | |- exists spec1 st1, ?r = _ /\ _ =>
        exists (match r with Normal (Fresh sp) _ => sp | _ => empty_spec end),
               (final_state r)
    end.
    vm_compute. repeat split; reflexivity.
  - vm_compute. split; reflexivity.
Qed.

End LayoutNodeFacts.

(** * More of the scroll view *)

From Stdlib Require Import Lqa.

Module ScrollViewMore.
Import ScrollView ScrollViewFacts.
Local Open Scope Q_scope.

(** *** Rounding of the particle position *)

Lemma Qfloor_half_integer (k : Z) : Qfloor (inject_Z k + (1 # 2)) = k.
Proof.
  apply Z.le_antisymm.
  - apply Z.lt_succ_r. rewrite Zlt_Qlt.
    apply Qle_lt_trans with (inject_Z k + (1 # 2)); [apply Qfloor_le|].
    unfold Z.succ. rewrite inject_Z_plus. change (inject_Z 1) with 1. lra.
  - rewrite <- (Qfloor_Z k) at 1. apply Qfloor_resp_le. lra.
Qed.



(** The scroll view with its particle moved to [p]. *)
Definition at_position (p : Q) (s : ScrollView) : ScrollView :=
  with_scroll s (setPosition1D p (_scroll s)).

(** A position that is a whole number of granules is left as it is. *)
Lemma getParticlePosition_on_granule (s : ScrollView) (k : Z) :
  0 < particleRounding s ->
  position (particle (_scroll s)) == inject_Z k * particleRounding s ->
  _getParticlePosition s == position (particle (_scroll s)).
Proof.
  intros Hr Hpos. unfold _getParticlePosition, Math_round.
  assert (Hne : ~ particleRounding s == 0).
  { intro H. rewrite H in Hr. exact (Qlt_irrefl _ Hr). }
  assert (Hq : position (particle (_scroll s)) / particleRounding s + (1 # 2)
               == inject_Z k + (1 # 2)).
  { rewrite Hpos. field. exact Hne. }
  rewrite (Qfloor_comp _ _ Hq), Qfloor_half_integer, Hpos. reflexivity.
Qed.

(** X2: rounding is idempotent.  With a positive granularity, a particle put
    at its rounded position reads that position again. *)
Theorem getParticlePosition_idempotent (s : ScrollView) :
  0 < particleRounding s ->
  _getParticlePosition (at_position (_getParticlePosition s) s) == _getParticlePosition s.
Proof.
  intro Hr.
  apply (getParticlePosition_on_granule (at_position (_getParticlePosition s) s)
           (Qfloor (position (particle (_scroll s)) / particleRounding s + (1 # 2))));
    [exact Hr | reflexivity].
Qed.

Lemma getParticlePosition_idempotent_witness :
  _getParticlePosition
    (at_position (_getParticlePosition (scroll_view_at (13 # 100) 0 Bounds.NONE))
       (scroll_view_at (13 # 100) 0 Bounds.NONE))
  == _getParticlePosition (scroll_view_at (13 # 100) 0 Bounds.NONE).
Proof.
  apply (getParticlePosition_idempotent (scroll_view_at (13 # 100) 0 Bounds.NONE)).
  reflexivity.
Defined.

(** *** The effective offset, read twice *)

(** X3: [_getScrollOffset] is idempotent: a second call right after the first
    answers the same offset and changes nothing more (a wheel delta is
    dropped by the first call or not at all). *)
Theorem getScrollOffset_idempotent (s : ScrollView) :
  _getScrollOffset (fst (_getScrollOffset s)) = _getScrollOffset s.
Proof.
  unfold _getScrollOffset at 2 3.
  destruct (Qgtb (scrollDelta (_scroll s)) 0 && has_bit (boundsReached (_scroll s)) Bounds.FIRST)
    eqn:E1.
  - cbn [fst]. unfold _getScrollOffset. cbn.
    reflexivity.
  - destruct (Qltb (scrollDelta (_scroll s)) 0 && has_bit (boundsReached (_scroll s)) Bounds.LAST)
      eqn:E2.
    + cbn [fst]. unfold _getScrollOffset. cbn.
      reflexivity.
    + cbn [fst]. unfold _getScrollOffset. rewrite E1, E2. reflexivity.
Qed.

(** *** Looking up the spec of a view-sequence node *)

(** The spec at [i] is owned by [node]. *)
Definition owned_at (specs : list Spec) (node : RenderNode) (i : nat) : Prop :=
  exists sp, nth_error specs i = Some sp /\ renderNode sp = Some node.

Lemma find_spec_first (specs : list Spec) (node : RenderNode) :
  forall base i sp,
    find_spec specs node base = Some (i, sp) ->
    exists k,
      i = (base + k)%nat /\
      nth_error specs k = Some sp /\
      renderNode sp = Some node /\
      forall j, (j < k)%nat -> ~ owned_at specs node j.
Proof.
  induction specs as [|first rest IH]; intros base i sp H; [discriminate|].
  cbn [find_spec] in H.
  assert (Hskip : find_spec rest node (S base) = Some (i, sp) ->
                  renderNode first <> Some node ->
                  exists k,
                    i = (base + k)%nat /\ nth_error (first :: rest) k = Some sp /\
                    renderNode sp = Some node /\
                    forall j, (j < k)%nat -> ~ owned_at (first :: rest) node j).
  { intros Hrest Hfirst. destruct (IH _ _ _ Hrest) as (k & Hi & Hk & Ho & Hmin).
    exists (S k). split; [lia|]. split; [exact Hk|]. split; [exact Ho|].
    intros [|j] Hj (sp' & Hsp' & Ho'); cbn in Hsp'.
    - inversion Hsp'; subst sp'. contradiction.
    - apply (Hmin j); [lia|]. exists sp'. split; assumption. }
  destruct (renderNode first) as [r|] eqn:Hr.
  - destruct (Nat.eqb r node) eqn:E.
    + inversion H; subst i sp. apply Nat.eqb_eq in E. subst r.
      exists 0%nat. split; [lia|]. split; [reflexivity|]. split; [exact Hr|].
      intros j Hj. lia.
    + apply Hskip; [exact H|]. apply Nat.eqb_neq in E. congruence.
  - apply Hskip; [exact H | discriminate].
Qed.

Lemma find_spec_none (specs : list Spec) (node : RenderNode) :
  forall base,
    find_spec specs node base = None <-> forall j, ~ owned_at specs node j.
Proof.
  induction specs as [|first rest IH]; intro base; cbn [find_spec].
  - split; [|reflexivity]. intros _ j (sp & Hsp & _). destruct j; discriminate.
  - assert (Hskip : renderNode first <> Some node ->
                    (find_spec rest node (S base) = None <->
                     forall j, ~ owned_at (first :: rest) node j)).
    { intro Hfirst. rewrite IH. split; intros H j (sp & Hsp & Ho).
      - destruct j as [|j]; cbn in Hsp.
        + inversion Hsp; subst sp. contradiction.
        + apply (H j). exists sp. split; assumption.
      - apply (H (S j)). exists sp. split; assumption. }
    destruct (renderNode first) as [r|] eqn:Hr.
    + destruct (Nat.eqb r node) eqn:E.
      * apply Nat.eqb_eq in E. subst r. split; [discriminate|].
        intro H. exfalso. apply (H 0%nat). exists first. split; [reflexivity|exact Hr].
      * apply Hskip. apply Nat.eqb_neq in E. congruence.
    + apply Hskip. discriminate.
Qed.

(** X4: what [_lookupSpecByViewSequence] finds is the first spec of the
    window owned by the item under the cursor: the cursor is not null and has
    an item, the spec stands at the index answered, is owned by that item, and
    no spec before it is. *)
Theorem lookupSpecByViewSequence_first (specs : list Spec)
    (viewSequence : option ViewSequence) (i : nat) (sp : Spec) :
  _lookupSpecByViewSequence specs viewSequence = Some (i, sp) ->
  exists vs node,
    viewSequence = Some vs /\
    get vs = Some node /\
    nth_error specs i = Some sp /\
    renderNode sp = Some node /\
    forall j, (j < i)%nat -> ~ owned_at specs node j.
Proof.
  unfold _lookupSpecByViewSequence.
  destruct viewSequence as [vs|]; [|discriminate].
  destruct (get vs) as [node|] eqn:Hget; [|discriminate].
  intro H. destruct (find_spec_first _ _ _ _ _ H) as (k & Hi & Hk & Ho & Hmin).
  cbn in Hi. subst k. exists vs, node. repeat split; assumption.
Qed.

Lemma lookupSpecByViewSequence_first_witness :
  exists vs node,
    Some (mkViewSequence [Some 4%nat; Some 5%nat] 1) = Some vs /\
    get vs = Some node /\
    nth_error [spec_at 4 0 100; spec_at 5 100 100; spec_at 5 200 100] 1
      = Some (spec_at 5 100 100) /\
    renderNode (spec_at 5 100 100) = Some node /\
    forall j, (j < 1)%nat ->
      ~ owned_at [spec_at 4 0 100; spec_at 5 100 100; spec_at 5 200 100] node j.
Proof.
  apply (lookupSpecByViewSequence_first
           [spec_at 4 0 100; spec_at 5 100 100; spec_at 5 200 100]
           (Some (mkViewSequence [Some 4%nat; Some 5%nat] 1)) 1 (spec_at 5 100 100)).
  reflexivity.
Defined.

(** X5: [_lookupSpecByViewSequence] answers -1 / [undefined] exactly when the
    cursor is null, has no item, or no spec of the window is owned by its
    item. *)
Theorem lookupSpecByViewSequence_missing (specs : list Spec)
    (viewSequence : option ViewSequence) :
  _lookupSpecByViewSequence specs viewSequence = None <->
  (viewSequence = None \/
   exists vs, viewSequence = Some vs /\
     (get vs = None \/
      exists node, get vs = Some node /\ forall j, ~ owned_at specs node j)).
Proof.
  unfold _lookupSpecByViewSequence.
  destruct viewSequence as [vs|]; [|split; auto].
  destruct (get vs) as [node|] eqn:Hget.
  - rewrite find_spec_none. split.
    + intro H. right. exists vs. split; [reflexivity|]. right. exists node. auto.
    + intros [H|(vs' & Hvs & [H|(node' & Hn & H)])].
      * discriminate H.
      * inversion Hvs; subst vs'. rewrite Hget in H. discriminate H.
      * inversion Hvs; subst vs'. rewrite Hget in Hn. inversion Hn; subst node'. exact H.
  - split; [|reflexivity]. intros _. right. exists vs. auto.
Qed.

(** *** What the normaliser keeps *)

Lemma normalize_prev_conserves (specs : list Spec) (d : direction)
    (its : list (option RenderNode)) (i : nat) :
  forall pos off a p o,
    normalize_prev specs d its i pos off = (a, p, o) ->
    o - p == off - pos /\ items a = its /\ (index a <= i)%nat.
Proof.
  induction i as [|j IH]; intros pos off a p o H.
  - cbn in H. inversion H; subst. cbn. split; [reflexivity|]. split; [reflexivity|lia].
  - cbn [normalize_prev] in H.
    assert (Hstop : (mkViewSequence its (S j), pos, off) = (a, p, o) ->
                    o - p == off - pos /\ items a = its /\ (index a <= S j)%nat).
    { intro E. inversion E; subst. cbn. split; [reflexivity|]. split; [reflexivity|lia]. }
    destruct (get (mkViewSequence its j)); [|exact (Hstop H)].
    destruct (lookup_spec specs (Some (mkViewSequence its j))) as [spec|]; [|exact (Hstop H)].
    destruct (trueSizeRequested spec); [exact (Hstop H)|].
    destruct (Qltb _ 0); [exact (Hstop H)|].
    destruct (IH _ _ _ _ _ H) as (Ho & Hi & Hle).
    split; [rewrite Ho; ring|]. split; [exact Hi|lia].
Qed.

Lemma normalize_next_conserves (specs : list Spec) (d : direction)
    (its : list (option RenderNode)) (following : list (option RenderNode)) :
  forall i pos off a p o,
    normalize_next specs d its following i pos off = (a, p, o) ->
    o - p == off - pos /\ items a = its /\ (i <= index a)%nat.
Proof.
  induction following as [|item following' IH]; intros i pos off a p o H.
  - cbn in H. inversion H; subst. cbn. split; [reflexivity|]. split; [reflexivity|lia].
  - cbn [normalize_next] in H.
    assert (Hstop : (mkViewSequence its i, pos, off) = (a, p, o) ->
                    o - p == off - pos /\ items a = its /\ (i <= index a)%nat).
    { intro E. inversion E; subst. cbn. split; [reflexivity|]. split; [reflexivity|lia]. }
    destruct item as [node|]; [|exact (Hstop H)].
    destruct (lookup_spec specs (Some (mkViewSequence its i))) as [spec|]; [|exact (Hstop H)].
    destruct (trueSizeRequested spec); [exact (Hstop H)|].
    destruct (Qgeb _ 0); [exact (Hstop H)|].
    destruct (IH _ _ _ _ _ _ H) as (Ho & Hi & Hle).
    split; [rewrite Ho; ring|]. split; [exact Hi|lia].
Qed.

(** What a call leaves alone: every field of the scroll view but the anchor
    and the particle position. *)
Definition same_but_anchor_and_position (s s1 : ScrollView) : Prop :=
  moveOffset (_scroll s1) = moveOffset (_scroll s) /\
  scrollDelta (_scroll s1) = scrollDelta (_scroll s) /\
  moveStart (_scroll s1) = moveStart (_scroll s) /\
  velocity (particle (_scroll s1)) = velocity (particle (_scroll s)) /\
  boundsReached (_scroll s1) = boundsReached (_scroll s) /\
  lastScrollOffset (_scroll s1) = lastScrollOffset (_scroll s) /\
  _direction s1 = _direction s /\
  particleRounding s1 = particleRounding s /\
  target s1 = target s /\
  endReachedPrev s1 = endReachedPrev s.

Lemma same_but_refl (s : ScrollView) : same_but_anchor_and_position s s.
Proof. repeat split. Qed.

Lemma same_but_moved (s : ScrollView) (its : list (option RenderNode)) (j : nat) (p : Q) :
  same_but_anchor_and_position s (moved_to s its j p).
Proof. repeat split. Qed.

(** X6: the normaliser shifts the scroll offset and the particle position by
    the same amount: the offset it returns minus the new particle position is
    the offset it was given minus the old one, and nothing but the anchor
    and the particle position changes. *)
Theorem normalizeScrollOffset_conserves (size_ : list Q) (scrollOffset : Q)
    (s s1 : ScrollView) (scrollOffset1 : Q) :
  _normalizeScrollOffset size_ scrollOffset s = Returned s1 scrollOffset1 ->
  scrollOffset1 - position (particle (_scroll s1))
    == scrollOffset - position (particle (_scroll s)) /\
  same_but_anchor_and_position s s1.
Proof.
  unfold _normalizeScrollOffset.
  destruct (_viewSequence s) as [vs|].
  2:{ intro H. inversion H; subst. split; [reflexivity | apply same_but_refl]. }
  destruct (Qgeb scrollOffset 0).
  - destruct (normalize_prev _ _ _ _ _ _) as [[a p] o] eqn:Hwalk.
    destruct (normalize_prev_conserves _ _ _ _ _ _ _ _ _ Hwalk) as (Ho & Hi & _).
    destruct a as [its j]. rewrite commit_walk_moved.
    intro H. inversion H; subst. split; [exact Ho | apply same_but_moved].
  - destruct (List.last _ _) as [lastSpec|]; [|discriminate].
    destruct (Qltb _ _).
    { intro H. inversion H; subst. split; [reflexivity | apply same_but_refl]. }
    destruct (normalize_next _ _ _ _ _ _ _) as [[a p] o] eqn:Hwalk.
    destruct (normalize_next_conserves _ _ _ _ _ _ _ _ _ _ Hwalk) as (Ho & Hi & _).
    destruct a as [its j]. rewrite commit_walk_moved.
    intro H. inversion H; subst. split; [exact Ho | apply same_but_moved].
Qed.

Lemma normalizeScrollOffset_conserves_witness :
  let its := [Some 0%nat; Some 1%nat; Some 2%nat] in
  let s := scroll_view_over its 0
             [spec_at 0 (-120) 100; spec_at 1 (-20) 100; spec_at 2 80 100] (-120) in
  let s1 := moved_to s its 1 (-120 + 100) in
  (-120 + 100) - position (particle (_scroll s1))
    == -120 - position (particle (_scroll s)) /\
  same_but_anchor_and_position s s1.
Proof.
  cbv zeta.
  apply (normalizeScrollOffset_conserves [150; 150] (-120)
           (scroll_view_over [Some 0%nat; Some 1%nat; Some 2%nat] 0
              [spec_at 0 (-120) 100; spec_at 1 (-20) 100; spec_at 2 80 100] (-120))).
  reflexivity.
Defined.

(** X7: the normaliser moves the anchor along the same sequence, towards the
    start only when the offset is at or after 0 and towards the end only when
    it is before 0; it never makes an anchor out of none or drops one. *)
Theorem normalizeScrollOffset_direction (size_ : list Q) (scrollOffset : Q)
    (s s1 : ScrollView) (scrollOffset1 : Q) :
  _normalizeScrollOffset size_ scrollOffset s = Returned s1 scrollOffset1 ->
  match _viewSequence s, _viewSequence s1 with
  | None, None => True
  | Some vs, Some vs1 =>
      items vs1 = items vs /\
      (0 <= scrollOffset -> (index vs1 <= index vs)%nat) /\
      (scrollOffset < 0 -> (index vs <= index vs1)%nat)
  | _, _ => False
  end.
Proof.
  unfold _normalizeScrollOffset.
  destruct (_viewSequence s) as [vs|] eqn:Hvs.
  2:{ intro H. inversion H; subst. rewrite Hvs. exact I. }
  destruct (Qgeb scrollOffset 0) eqn:Hoff.
  - destruct (normalize_prev _ _ _ _ _ _) as [[a p] o] eqn:Hwalk.
    destruct (normalize_prev_conserves _ _ _ _ _ _ _ _ _ Hwalk) as (_ & Hi & Hle).
    intro H. cbn in H. inversion H; subst. cbn.
    split; [exact Hi|]. split; [intros _; exact Hle|].
    intro Hneg. apply Qgeb_ge in Hoff. exfalso. exact (Qlt_not_le _ _ Hneg Hoff).
  - assert (Hneg : ~ 0 <= scrollOffset).
    { intro H. apply Qgeb_ge in H. congruence. }
    destruct (List.last _ _) as [lastSpec|]; [|discriminate].
    destruct (Qltb _ _).
    { intro H. inversion H; subst. rewrite Hvs.
      split; [reflexivity|]. split; intros _; lia. }
    destruct (normalize_next _ _ _ _ _ _ _) as [[a p] o] eqn:Hwalk.
    destruct (normalize_next_conserves _ _ _ _ _ _ _ _ _ _ Hwalk) as (_ & Hi & Hle).
    intro H. cbn in H. inversion H; subst. cbn.
    split; [exact Hi|]. split; [intro H0; contradiction | intros _; exact Hle].
Qed.

Lemma normalizeScrollOffset_direction_witness :
  let its := [Some 0%nat; Some 1%nat; Some 2%nat] in
  items (mkViewSequence its 1) = items (mkViewSequence its 0) /\
  (0 <= -120 -> (1 <= 0)%nat) /\
  (-120 < 0 -> (0 <= 1)%nat).
Proof.
  cbv zeta.
  exact (normalizeScrollOffset_direction [150; 150] (-120)
           (scroll_view_over [Some 0%nat; Some 1%nat; Some 2%nat] 0
              [spec_at 0 (-120) 100; spec_at 1 (-20) 100; spec_at 2 80 100] (-120))
           _ _ eq_refl).
Defined.

(** *** More of the boundary detector *)

Ltac no_bit H := exfalso; apply H; reflexivity.

(** The LAST bit comes with a recorded [lastScrollOffset] at or above the
    offset the detector was given. *)
Lemma last_reached_slack (size_ : list Q) (scrollOffset : Q) (s : ScrollView) :
  includes
    (boundsReached (_scroll (final_state (_calculateBoundsReached size_ scrollOffset s))))
    Bounds.LAST ->
  exists l,
    lastScrollOffset (_scroll (final_state (_calculateBoundsReached size_ scrollOffset s)))
      = Some l /\
    scrollOffset <= l.
Proof.
  unfold _calculateBoundsReached.
  set (b0 := match _viewSequence s with Some _ => Bounds.NONE | None => Bounds.FIRST end).
  assert (Hb0 : ~ includes b0 Bounds.LAST /\ ~ includes (Z.lor b0 Bounds.FIRST) Bounds.LAST).
  { unfold b0. destruct (_viewSequence s); split; intro H; apply H; reflexivity. }
  destruct Hb0 as [Hb0 Hb0'].
  set (first_check :=
         match target s with
         | [] => (b0, None)
         | first :: _ =>
             if endReachedPrev s && Qgeb scrollOffset 0
             then (if Qgeb (at_index (transform first) (12 + dir_index (_direction s))) 0
                   then Z.lor b0 Bounds.FIRST else b0, Some first)
             else (b0, None)
         end).
  assert (Hb1 : ~ includes (fst first_check) Bounds.LAST).
  { unfold first_check. destruct (target s) as [|first rest]; [exact Hb0|].
    destruct (endReachedPrev s && Qgeb scrollOffset 0); [|exact Hb0].
    destruct (Qgeb _ 0); [exact Hb0' | exact Hb0]. }
  destruct first_check as [b1 spec1]. cbn [fst] in Hb1.
  destruct (walk_to_last _ _ _) as [[spec|]|]; cbn; try (intro H; contradiction).
  destruct (Qgtb _ _) eqn:Hfit; cbn; [intro H; contradiction|].
  intros _. eexists. split; [reflexivity|].
  unfold Qgtb in Hfit. apply negb_false_iff, Qle_bool_iff in Hfit. lra.
Qed.

(** X8: when the detector reports LAST it records a [lastScrollOffset] that
    is at or above the offset it was given: the slack between the end of the
    content and the end of the viewport is never negative. *)
Theorem calculateBoundsReached_last_slack (size_ : list Q) (scrollOffset : Q) (s : ScrollView) :
  includes
    (boundsReached (_scroll (final_state (_calculateBoundsReached size_ scrollOffset s))))
    Bounds.LAST ->
  exists l,
    lastScrollOffset (_scroll (final_state (_calculateBoundsReached size_ scrollOffset s)))
      = Some l /\
    scrollOffset <= l.
Proof. exact (last_reached_slack size_ scrollOffset s). Qed.

Lemma calculateBoundsReached_last_slack_witness :
  exists l,
    lastScrollOffset
      (_scroll (final_state
         (_calculateBoundsReached [150; 150] (-10)
            (scroll_view_over [Some 0%nat] 0 [spec_at 0 (-10) 50] (-10)))))
      = Some l /\
    -10 <= l.
Proof.
  apply (calculateBoundsReached_last_slack [150; 150] (-10)
           (scroll_view_over [Some 0%nat] 0 [spec_at 0 (-10) 50] (-10))).
  discriminate.
Defined.

(** X9: with a null anchor the detector records FIRST and then reads the
    last spec it walked over, of which there is none: it throws a
    [TypeError] unless the check of the top took the first spec of the
    window (a non-empty window, the start of the sequence reached and an
    offset at or after 0). *)
Theorem calculateBoundsReached_null_anchor (size_ : list Q) (scrollOffset : Q)
    (s : ScrollView) :
  _viewSequence s = None ->
  (_calculateBoundsReached size_ scrollOffset s
   = TypeError (with_scroll s (set_boundsReached Bounds.FIRST (_scroll s)))
   <->
   (target s = [] \/ endReachedPrev s = false \/ scrollOffset < 0)).
Proof.
  intro Hvs. unfold _calculateBoundsReached. rewrite Hvs. cbn [walk_to_last].
  destruct (target s) as [|first rest].
  - cbn. split; auto.
  - destruct (endReachedPrev s); cbn.
    + destruct (Qgeb scrollOffset 0) eqn:Hoff; cbn.
      * split.
        -- destruct (Qgtb _ _); discriminate.
        -- intros [H|[H|H]]; try discriminate.
           apply Qgeb_ge in Hoff. exfalso. exact (Qlt_not_le _ _ H Hoff).
      * split; [|reflexivity]. intros _. right. right.
        apply Qltb_lt. rewrite Qgeb_Qltb in Hoff. now apply negb_false_iff in Hoff.
    + split; auto.
Qed.

Lemma calculateBoundsReached_null_anchor_witness :
  _calculateBoundsReached [150; 150] 0 (scroll_view_at 0 0 Bounds.NONE)
  = TypeError (with_scroll (scroll_view_at 0 0 Bounds.NONE)
                 (set_boundsReached Bounds.FIRST (_scroll (scroll_view_at 0 0 Bounds.NONE)))).
Proof.
  apply (calculateBoundsReached_null_anchor [150; 150] 0 (scroll_view_at 0 0 Bounds.NONE)
           eq_refl).
  left. reflexivity.
Defined.

Lemma skipn_nth_error {A : Type} (l : list A) (i : nat) (x : A) :
  nth_error l i = Some x -> exists rest, skipn i l = x :: rest.
Proof.
  revert l. induction i as [|i IH]; intros [|y l] H; try discriminate.
  - cbn in H. inversion H; subst. exists l. reflexivity.
  - cbn in H. cbn. exact (IH l H).
Qed.

(** X10: when the anchor's own item has no spec in the window, or one whose
    true size is still requested, the detector returns without judging the
    end: LAST stays clear and [lastScrollOffset] keeps its value. *)
Theorem calculateBoundsReached_defers (size_ : list Q) (scrollOffset : Q)
    (s : ScrollView) (vs : ViewSequence) (node : RenderNode) :
  _viewSequence s = Some vs ->
  get vs = Some node ->
  (lookup_spec (target s) (Some vs) = None \/
   exists sp, lookup_spec (target s) (Some vs) = Some sp /\ trueSizeRequested sp = true) ->
  exists s1,
    _calculateBoundsReached size_ scrollOffset s = Returned s1 tt /\
    ~ includes (boundsReached (_scroll s1)) Bounds.LAST /\
    lastScrollOffset (_scroll s1) = lastScrollOffset (_scroll s).
Proof.
  intros Hvs Hget Hspec.
  assert (Hwalk : forall spec0,
             walk_to_last (target s) (skipn (index vs) (items vs)) spec0 = None).
  { intro spec0. unfold get in Hget.
    destruct (nth_error (items vs) (index vs)) as [item|] eqn:Hnth; [|discriminate].
    subst item. destruct (skipn_nth_error _ _ _ Hnth) as [rest ->].
    cbn [walk_to_last].
    unfold lookup_spec, _lookupSpecByViewSequence, get in Hspec. rewrite Hnth in Hspec.
    destruct Hspec as [H|(sp & H & Htsr)]; rewrite H; [reflexivity|].
    rewrite Htsr. reflexivity. }
  unfold _calculateBoundsReached. rewrite Hvs.
  destruct (target s) as [|first rest].
  - rewrite Hwalk. eexists. split; [reflexivity|]. cbn. split; [|reflexivity].
    intro H. no_bit H.
  - destruct (endReachedPrev s && Qgeb scrollOffset 0).
    + destruct (Qgeb _ 0); rewrite Hwalk; eexists; (split; [reflexivity|]); cbn;
        (split; [|reflexivity]); intro H; no_bit H.
    + rewrite Hwalk. eexists. split; [reflexivity|]. cbn. split; [|reflexivity].
      intro H. no_bit H.
Qed.

Lemma calculateBoundsReached_defers_witness :
  exists s1,
    _calculateBoundsReached [150; 150] 0
      (scroll_view_over [Some 0%nat; Some 1%nat] 0 [spec_at 1 100 100] 0) = Returned s1 tt /\
    ~ includes (boundsReached (_scroll s1)) Bounds.LAST /\
    lastScrollOffset (_scroll s1)
      = lastScrollOffset
          (_scroll (scroll_view_over [Some 0%nat; Some 1%nat] 0 [spec_at 1 100 100] 0)).
Proof.
  apply (calculateBoundsReached_defers [150; 150] 0
           (scroll_view_over [Some 0%nat; Some 1%nat] 0 [spec_at 1 100 100] 0)
           (mkViewSequence [Some 0%nat; Some 1%nat] 0) 0%nat eq_refl eq_refl).
  left. reflexivity.
Defined.

(** X11: after the boundary detector has run, however it ended, the
    integration of the wheel delta has a number to clamp to: the LAST bit is
    never left set without a recorded [lastScrollOffset], so
    [_integrateScrollDelta] does not compute with [undefined]. *)
Theorem integrateScrollDelta_after_bounds (size_ : list Q) (scrollOffset : Q)
    (s : ScrollView) :
  exists s' offset,
    _integrateScrollDelta (final_state (_calculateBoundsReached size_ scrollOffset s))
    = Some (s', offset).
Proof.
  pose proof (last_reached_slack size_ scrollOffset s) as Hlast.
  set (s1 := final_state (_calculateBoundsReached size_ scrollOffset s)) in *.
  unfold _integrateScrollDelta.
  destruct (Qeq_bool (scrollDelta (_scroll s1)) 0); [eauto|].
  destruct (has_bit (boundsReached (_scroll s1)) Bounds.FIRST); [eauto|].
  destruct (has_bit (boundsReached (_scroll s1)) Bounds.LAST) eqn:Hl; [|eauto].
  apply has_bit_includes in Hl. destruct (Hlast Hl) as (l & -> & _). eauto.
Qed.

(** *** A touch drag from start to end *)

(** X12: a touch drag ([_moveStart], [_moveUpdate], [_moveEnd] of the touch
    source, the update with a vector position) shows the travelled distance
    as [moveOffset] while it lasts and, at its end, adds exactly that distance
    to the particle position, clears [moveOffset] and [moveStart] and takes
    the release velocity of the end event (0 when it gives none); the pending
    wheel delta and the bounds are not touched. *)
Theorem touch_drag_commits (s : ScrollView) (e0 e1 e2 : Event) (xs : list Q) :
  ev_position e1 = Vector xs ->
  let d := _direction s in
  let travelled := at_index xs (dir_index d) - along d (ev_position e0) in
  exists s2,
    _moveUpdate TouchSync e1 (_moveStart TouchSync e0 s) = Some s2 /\
    moveOffset (_scroll s2) = travelled /\
    position (particle (_scroll s2)) = position (particle (_scroll s)) /\
    let s3 := _moveEnd TouchSync e2 s2 in
    position (particle (_scroll s3)) = position (particle (_scroll s)) + travelled /\
    moveOffset (_scroll s3) = 0 /\
    moveStart (_scroll s3) = None /\
    velocity (particle (_scroll s3))
      = match ev_velocity e2 with Some v => along d v | None => 0 end /\
    scrollDelta (_scroll s3) = scrollDelta (_scroll s) /\
    boundsReached (_scroll s3) = boundsReached (_scroll s) /\
    _viewSequence s3 = _viewSequence s.
Proof.
  intros Hpos. cbv zeta. unfold _moveUpdate, _moveStart. cbn. rewrite Hpos. cbn.
  eexists. split; [reflexivity|]. cbn. split; [reflexivity|]. split; [reflexivity|].
  unfold _moveEnd. cbn. destruct (ev_velocity e2); cbn; repeat split; reflexivity.
Qed.

Lemma touch_drag_commits_witness :
  let s := scroll_view_at 7 0 Bounds.NONE in
  let e0 := mkEvent (Vector [10; 200]) (Scalar 0) None in
  let e1 := mkEvent (Vector [10; 170]) (Scalar 0) None in
  let e2 := mkEvent (Vector [10; 170]) (Scalar 0) (Some (Vector [0; -2])) in
  exists s2,
    _moveUpdate TouchSync e1 (_moveStart TouchSync e0 s) = Some s2 /\
    moveOffset (_scroll s2) = 170 - 200 /\
    position (particle (_scroll s2)) = 7 /\
    position (particle (_scroll (_moveEnd TouchSync e2 s2))) = 7 + (170 - 200) /\
    moveOffset (_scroll (_moveEnd TouchSync e2 s2)) = 0 /\
    moveStart (_scroll (_moveEnd TouchSync e2 s2)) = None /\
    velocity (particle (_scroll (_moveEnd TouchSync e2 s2))) = -2 /\
    scrollDelta (_scroll (_moveEnd TouchSync e2 s2)) = 0 /\
    boundsReached (_scroll (_moveEnd TouchSync e2 s2)) = Bounds.NONE /\
    _viewSequence (_moveEnd TouchSync e2 s2) = None.
Proof.
  cbv zeta.
  exact (touch_drag_commits (scroll_view_at 7 0 Bounds.NONE)
           (mkEvent (Vector [10; 200]) (Scalar 0) None)
           (mkEvent (Vector [10; 170]) (Scalar 0) None)
           (mkEvent (Vector [10; 170]) (Scalar 0) (Some (Vector [0; -2])))
           [10; 170] eq_refl).
Defined.

(** *** The edge spring *)

(** The edge-spring fields of [this._scroll]: the spring's target
    ([undefined]: no spring), the id under which the spring force is attached
    to the physics engine, and the anchor vector of the force. *)
Record EdgeSpring : Type := mkEdgeSpring {
  edgeSpringOffset : option Q;
  edgeSpringForceId : option nat;
  edgeSpringVector : list Q
}.

(** [a === b] on two offsets that are numbers or [undefined]. *)
Definition same_offset (a b : option Q) : bool :=
  match a, b with
  | None, None => true
  | Some x, Some y => Qeq_bool x y
  | _, _ => false
  end.

(** A force id read as a condition: [undefined] and 0 are falsy. *)
Definition attached (id : option nat) : bool :=
  match id with
  | Some (S _) => true
  | _ => false
  end.

Section Physics.

(** The physics engine of famo.us, which is not part of this source:
    [pe.attach(force, particle)] answers the id of the attachment and
    [pe.detach(id)] removes it. *)
Variable PhysicsEngine : Type.
Variable attach : PhysicsEngine -> nat * PhysicsEngine.
Variable detach : nat -> PhysicsEngine -> PhysicsEngine.

(** [_updateEdgeSpring(edgeSpringOffset)] *)
Definition _updateEdgeSpring (offset : option Q) (sp : EdgeSpring) (pe : PhysicsEngine)
  : EdgeSpring * PhysicsEngine :=
  if same_offset offset (edgeSpringOffset sp) then (sp, pe)
  else
    match offset with
    | None =>
        match edgeSpringForceId sp with
        | Some (S id) =>
            (mkEdgeSpring None None (edgeSpringVector sp), detach (S id) pe)
        | id => (mkEdgeSpring None id (edgeSpringVector sp), pe)
        end
    | Some x =>
        let '(id, pe') :=
          if negb (attached (edgeSpringForceId sp))
          then (let '(id, pe') := attach pe in (Some id, pe'))
          else (edgeSpringForceId sp, pe) in
        (mkEdgeSpring (Some x) id [x; 0; 0], pe')
    end.

(** The target [_updateBounds] picks from the bounds reached. *)
Definition spring_target (sc : Scroll) : option Q :=
  if has_bit (boundsReached sc) Bounds.FIRST then Some 0
  else if has_bit (boundsReached sc) Bounds.LAST then lastScrollOffset sc
  else None.

(** [_updateBounds(size, scrollOffset)]: a [TypeError] of the detector leaves
    the spring as it is. *)
Definition _updateBounds (size_ : list Q) (scrollOffset : Q) (s : ScrollView)
    (sp : EdgeSpring) (pe : PhysicsEngine) : completion (EdgeSpring * PhysicsEngine) :=
  match _calculateBoundsReached size_ scrollOffset s with
  | Returned s1 _ => Returned s1 (_updateEdgeSpring (spring_target (_scroll s1)) sp pe)
  | TypeError s1 => TypeError s1
  end.

(** The spring fields agree with each other: no target, no attached force; a
    target, an attached force anchored at it. *)
Definition spring_consistent (sp : EdgeSpring) : Prop :=
  match edgeSpringOffset sp with
  | None => attached (edgeSpringForceId sp) = false
  | Some x => attached (edgeSpringForceId sp) = true /\ edgeSpringVector sp = [x; 0; 0]
  end.

(** X13: [_updateEdgeSpring] keeps the spring fields consistent, provided the
    engine hands out non-zero ids, and leaves the target it was given (as a
    number); called again with the same target it touches neither the fields
    nor the engine. *)
Theorem updateEdgeSpring_consistent (offset : option Q) (sp : EdgeSpring)
    (pe : PhysicsEngine) :
  (forall pe0, fst (attach pe0) <> 0%nat) ->
  spring_consistent sp ->
  let '(sp', pe') := _updateEdgeSpring offset sp pe in
  spring_consistent sp' /\
  same_offset offset (edgeSpringOffset sp') = true /\
  _updateEdgeSpring offset sp' pe' = (sp', pe').
Proof.
  intros Hid Hsp. unfold _updateEdgeSpring.
  destruct (same_offset offset (edgeSpringOffset sp)) eqn:Hsame.
  - split; [exact Hsp|]. split; [exact Hsame|]. rewrite Hsame. reflexivity.
  - destruct offset as [x|].
    + assert (Hx : Qeq_bool x x = true) by (apply Qeq_bool_iff; reflexivity).
      destruct (attached (edgeSpringForceId sp)) eqn:Hatt; cbn.
      * rewrite Hx. repeat split; assumption.
      * specialize (Hid pe). destruct (attach pe) as [id pe1]. cbn in Hid |- *.
        rewrite Hx. destruct id as [|id]; [contradiction|]. repeat split; reflexivity.
    + destruct (edgeSpringForceId sp) as [[|id]|]; cbn; repeat split; reflexivity.
Qed.

(** X14: when [_updateBounds] returns, the spring pulls to 0 if FIRST is
    reached (also when LAST is reached too), to the recorded
    [lastScrollOffset] if only LAST is, and is released if neither is. *)
Theorem updateBounds_target (size_ : list Q) (scrollOffset : Q) (s : ScrollView)
    (sp : EdgeSpring) (pe : PhysicsEngine) (s1 : ScrollView) (sp' : EdgeSpring)
    (pe' : PhysicsEngine) :
  _updateBounds size_ scrollOffset s sp pe = Returned s1 (sp', pe') ->
  (includes (boundsReached (_scroll s1)) Bounds.FIRST ->
   exists x, edgeSpringOffset sp' = Some x /\ x == 0) /\
  (~ includes (boundsReached (_scroll s1)) Bounds.FIRST ->
   includes (boundsReached (_scroll s1)) Bounds.LAST ->
   exists x l, edgeSpringOffset sp' = Some x /\
               lastScrollOffset (_scroll s1) = Some l /\ x == l /\ scrollOffset <= l) /\
  (~ includes (boundsReached (_scroll s1)) Bounds.FIRST ->
   ~ includes (boundsReached (_scroll s1)) Bounds.LAST ->
   edgeSpringOffset sp' = None).
Proof.
  unfold _updateBounds.
  pose proof (last_reached_slack size_ scrollOffset s) as Hslack.
  destruct (_calculateBoundsReached size_ scrollOffset s) as [s0 []|s0]; [|discriminate].
  cbn [final_state] in Hslack. intro H. inversion H as [[Hs Hu]]. subst s0. clear H.
  assert (Hgot : same_offset (spring_target (_scroll s1)) (edgeSpringOffset sp') = true).
  { revert Hu. unfold _updateEdgeSpring.
    destruct (same_offset (spring_target (_scroll s1)) (edgeSpringOffset sp)) eqn:Hsame.
    - intro E. inversion E; subst. exact Hsame.
    - destruct (spring_target (_scroll s1)) as [x|].
      + destruct (negb _); [destruct (attach pe)|]; intro E; inversion E; subst; cbn;
          apply Qeq_bool_iff; reflexivity.
      + destruct (edgeSpringForceId sp) as [[|id]|]; intro E; inversion E; subst;
          reflexivity. }
  unfold spring_target in Hgot.
  split; [|split].
  - intro Hf. apply has_bit_includes in Hf. rewrite Hf in Hgot.
    destruct (edgeSpringOffset sp') as [x|]; [|discriminate].
    exists x. split; [reflexivity|]. apply Qeq_bool_iff in Hgot. symmetry. exact Hgot.
  - intros Hf Hl. destruct (Hslack Hl) as (l & Hlast & Hle).
    apply has_bit_excludes in Hf. apply has_bit_includes in Hl.
    rewrite Hf, Hl, Hlast in Hgot.
    destruct (edgeSpringOffset sp') as [x|]; [|discriminate].
    exists x, l. split; [reflexivity|]. split; [exact Hlast|].
    apply Qeq_bool_iff in Hgot. split; [symmetry; exact Hgot | exact Hle].
  - intros Hf Hl. apply has_bit_excludes in Hf. apply has_bit_excludes in Hl.
    rewrite Hf, Hl in Hgot. destruct (edgeSpringOffset sp'); [discriminate|reflexivity].
Qed.

End Physics.

(** An engine that counts its attachments, the drag force holding id 0. *)
Definition counting_attach (next : nat) : nat * nat := (S next, S next).
Definition counting_detach (id : nat) (next : nat) : nat := next.

Definition no_spring : EdgeSpring := mkEdgeSpring None None [0; 0; 0].

Lemma updateEdgeSpring_consistent_witness :
  let '(sp', pe') := _updateEdgeSpring nat counting_attach counting_detach (Some 100) no_spring 0%nat in
  spring_consistent sp' /\
  same_offset (Some 100) (edgeSpringOffset sp') = true /\
  _updateEdgeSpring nat counting_attach counting_detach (Some 100) sp' pe' = (sp', pe').
Proof.
  apply (updateEdgeSpring_consistent nat counting_attach counting_detach
           (Some 100) no_spring 0%nat).
  - intros pe0. discriminate.
  - reflexivity.
Defined.

(** A single item of 50 scrolled to -10 in a viewport of 150: both bounds are
    reached and the spring pulls to 0. *)
Lemma updateBounds_target_witness :
  let s := scroll_view_over [Some 0%nat] 0 [spec_at 0 (-10) 50] (-10) in
  exists s1 sp' pe',
    _updateBounds nat counting_attach counting_detach [150; 150] (-10) s no_spring 0%nat
      = Returned s1 (sp', pe') /\
    boundsReached (_scroll s1) = Bounds.BOTH /\
    exists x, edgeSpringOffset sp' = Some x /\ x == 0.
Proof.
  cbv zeta. eexists. eexists. eexists. split; [reflexivity|]. split; [reflexivity|].
  refine (proj1 (updateBounds_target nat counting_attach counting_detach [150; 150] (-10)
                   (scroll_view_over [Some 0%nat] 0 [spec_at 0 (-10) 50] (-10))
                   no_spring 0%nat _ _ _ eq_refl) _).
  discriminate.
Defined.

End ScrollViewMore.

(** * More of the layout node *)

Module LayoutNodeMore.
Import LayoutNode LayoutNodeFacts.
Local Open Scope Q_scope.

Section Methods.

Variable Transform_build :
  list value -> list value -> list value -> list value -> list value.
Variable Transform_translate : value -> value -> value -> list value.

(** *** What the methods leave of the store *)

Lemma tween_property_grows (t : Q) (from to : LayoutSet) (c : channel)
    (h : heap) (r : channel -> prop) (m : bool) :
  h `prefix_of` fst (fst (tween_property t from to c (h, r, m))).
Proof.
  unfold tween_property. destruct (strict_eq _ _); cbn; [reflexivity|].
  now apply prefix_app_r.
Qed.

Lemma tween_loop_grows (t : Q) (from to : LayoutSet) (cs : list channel) :
  forall acc,
    fst (fst acc) `prefix_of`
    fst (fst (fold_left (fun acc c => tween_property t from to c acc) cs acc)).
Proof.
  induction cs as [|c rest IH]; intros [[h r] m]; cbn [fold_left]; [reflexivity|].
  etrans; [|apply IH]. apply tween_property_grows.
Qed.

Lemma modifySpecFromSet_grows (spec : Spec) (s : LayoutSet) (h : heap) :
  h `prefix_of` snd (_modifySpecFromSet Transform_build Transform_translate spec s h).
Proof.
  unfold _modifySpecFromSet.
  destruct (alloc_opt (pair_from_set h s Size) h) as [r1 h1] eqn:E1.
  destruct (alloc_opt (pair_from_set h1 s Origin) h1) as [r2 h2] eqn:E2.
  destruct (alloc_opt (pair_from_set h2 s Align) h2) as [r3 h3] eqn:E3.
  destruct (alloc_opt (transform_from_set Transform_build Transform_translate h3 s) h3)
    as [r4 h4] eqn:E4.
  destruct (alloc_opt_inv _ _ _ _ E1) as (P1 & _).
  destruct (alloc_opt_inv _ _ _ _ E2) as (P2 & _).
  destruct (alloc_opt_inv _ _ _ _ E3) as (P3 & _).
  destruct (alloc_opt_inv _ _ _ _ E4) as (P4 & _).
  cbn. etrans; [exact P1|]. etrans; [exact P2|]. etrans; eassumption.
Qed.

(** What [_interpolateSet] leaves: the store only grows and the node is as
    it was, but for [_specModified]. *)
Lemma interpolateSet_frame (clock : Clock) (st : State) :
  let st' := final_state (_interpolateSet clock st) in
  arrays st `prefix_of` arrays st' /\
  (this st' = this st \/ this st' = with_specModified true (this st)).
Proof.
  cbv zeta. unfold _interpolateSet.
  destruct (_transitionable (this st)); [|cbn; split; [reflexivity|now left]].
  destruct (_originalSet (this st)) as [from|]; [|cbn; split; [reflexivity|now left]].
  destruct (Qeq_bool (tween clock) 1); [cbn; split; [reflexivity|now left]|].
  destruct (_lastSet (this st)) as [to|]; [|cbn; split; [reflexivity|now left]].
  pose proof (tween_loop_grows (tween clock) from to channels_in_order
                (arrays st, (fun _ => PVal VUndefined), false)) as Hp.
  destruct (fold_left _ _ _) as [[h r] m]. cbn in Hp |- *.
  split; [exact Hp|]. destruct m; [now right | now left].
Qed.

(** The parts of a node that a read does not touch. *)
Definition same_sets (n n' : LayoutNode) : Prop :=
  _originalSet n' = _originalSet n /\
  _lastSet n' = _lastSet n /\
  _targetSet n' = _targetSet n /\
  _invalidated n' = _invalidated n /\
  _removing n' = _removing n /\
  renderNode n' = renderNode n /\
  scrollLength n' = scrollLength n.

(** What [getSpec] leaves of the store and the node. *)
Lemma getSpec_leaves (clock : Clock) (st : State) :
  let st' := final_state (getSpec Transform_build Transform_translate clock st) in
  arrays st `prefix_of` arrays st' /\
  _spec (this st') = set_removed (negb (_invalidated (this st))) (_spec (this st)) /\
  same_sets (this st) (this st') /\
  (_transitionable (this st') = _transitionable (this st) \/
   (_transitionable (this st') = None /\ active clock = false)).
Proof.
  cbv zeta. unfold getSpec, bind, modify_node, _getFinalSpec. cbn.
  set (n0 := with_spec (set_removed (negb (_invalidated (this st))) (_spec (this st)))
               (with_specModified false (this st))).
  destruct (present_transitionable n0 && negb (s_hide (_spec (this st)))).
  2:{ cbn. split; [reflexivity|]. split; [reflexivity|]. split; [repeat split|now left]. }
  unfold bind, ret.
  set (st0 := match (if negb (active clock)
                     then modify_node (with_transitionable None)
                     else fun st1 => Normal tt st1) (mkState (arrays st) n0)
              with Normal _ st1 => st1 | TypeError st1 => st1 end).
  assert (Hst0 : arrays st0 = arrays st /\
                 _spec (this st0) = _spec n0 /\
                 same_sets (this st) (this st0) /\
                 (_transitionable (this st0) = _transitionable (this st) \/
                  (_transitionable (this st0) = None /\ active clock = false))).
  { unfold st0. destruct (active clock); cbn.
    - split; [reflexivity|]. split; [reflexivity|]. split; [repeat split|now left].
    - split; [reflexivity|]. split; [reflexivity|]. split; [repeat split|now right]. }
  destruct Hst0 as (Ha0 & Hs0 & Hsets0 & Ht0).
  assert (Hgoal : forall c : completion (option LayoutSet),
             c = _interpolateSet clock st0 ->
             let st' :=
               final_state
                 (match c with
                  | Normal set_ st1 =>
                      match set_ with
                      | Some s =>
                          let '(spec', h) :=
                            _modifySpecFromSet Transform_build Transform_translate
                              (set_renderNode (s_renderNode (_spec (this st1))) empty_spec)
                              s (arrays st1) in
                          Normal (Fresh spec') (mkState h (this st1))
                      | None => TypeError st1
                      end
                  | TypeError st1 => TypeError st1
                  end) in
             arrays st `prefix_of` arrays st' /\
             _spec (this st') = _spec n0 /\
             same_sets (this st) (this st') /\
             (_transitionable (this st') = _transitionable (this st) \/
              (_transitionable (this st') = None /\ active clock = false))).
  { intros c Hc. cbv zeta.
    destruct (interpolateSet_frame clock st0) as [Hp Hn]. rewrite <- Hc in Hp, Hn.
    rewrite Ha0 in Hp.
    assert (Hnode : forall st1, final_state c = st1 ->
               _spec (this st1) = _spec n0 /\
               same_sets (this st) (this st1) /\
               (_transitionable (this st1) = _transitionable (this st) \/
                (_transitionable (this st1) = None /\ active clock = false))).
    { intros st1 <-. destruct Hn as [-> | ->]; cbn; auto. }
    destruct c as [[s|] st1|st1]; cbn [final_state] in Hp, Hnode |- *.
    - pose proof (modifySpecFromSet_grows
                    (set_renderNode (s_renderNode (_spec (this st1))) empty_spec)
                    s (arrays st1)) as Hg.
      destruct (_modifySpecFromSet _ _ _ _ _) as [spec' h]. cbn in Hg |- *.
      split; [etrans; eassumption|]. exact (Hnode st1 eq_refl).
    - split; [exact Hp|]. exact (Hnode st1 eq_refl).
    - split; [exact Hp|]. exact (Hnode st1 eq_refl). }
  unfold st0 in Hgoal.
  destruct (active clock); cbn in Hgoal |- *; exact (Hgoal _ eq_refl).
Qed.

(** X15: whatever [getSpec] answers, and also when it throws, it writes into
    no array that existed before (the store only grows), it changes nothing
    of the committed spec but its [removed] flag, which becomes the negation
    of [_invalidated], it leaves the start, last and target sets and the
    invalidation and removal flags alone, and the only thing it does to the
    transitionable is to delete it when it reports itself inactive. *)
Theorem getSpec_frame (clock : Clock) (st : State) :
  let st' := final_state (getSpec Transform_build Transform_translate clock st) in
  arrays st `prefix_of` arrays st' /\
  _spec (this st') = set_removed (negb (_invalidated (this st))) (_spec (this st)) /\
  same_sets (this st) (this st') /\
  (_transitionable (this st') = _transitionable (this st) \/
   (_transitionable (this st') = None /\ active clock = false)).
Proof. exact (getSpec_leaves clock st). Qed.

(** *** [set] *)

(** All that [set] does. *)
Lemma set_effect (s : LayoutSet) (size_ : option (list value)) (st : State) :
  exists st',
    set Transform_build Transform_translate s size_ st = Normal tt st' /\
    _spec (this st') =
      fst (_modifySpecFromSet Transform_build Transform_translate (_spec (this st)) s
             (arrays st)) /\
    arrays st' =
      snd (_modifySpecFromSet Transform_build Transform_translate (_spec (this st)) s
             (arrays st)) /\
    _lastSet (this st') = Some s /\
    _invalidated (this st') = true /\
    _specModified (this st') = true /\
    _removing (this st') = false /\
    scrollLength (this st') = set_scrollLength s /\
    renderNode (this st') = renderNode (this st) /\
    _transitionable (this st') =
      match _transitionable (this st), transition s with
      | Some t, _ => Some t
      | None, Some tr => Some (start_transitionable tr)
      | None, None => None
      end /\
    _originalSet (this st') =
      match _transitionable (this st), transition s with
      | None, None => Some s
      | _, _ => _originalSet (this st)
      end /\
    _targetSet (this st') =
      match transition s with
      | Some _ => Some s
      | None => _targetSet (this st)
      end.
Proof.
  destruct st as [h n]. destruct n as [rn sp sm inv rm ts t os ls tg sl vs].
  unfold set, bind, modify_node, ret, present_transitionable.
  destruct (transition s) as [tr|]; destruct t as [t|]; cbn;
    destruct (_modifySpecFromSet _ _ _ _ _) as [spec' h']; cbn;
    (eexists; split; [reflexivity|]); cbn; repeat split; reflexivity.
Qed.

Lemma spec_view_removed (h : heap) (sp : Spec) (b : bool) (node : option RenderNode)
    (removed hidden : bool) (cv : channel -> pview) :
  spec_view h sp = view_from_channels Transform_build Transform_translate node removed hidden cv ->
  spec_view h (set_removed b sp)
  = view_from_channels Transform_build Transform_translate node b hidden cv.
Proof.
  unfold spec_view, view_from_channels. cbn. intro H. inversion H. reflexivity.
Qed.

(** X16: a node without a running interpolation that is [set] without a
    transition and then read answers its committed spec object, and that spec
    reads as the set does: the opacity and hide flag of the set, new
    two-component arrays for size, origin and align with the defaults filled
    in, the transform built from the set, and [removed] false. *)
Theorem set_then_getSpec (s : LayoutSet) (size_ : option (list value)) (clock : Clock)
    (st : State) :
  _transitionable (this st) = None ->
  transition s = None ->
  valid_set (arrays st) s ->
  exists st1 st2,
    set Transform_build Transform_translate s size_ st = Normal tt st1 /\
    getSpec Transform_build Transform_translate clock st1 = Normal Committed st2 /\
    spec_view (arrays st2) (_spec (this st2)) =
    view_from_channels Transform_build Transform_translate
      (s_renderNode (_spec (this st))) false (hide s)
      (fun c => prop_view (arrays st) (channels s c)).
Proof.
  intros Ht Htr Hv.
  destruct (set_effect s size_ st)
    as (st1 & Hset & Hspec & Harr & _ & Hinv & _ & _ & _ & _ & Ht1 & _).
  rewrite Ht, Htr in Ht1.
  exists st1, (flagged st1). split; [exact Hset|].
  split; [apply getSpec_committed; exact Ht1|].
  destruct (_modifySpecFromSet Transform_build Transform_translate (_spec (this st)) s
              (arrays st)) as [spec' h'] eqn:Hm.
  destruct (modifySpecFromSet_view Transform_build Transform_translate _ _ _ _ _ Hv Hm)
    as [_ Hview].
  cbn in Hspec, Harr. unfold flagged. cbn. rewrite Hinv, Hspec, Harr. cbn.
  apply (spec_view_removed _ _ _ _ (s_removed (_spec (this st)))).
  apply Hview. reflexivity.
Qed.

Lemma modifySpecFromSet_fields (spec : Spec) (s : LayoutSet) (h : heap) :
  let spec' := fst (_modifySpecFromSet Transform_build Transform_translate spec s h) in
  s_renderNode spec' = s_renderNode spec /\
  s_hide spec' = hide s /\
  s_removed spec' = s_removed spec /\
  s_opacity spec' = channels s Opacity.
Proof.
  cbv zeta. unfold _modifySpecFromSet.
  destruct (alloc_opt _ _) as [a1 h1].
  destruct (alloc_opt _ _) as [a2 h2].
  destruct (alloc_opt _ _) as [a3 h3].
  destruct (alloc_opt _ _) as [a4 h4].
  cbn. repeat split.
Qed.

(** X17: the animation that [set] starts runs from the previous set.  A node
    without a running interpolation is set to [a] without a transition and
    then to a visible [b] with one: the read, while the transitionable is
    active, answers a new spec built from the interpolation between [a] and
    [b] at the tween value ([b] itself at 1), not the committed spec. *)
Theorem transition_runs_from_previous_set (a b : LayoutSet) (tr : Transition)
    (size1 size2 : option (list value)) (clock : Clock) (st : State) :
  _transitionable (this st) = None ->
  transition a = None ->
  transition b = Some tr ->
  hide b = false ->
  active clock = true ->
  valid_set (arrays st) a ->
  valid_set (arrays st) b ->
  exists st1 st2 spec st3,
    set Transform_build Transform_translate a size1 st = Normal tt st1 /\
    set Transform_build Transform_translate b size2 st1 = Normal tt st2 /\
    getSpec Transform_build Transform_translate clock st2 = Normal (Fresh spec) st3 /\
    spec_view (arrays st3) spec =
    view_from_channels Transform_build Transform_translate
      (s_renderNode (_spec (this st))) false false
      (read_channels (arrays st) (tween clock) (Some a) b).
Proof.
  intros Ht Hta Htb Hhb Hact Va Vb.
  destruct (set_effect a size1 st)
    as (st1 & Hset1 & Hspec1 & Harr1 & Hl1 & _ & _ & _ & _ & _ & Ht1 & Ho1 & _).
  rewrite Ht, Hta in Ht1, Ho1.
  destruct (set_effect b size2 st1)
    as (st2 & Hset2 & Hspec2 & Harr2 & Hl2 & _ & _ & _ & _ & _ & Ht2 & Ho2 & _).
  rewrite Ht1, Htb in Ht2, Ho2. rewrite Ho1 in Ho2.
  pose proof (modifySpecFromSet_grows (_spec (this st)) a (arrays st)) as P1.
  rewrite <- Harr1 in P1.
  pose proof (modifySpecFromSet_grows (_spec (this st1)) b (arrays st1)) as P2.
  rewrite <- Harr2 in P2.
  destruct (modifySpecFromSet_fields (_spec (this st)) a (arrays st)) as (R1 & _).
  rewrite <- Hspec1 in R1.
  destruct (modifySpecFromSet_fields (_spec (this st1)) b (arrays st1)) as (R2 & H2 & _).
  rewrite <- Hspec2 in R2, H2.
  assert (P02 : arrays st `prefix_of` arrays st2) by (etrans; eassumption).
  assert (Hv2 : valid_node st2).
  { split; intros x Hx; [rewrite Ho2 in Hx | rewrite Hl2 in Hx]; inversion Hx; subst x;
      eapply valid_set_prefix; eassumption. }
  destruct (getSpec_fresh_view Transform_build Transform_translate clock st2 _ b
              Ht2 (eq_trans H2 Hhb) Hact Hl2 Hv2)
    as (spec & st3 & Hread & Hp3 & Hview & _).
  exists st1, st2, spec, st3.
  split; [exact Hset1|]. split; [exact Hset2|]. split; [exact Hread|].
  rewrite (Hview (arrays st3)) by reflexivity.
  rewrite R2, R1, Ho2. unfold read_hidden. rewrite Hhb.
  replace (if Qeq_bool (tween clock) 1 then false else false) with false
    by (destruct (Qeq_bool _ _); reflexivity).
  apply view_from_channels_ext. intro c.
  apply read_channels_prefix; try assumption; try reflexivity.
  intros from Hf. inversion Hf; subst from. exact Va.
Qed.

(** When [_interpolateSet] throws, and when it answers [undefined]. *)
Lemma interpolateSet_outcome (clock : Clock) (st : State) :
  match _interpolateSet clock st with
  | Normal o _ =>
      _transitionable (this st) <> None /\ (_lastSet (this st) = None <-> o = None)
  | TypeError _ => _transitionable (this st) = None \/ _lastSet (this st) = None
  end.
Proof.
  unfold _interpolateSet.
  destruct (_transitionable (this st)) as [t|]; [|now left].
  destruct (_originalSet (this st)) as [from|]; [|split; [discriminate|reflexivity]].
  destruct (Qeq_bool (tween clock) 1); [split; [discriminate|reflexivity]|].
  destruct (_lastSet (this st)) as [to|]; [|now right].
  destruct (fold_left _ _ _) as [[h r] m].
  split; [discriminate|]. split; intro H; discriminate H.
Qed.

(** X18: when a read throws.  [getSpec] throws exactly when the node holds a
    transitionable, its committed spec is not hidden, and either the
    transitionable reports itself inactive (it is deleted and then
    dereferenced) or the node was never set; every other read returns. *)
Theorem getSpec_throws_iff (clock : Clock) (st : State) :
  (exists st', getSpec Transform_build Transform_translate clock st = TypeError st') <->
  (present_transitionable (this st) = true /\
   s_hide (_spec (this st)) = false /\
   (active clock = false \/ _lastSet (this st) = None)).
Proof.
  destruct st as [h [rn [srn op sz og al hd tf rm] sm inv rmv ts t os ls tg sl vs]].
  unfold getSpec, bind, modify_node, _getFinalSpec, present_transitionable, ret.
  cbn -[_interpolateSet _modifySpecFromSet].
  destruct t as [t|]; cbn -[_interpolateSet _modifySpecFromSet].
  2:{ split; [intros [st' H]; discriminate H | intros (H & _); discriminate H]. }
  destruct hd; cbn -[_interpolateSet _modifySpecFromSet].
  { split; [intros [st' H]; discriminate H | intros (_ & H & _); discriminate H]. }
  destruct (active clock); cbn -[_interpolateSet _modifySpecFromSet].
  2:{ unfold _interpolateSet. cbn. split; [intros _; auto | intros _; eauto]. }
  unfold bind.
  match goal with
  | |- context [_interpolateSet clock ?s] =>
      pose proof (interpolateSet_outcome clock s) as Ho;
      destruct (_interpolateSet clock s) as [[set_|] st1|st1]
  end; cbn in Ho.
  - destruct Ho as [_ Ho].
    destruct (_modifySpecFromSet _ _ _ _ _) as [spec' h0].
    split; [intros [st' H]; discriminate H|].
    intros (_ & _ & [H|H]); [discriminate H|].
    apply Ho in H. discriminate H.
  - destruct Ho as [_ Ho]. split; [intros _|intros _; eauto].
    split; [reflexivity|]. split; [reflexivity|]. right. apply Ho. reflexivity.
  - destruct Ho as [Ho|Ho]; [discriminate Ho|].
    split; [intros _|intros _; eauto].
    split; [reflexivity|]. split; [reflexivity|]. right. exact Ho.
Qed.

(** X19: a read of a running interpolation between two sets that give the
    opacity as numbers [a] and [b], before the tween value reaches 1, answers
    a new spec whose opacity is [a + (b - a) * tween] when the two differ,
    and [undefined] when they are equal (the interpolated set then holds the
    number itself and takes its component 0). *)
Theorem getSpec_opacity_interpolates (clock : Clock) (st : State) (t0 : Transitionable)
    (from to : LayoutSet) (a b : Q) :
  _transitionable (this st) = Some t0 ->
  s_hide (_spec (this st)) = false ->
  active clock = true ->
  _originalSet (this st) = Some from ->
  _lastSet (this st) = Some to ->
  valid_node st ->
  channels from Opacity = PVal (VNum a) ->
  channels to Opacity = PVal (VNum b) ->
  Qeq_bool (tween clock) 1 = false ->
  exists spec st',
    getSpec Transform_build Transform_translate clock st = Normal (Fresh spec) st' /\
    s_opacity spec =
    PVal (if Qeq_bool b a then VUndefined else VNum (a + (b - a) * tween clock)).
Proof.
  intros Ht Hh Hact Hfrom Hto Hv Ha Hb Hone.
  destruct (getSpec_fresh_view Transform_build Transform_translate clock st t0 to
              Ht Hh Hact Hto Hv) as (spec & st' & Hread & _ & Hview & _).
  exists spec, st'. split; [exact Hread|].
  specialize (Hview (arrays st') (reflexivity _)).
  apply (f_equal v_opacity) in Hview. cbn in Hview.
  rewrite Hfrom in Hview. unfold read_channels in Hview. rewrite Hone in Hview.
  unfold interpolated_view, tween_view in Hview. cbn in Hview.
  rewrite Ha, Hb in Hview. cbn in Hview.
  destruct (Qeq_bool b a); cbn in Hview;
    destruct (s_opacity spec) as [v|r]; cbn in Hview; inversion Hview; reflexivity.
Qed.

(** X20: the [removed] flag of a read follows the layout pass.  A node that
    was [reset] and not set since reads as removed; a node that is set reads
    as not removed, and the set also withdraws a pending [remove]. *)
Theorem removal_lifecycle (clock : Clock) (st : State) :
  s_removed (_spec (this (final_state
     (getSpec Transform_build Transform_translate clock (final_state (reset st)))))) = true /\
  forall (removeSpec : option Spec) (s : LayoutSet) (size_ : option (list value)),
    let st' :=
      final_state
        (getSpec Transform_build Transform_translate clock
           (final_state
              (set Transform_build Transform_translate s size_
                 (final_state (remove removeSpec st))))) in
    _removing (this st') = false /\ s_removed (_spec (this st')) = false.
Proof.
  split.
  - destruct (getSpec_leaves clock (final_state (reset st))) as (_ & Hs & _).
    rewrite Hs. reflexivity.
  - intros removeSpec s size_. cbv zeta.
    destruct (set_effect s size_ (final_state (remove removeSpec st)))
      as (st1 & Hset & _ & _ & _ & Hinv & _ & Hrm & _).
    rewrite Hset. cbn [final_state].
    destruct (getSpec_leaves clock st1) as (_ & Hs & (_ & _ & _ & _ & Hr & _) & _).
    rewrite Hs, Hr, Hinv, Hrm. split; reflexivity.
Qed.

(** X21: the arrays [_modifySpecFromSet] puts into a spec.  The size, origin
    and align of the spec are new arrays of two components, and no component
    of the origin or the align is [undefined]: a missing one is 0. *)
Theorem modifySpecFromSet_pairs_defined (spec spec' : Spec) (s : LayoutSet) (h h' : heap) :
  _modifySpecFromSet Transform_build Transform_translate spec s h = (spec', h') ->
  (forall l, s_size spec' = Some l ->
     (length h <= l)%nat /\ length (read h' l) = 2%nat) /\
  (forall l, s_origin spec' = Some l \/ s_align spec' = Some l ->
     (length h <= l)%nat /\
     exists x y, read h' l = [x; y] /\ x <> VUndefined /\ y <> VUndefined).
Proof.
  unfold _modifySpecFromSet.
  destruct (alloc_opt (pair_from_set h s Size) h) as [r1 h1] eqn:E1.
  destruct (alloc_opt (pair_from_set h1 s Origin) h1) as [r2 h2] eqn:E2.
  destruct (alloc_opt (pair_from_set h2 s Align) h2) as [r3 h3] eqn:E3.
  destruct (alloc_opt (transform_from_set Transform_build Transform_translate h3 s) h3)
    as [r4 h4] eqn:E4.
  intro H. inversion H; subst spec' h'. clear H. cbn.
  destruct (alloc_opt_inv _ _ _ _ E1) as (P1 & R1).
  destruct (alloc_opt_inv _ _ _ _ E2) as (P2 & R2).
  destruct (alloc_opt_inv _ _ _ _ E3) as (P3 & R3).
  destruct (alloc_opt_inv _ _ _ _ E4) as (P4 & _).
  assert (L1 : (length h <= length h1)%nat) by (apply prefix_length; exact P1).
  assert (L2 : (length h1 <= length h2)%nat) by (apply prefix_length; exact P2).
  assert (D : forall v, or_default v (VNum 0) <> VUndefined).
  { intros [| |q]; discriminate. }
  split.
  - intros l Hl. subst r1.
    specialize (R1 h4 ltac:(etrans; [exact P2|]; etrans; eassumption)).
    unfold pair_from_set in E1, R1.
    destruct (truthy (channels s Size)); cbn in E1, R1; inversion E1; subst.
    inversion R1 as [R]. rewrite R. split; [lia | reflexivity].
  - intros l [Hl|Hl].
    + subst r2. specialize (R2 h4 ltac:(etrans; eassumption)).
      unfold pair_from_set in E2, R2.
      destruct (truthy (channels s Origin)); cbn in E2, R2; inversion E2; subst.
      inversion R2 as [R]. rewrite R. split; [lia|]. eexists _, _.
      split; [reflexivity|]. split; apply D.
    + subst r3. specialize (R3 h4 P4).
      unfold pair_from_set in E3, R3.
      destruct (truthy (channels s Align)); cbn in E3, R3; inversion E3; subst.
      inversion R3 as [R]. rewrite R. split; [lia|]. eexists _, _.
      split; [reflexivity|]. split; apply D.
Qed.

(** *** [transition] *)

(** A property of a set, or the default array when the set lacks it. *)
Definition with_defaults (s : LayoutSet) (c : channel) : prop :=
  if defined (channels s c) then channels s c else PArr (DefaultOf c).

Lemma strict_eq_refl (p : prop) : p <> PVal VNaN -> strict_eq p p = true.
Proof.
  destruct p as [[| |q]|[c|l]]; cbn; intro H.
  - reflexivity.
  - contradiction.
  - apply Qeq_bool_iff. reflexivity.
  - destruct c; reflexivity.
  - apply Nat.eqb_refl.
Qed.

(** A set as it reads while the node interpolates from it to itself: a
    property the set lacks reads as its default array, a NaN property as an
    array of NaNs (NaN is not equal to itself, so it is tweened), every other
    property as the set gave it. *)
Definition still_view (h : heap) (s : LayoutSet) (c : channel) : pview :=
  match channels s c with
  | PVal VNaN => VA (map (fun _ => VNaN) (propertiesWithDefaults c))
  | _ => prop_view h (with_defaults s c)
  end.

Lemma tween_view_same (h : heap) (t : Q) (s : LayoutSet) (c : channel) :
  tween_view h t s s c = still_view h s c.
Proof.
  unfold tween_view, still_view, with_defaults.
  destruct (channels s c) as [[| |q]|a] eqn:E.
  - cbn [defined]. rewrite strict_eq_refl by discriminate. reflexivity.
  - destruct c; reflexivity.
  - cbn [defined]. rewrite strict_eq_refl by discriminate. reflexivity.
  - cbn [defined]. rewrite strict_eq_refl by discriminate. reflexivity.
Qed.

(** X23: [transition] on a node that holds no transitionable and has been
    set ([s] is its [_lastSet]).  The call returns without touching the store
    or the committed spec, starts a transitionable whose duration is the
    given one when that is a number other than 0 and 200 otherwise, and makes
    [s] the start of the interpolation.  A read after it answers the
    committed spec when that spec is hidden.  When the spec is visible and
    the transitionable active, it answers a new spec: before the tween value
    reaches 1 every property the set lacks reads as its default array, a NaN
    property as an array of NaNs, every other property as the set gave it,
    and the opacity is component 0 of that ([undefined] when the set gave a
    number); at the tween value 1 the new spec is built from [s] itself. *)
Theorem transition_on_still_node (clock clock' : Clock) (tr : Transition) (st : State)
    (s : LayoutSet) :
  _transitionable (this st) = None ->
  _lastSet (this st) = Some s ->
  valid_set (arrays st) s ->
  exists st1 q,
    transition_ clock tr st = Normal tt st1 /\
    arrays st1 = arrays st /\
    _spec (this st1) = _spec (this st) /\
    _transitionable (this st1) = Some (mkTransitionable (mkTransition (VNum q))) /\
    (forall d, duration tr = VNum d -> ~ d == 0 -> q = d) /\
    ((forall d, duration tr = VNum d -> d == 0) -> q = 200) /\
    _originalSet (this st1) = Some s /\
    (s_hide (_spec (this st)) = true ->
     getSpec Transform_build Transform_translate clock' st1
     = Normal Committed (flagged st1)) /\
    (s_hide (_spec (this st)) = false ->
     active clock' = true ->
     exists spec st2,
       getSpec Transform_build Transform_translate clock' st1 = Normal (Fresh spec) st2 /\
       spec_view (arrays st2) spec =
       if Qeq_bool (tween clock') 1
       then view_from_channels Transform_build Transform_translate
              (s_renderNode (_spec (this st))) false (hide s)
              (fun c => prop_view (arrays st) (channels s c))
       else view_from_channels Transform_build Transform_translate
              (s_renderNode (_spec (this st))) false false
              (fun c =>
                 if channel_eqb c Opacity
                 then VV (view_index (still_view (arrays st) s Opacity) 0)
                 else still_view (arrays st) s c)).
Proof.
  intros Ht Hl Hv.
  set (q := match duration tr with
            | VNum d => if Qeq_bool d 0 then 200 else d
            | _ => 200
            end).
  set (st1 := mkState (arrays st)
                (with_transitionable (Some (mkTransitionable (mkTransition (VNum q))))
                   (with_originalSet (Some s) (this st)))).
  assert (Hrun : transition_ clock tr st = Normal tt st1).
  { unfold transition_, bind, modify_node, present_transitionable, start_transitionable.
    rewrite Ht, Hl. cbn. unfold st1, q.
    destruct (duration tr) as [| |d]; try reflexivity.
    destruct (Qeq_bool d 0); reflexivity. }
  assert (Hv1 : valid_node st1).
  { split; intros x Hx; cbn in Hx; [|rewrite Hl in Hx]; inversion Hx; subst x; exact Hv. }
  exists st1, q.
  split; [exact Hrun|]. split; [reflexivity|]. split; [reflexivity|].
  split; [reflexivity|]. split; [|split; [|split; [reflexivity|split]]].
  - intros d Hd Hne. unfold q. rewrite Hd.
    destruct (Qeq_bool d 0) eqn:E; [|reflexivity].
    apply Qeq_bool_iff in E. contradiction.
  - intros Hzero. unfold q. destruct (duration tr) as [| |d]; try reflexivity.
    specialize (Hzero d eq_refl). apply Qeq_bool_iff in Hzero. rewrite Hzero. reflexivity.
  - intro Hh. apply getSpec_hidden. exact Hh.
  - intros Hh Hact.
    destruct (getSpec_fresh_view Transform_build Transform_translate clock' st1 _ s
                eq_refl Hh Hact Hl Hv1) as (spec & st2 & Hread & _ & Hview & _).
    exists spec, st2. split; [exact Hread|].
    rewrite (Hview (arrays st2)) by reflexivity.
    unfold st1, read_hidden.
    cbn [this arrays _spec _originalSet with_transitionable with_originalSet].
    destruct (Qeq_bool (tween clock') 1) eqn:Hone.
    + apply view_from_channels_ext. intro c. unfold read_channels. rewrite Hone. reflexivity.
    + apply view_from_channels_ext. intro c.
      unfold read_channels, interpolated_view. rewrite Hone.
      rewrite !tween_view_same. reflexivity.
Qed.

End Methods.

(** A set with a size, an origin whose second component is missing, a
    translation and an opacity; its arrays are the first three of the store. *)
Definition boxed_set : LayoutSet :=
  mkSet (fun c => match c with
                  | Size => PArr (At 0%nat)
                  | Origin => PArr (At 1%nat)
                  | Translate => PArr (At 2%nat)
                  | Opacity => PVal (VNum (1 # 2))
                  | _ => PVal VUndefined
                  end) None false VUndefined.

Definition boxed_store : list (list value) :=
  [[VNum 100; VUndefined]; [VNum (1 # 2)]; [VNum 0; VNum 30; VNum 0]].

Definition new_node_state : State :=
  mkState boxed_store (new_LayoutNode (Some 7%nat) None).

Lemma boxed_set_valid : valid_set boxed_store boxed_set.
Proof. intros [| | | | | | |]; cbn; try exact I; lia. Qed.

Lemma set_then_getSpec_witness :
  exists st1 st2,
    set famous_build_unrotated famous_translate boxed_set None new_node_state
      = Normal tt st1 /\
    getSpec famous_build_unrotated famous_translate (mkClock 0 true) st1
      = Normal Committed st2 /\
    spec_view (arrays st2) (_spec (this st2)) =
    mkView (Some 7%nat) (VV (VNum (1 # 2)))
      (Some [VNum 100; VUndefined]) (Some [VNum (1 # 2); VNum 0]) None false
      (Some (translate_matrix (VNum 0) (VNum 30) (VNum 0))) false.
Proof.
  exact (set_then_getSpec famous_build_unrotated famous_translate boxed_set None
           (mkClock 0 true) new_node_state eq_refl eq_refl boxed_set_valid).
Defined.

(** *** [setSpec] *)

(** The array a property of the committed spec names after [setSpec]: the
    one it named before when the incoming spec carries the property, none
    otherwise. *)
Definition keep (incoming committed : option loc) : option loc :=
  match incoming with
  | Some _ => committed
  | None => None
  end.

(** The incoming spec carries no array for which the committed spec holds
    none. *)
Definition accepts (incoming committed : option loc) : bool :=
  match incoming, committed with
  | Some _, None => false
  | _, _ => true
  end.

Definition setSpec_accepts (spec committed : Spec) : bool :=
  accepts (s_align spec) (s_align committed) &&
  accepts (s_origin spec) (s_origin committed) &&
  accepts (s_size spec) (s_size committed) &&
  accepts (s_transform spec) (s_transform committed).

Definition committed_after (spec committed : Spec) : Spec :=
  mkSpec (s_renderNode committed) (s_opacity spec)
    (keep (s_size spec) (s_size committed))
    (keep (s_origin spec) (s_origin committed))
    (keep (s_align spec) (s_align committed))
    (s_hide spec)
    (keep (s_transform spec) (s_transform committed))
    (s_removed committed).

(** X22: the outcome of [setSpec].  The call throws exactly when the incoming
    spec carries an align, origin, size or transform array for which the
    committed spec holds none.  Otherwise it returns: the committed spec
    keeps its own array objects for the properties the incoming spec
    carries and loses the others, takes the incoming hide flag and opacity,
    keeps its render node and [removed] flag; no array is allocated and
    nothing else of the node changes but [_specModified]. *)
Theorem setSpec_outcome (spec : Spec) (st : State) :
  if setSpec_accepts spec (_spec (this st))
  then exists h',
         setSpec spec st =
         Normal tt
           (mkState h'
              (with_spec (committed_after spec (_spec (this st)))
                 (with_specModified true (this st)))) /\
         length h' = length (arrays st)
  else exists st', setSpec spec st = TypeError st'.
Proof.
  destruct spec as [rn' op' sz' og' al' hd' tf' rm'].
  destruct st as [h [rn [srn op sz og al hd tf rm] sm inv rmv ts t os ls tg sl vs]].
  unfold setSpec_accepts, committed_after.
  cbn [_spec this s_align s_origin s_size s_transform s_opacity s_hide s_renderNode s_removed].
  rewrite setSpec_split.
  unfold setSpec_prefix, setSpec_suffix, bind, modify_node, modify_spec.
  destruct al' as [al'|], al as [al|], og' as [og'|], og as [og|],
           sz' as [sz'|], sz as [sz|];
    repeat (rewrite setSpec_pair_result; cbn -[copy_items setSpec_pair for_each seq]);
    try (eexists; reflexivity);
    (destruct tf' as [tf'|], tf as [tf|]; cbn -[copy_items setSpec_pair for_each seq];
     [ erewrite for_each_transform_items by reflexivity;
       cbn -[copy_items setSpec_pair for_each seq];
       eexists; split; [reflexivity | cbn [arrays]; rewrite ?length_copy_items; reflexivity]
     | change (seq 0 16) with (0%nat :: seq 1 15);
       rewrite for_each_transform_throws by reflexivity; eexists; reflexivity
     | eexists; split; [reflexivity | cbn [arrays]; rewrite ?length_copy_items; reflexivity]
     | eexists; split; [reflexivity | cbn [arrays]; rewrite ?length_copy_items; reflexivity] ]).
Qed.

(** *** The render node of a node and of its specs *)

(** [destroy()] *)
Definition destroy : M unit :=
  modify_node (fun n =>
    mkNode None (set_renderNode None (_spec n)) (_specModified n) (_invalidated n)
      (_removing n) (trueSizeRequested n) (_transitionable n) (_originalSet n)
      (_lastSet n) (_targetSet n) (scrollLength n) None).

(** The committed spec names the render node of its node. *)
Definition in_sync (st : State) : Prop :=
  s_renderNode (_spec (this st)) = renderNode (this st).

(** A method keeps this, whether it returns or throws. *)
Definition keeps_sync {A : Type} (m : M A) : Prop :=
  forall st, in_sync st -> in_sync (final_state (m st)).

Lemma keeps_bind {A B : Type} (m : M A) (k : A -> M B) :
  keeps_sync m -> (forall a, keeps_sync (k a)) -> keeps_sync (bind m k).
Proof.
  intros Hm Hk st Hs. unfold bind. specialize (Hm st Hs).
  destruct (m st) as [a st1|st1]; cbn in Hm |- *; [apply Hk; exact Hm | exact Hm].
Qed.

Lemma keeps_modify_node (f : LayoutNode -> LayoutNode) :
  (forall n, s_renderNode (_spec n) = renderNode n ->
             s_renderNode (_spec (f n)) = renderNode (f n)) ->
  keeps_sync (modify_node f).
Proof. intros Hf st Hs. apply Hf. exact Hs. Qed.

Lemma keeps_modify_spec (f : Spec -> Spec) :
  (forall sp, s_renderNode (f sp) = s_renderNode sp) -> keeps_sync (modify_spec f).
Proof.
  intros Hf. apply keeps_modify_node. intros n Hn. cbn. rewrite Hf. exact Hn.
Qed.

Lemma keeps_ret {A : Type} (a : A) : keeps_sync (ret a).
Proof. intros st Hs. exact Hs. Qed.

Lemma keeps_assign_pair_item (f : pair_field) (src : loc) (i : nat) :
  keeps_sync (assign_pair_item f src i).
Proof.
  intros st Hs. unfold assign_pair_item.
  destruct (get_pair f (_spec (this st))); exact Hs.
Qed.

Lemma keeps_assign_transform_item (src : loc) (i : nat) :
  keeps_sync (assign_transform_item src i).
Proof.
  intros st Hs. unfold assign_transform_item.
  destruct (s_transform (_spec (this st))); exact Hs.
Qed.

Lemma keeps_for_each (indices : list nat) (body : nat -> M unit) :
  (forall i, keeps_sync (body i)) -> keeps_sync (for_each indices body).
Proof.
  intro Hb. induction indices as [|i rest IH]; cbn [for_each].
  - apply keeps_ret.
  - apply keeps_bind; [apply Hb | intros _; exact IH].
Qed.

Lemma keeps_setSpec_pair (f : pair_field) (spec : Spec) : keeps_sync (setSpec_pair f spec).
Proof.
  unfold setSpec_pair. destruct (get_pair f spec) as [src|].
  - apply keeps_bind; [|intros _; apply keeps_bind; [|intros _];
                         apply keeps_assign_pair_item].
    cbn [present negb]. apply keeps_ret.
  - apply keeps_modify_spec. intro sp. destruct f; reflexivity.
Qed.

Lemma keeps_setSpec (spec : Spec) : keeps_sync (setSpec spec).
Proof.
  unfold setSpec.
  apply keeps_bind; [apply keeps_modify_node; intros n Hn; exact Hn | intros _].
  apply keeps_bind; [apply keeps_setSpec_pair | intros _].
  apply keeps_bind; [apply keeps_setSpec_pair | intros _].
  apply keeps_bind; [apply keeps_setSpec_pair | intros _].
  apply keeps_bind; [apply keeps_modify_spec; reflexivity | intros _].
  apply keeps_bind; [|intros _; apply keeps_modify_spec; reflexivity].
  destruct (s_transform spec) as [src|]; cbn [present negb].
  - apply keeps_for_each. intro i. apply keeps_assign_transform_item.
  - apply keeps_modify_spec. reflexivity.
Qed.

Lemma keeps_interpolateSet (clock : Clock) : keeps_sync (_interpolateSet clock).
Proof.
  intros st Hs. destruct (interpolateSet_frame clock st) as [_ [Hn|Hn]];
    unfold in_sync; rewrite Hn; exact Hs.
Qed.

Lemma keeps_transition (clock : Clock) (tr : Transition) : keeps_sync (transition_ clock tr).
Proof.
  unfold transition_.
  apply keeps_bind.
  - intros st Hs. destruct (present_transitionable (this st));
      [apply keeps_interpolateSet; exact Hs | exact Hs].
  - intro original.
    apply keeps_bind; [|intros _]; apply keeps_modify_node; intros n Hn; exact Hn.
Qed.

Section Invariant.

Variable Transform_build :
  list value -> list value -> list value -> list value -> list value.
Variable Transform_translate : value -> value -> value -> list value.

Lemma keeps_set (s : LayoutSet) (size_ : option (list value)) :
  keeps_sync (set Transform_build Transform_translate s size_).
Proof.
  intros st Hs.
  destruct (set_effect Transform_build Transform_translate s size_ st)
    as (st1 & Hset & Hspec & _ & _ & _ & _ & _ & _ & Hrn & _).
  rewrite Hset. cbn [final_state]. unfold in_sync. rewrite Hspec, Hrn.
  destruct (modifySpecFromSet_fields Transform_build Transform_translate
              (_spec (this st)) s (arrays st)) as (R & _).
  rewrite R. exact Hs.
Qed.

Lemma keeps_getSpec (clock : Clock) :
  keeps_sync (getSpec Transform_build Transform_translate clock).
Proof.
  intros st Hs.
  destruct (getSpec_leaves Transform_build Transform_translate clock st)
    as (_ & Hspec & (_ & _ & _ & _ & _ & Hrn & _) & _).
  unfold in_sync. rewrite Hspec, Hrn. exact Hs.
Qed.

(** The new spec that a read answers names the render node of the committed
    spec. *)
Lemma getSpec_fresh_render_node (clock : Clock) (st : State) (spec : Spec) (st' : State) :
  getSpec Transform_build Transform_translate clock st = Normal (Fresh spec) st' ->
  s_renderNode spec = s_renderNode (_spec (this st)).
Proof.
  unfold getSpec, bind, modify_node, _getFinalSpec, ret.
  cbn -[_interpolateSet _modifySpecFromSet].
  destruct (present_transitionable _ && negb _); [|intro H; discriminate H].
  unfold bind.
  destruct (active clock); cbn -[_interpolateSet _modifySpecFromSet];
    match goal with
    | |- context [_interpolateSet clock ?s] =>
        destruct (interpolateSet_frame clock s) as [_ Hn];
        destruct (_interpolateSet clock s) as [[set_|] st1|st1]
    end; try (intro H; discriminate H); cbn in Hn;
    match goal with
    | |- context [_modifySpecFromSet _ _ ?sp ?s ?h] =>
        destruct (modifySpecFromSet_fields Transform_build Transform_translate sp s h)
          as (R & _);
        destruct (_modifySpecFromSet Transform_build Transform_translate sp s h)
          as [spec' h']
    end; cbn in R; intro H; inversion H; subst; rewrite R;
    destruct Hn as [-> | ->]; reflexivity.
Qed.

(** A method call on a node. *)
Inductive call : Type :=
| CallSetRenderNode (node : option RenderNode)
| CallDestroy
| CallReset
| CallSetSpec (spec : Spec)
| CallTransition (clock : Clock) (tr : Transition)
| CallSet (s : LayoutSet) (size_ : option (list value))
| CallGetSpec (clock : Clock)
| CallRemove (removeSpec : option Spec).

(** The state a call leaves, whether it returns or throws. *)
Definition after_call (st : State) (c : call) : State :=
  match c with
  | CallSetRenderNode node => final_state (setRenderNode node st)
  | CallDestroy => final_state (destroy st)
  | CallReset => final_state (reset st)
  | CallSetSpec spec => final_state (setSpec spec st)
  | CallTransition clock tr => final_state (transition_ clock tr st)
  | CallSet s size_ => final_state (set Transform_build Transform_translate s size_ st)
  | CallGetSpec clock => final_state (getSpec Transform_build Transform_translate clock st)
  | CallRemove removeSpec => final_state (remove removeSpec st)
  end.

Definition after_calls (calls : list call) (st : State) : State :=
  fold_left after_call calls st.

Lemma after_call_sync (c : call) (st : State) : in_sync st -> in_sync (after_call st c).
Proof.
  intro Hs. destruct c; cbn [after_call].
  - reflexivity.
  - reflexivity.
  - exact Hs.
  - apply keeps_setSpec. exact Hs.
  - apply keeps_transition. exact Hs.
  - apply keeps_set. exact Hs.
  - apply keeps_getSpec. exact Hs.
  - exact Hs.
Qed.

Lemma after_calls_sync (calls : list call) :
  forall st, in_sync st -> in_sync (after_calls calls st).
Proof.
  induction calls as [|c rest IH]; intros st Hs; [exact Hs|].
  apply IH, after_call_sync, Hs.
Qed.

(** X24: the render node of a node and of its specs.  After any sequence of
    calls of [setRenderNode], [destroy], [reset], [setSpec], [transition],
    [set], [getSpec] and [remove] on a constructed node, whether they return
    or throw, the committed spec names the render node the node holds, and so
    does every new spec that a read answers. *)
Theorem render_node_in_sync (node : option RenderNode) (cloned : option Spec) (h : heap)
    (calls : list call) (clock : Clock) :
  let st := after_calls calls (mkState h (new_LayoutNode node cloned)) in
  s_renderNode (_spec (this st)) = renderNode (this st) /\
  match getSpec Transform_build Transform_translate clock st with
  | Normal (Fresh spec) _ => s_renderNode spec = renderNode (this st)
  | _ => True
  end.
Proof.
  cbv zeta.
  assert (Hs : in_sync (after_calls calls (mkState h (new_LayoutNode node cloned)))).
  { apply after_calls_sync. reflexivity. }
  split; [exact Hs|].
  destruct (getSpec _ _ _ _) as [[|spec] st'|st'] eqn:Hread; try exact I.
  rewrite (getSpec_fresh_render_node _ _ _ _ Hread). exact Hs.
Qed.

End Invariant.

(** *** Nodes to run the methods on *)

Lemma fading_valid (from to : Q) : valid_node (fading from to).
Proof.
  split; intros set_ H; vm_compute in H; inversion H; subst set_;
    intros [| | | | | | |]; exact I.
Qed.

(** The boxed node set to a quarter opacity with a transition and read
    midway. *)
Lemma transition_runs_from_previous_set_witness :
  exists st1 st2 spec st3,
    set famous_build_unrotated famous_translate boxed_set None new_node_state
      = Normal tt st1 /\
    set famous_build_unrotated famous_translate (opacity_set (1 # 4) (Some curve300)) None st1
      = Normal tt st2 /\
    getSpec famous_build_unrotated famous_translate (mkClock (1 # 2) true) st2
      = Normal (Fresh spec) st3 /\
    spec_view (arrays st3) spec =
    view_from_channels famous_build_unrotated famous_translate
      (s_renderNode (_spec (this new_node_state))) false false
      (read_channels (arrays new_node_state) (1 # 2) (Some boxed_set)
         (opacity_set (1 # 4) (Some curve300))).
Proof.
  apply (transition_runs_from_previous_set famous_build_unrotated famous_translate
           boxed_set (opacity_set (1 # 4) (Some curve300)) curve300 None None
           (mkClock (1 # 2) true) new_node_state eq_refl eq_refl eq_refl eq_refl eq_refl
           boxed_set_valid).
  intros [| | | | | | |]; exact I.
Defined.

(** A node fading from 0 to 1, read midway. *)
Lemma getSpec_opacity_interpolates_witness :
  exists spec st',
    getSpec famous_build_unrotated famous_translate (mkClock (1 # 2) true) (fading 0 1)
      = Normal (Fresh spec) st' /\
    s_opacity spec = PVal (VNum (0 + (1 - 0) * (1 # 2))).
Proof.
  exact (getSpec_opacity_interpolates famous_build_unrotated famous_translate
           (mkClock (1 # 2) true) (fading 0 1) (mkTransitionable curve300)
           (opacity_set 0 None) (opacity_set 1 (Some curve300)) 0 1
           eq_refl eq_refl eq_refl eq_refl eq_refl (fading_valid 0 1)
           eq_refl eq_refl eq_refl).
Defined.

(** The spec made of the boxed set: its origin [[1/2]] gets the missing
    second component. *)
Lemma modifySpecFromSet_pairs_defined_witness :
  let r := _modifySpecFromSet famous_build_unrotated famous_translate empty_spec boxed_set
             boxed_store in
  (forall l, s_size (fst r) = Some l ->
     (length boxed_store <= l)%nat /\ length (read (snd r) l) = 2%nat) /\
  (forall l, s_origin (fst r) = Some l \/ s_align (fst r) = Some l ->
     (length boxed_store <= l)%nat /\
     exists x y, read (snd r) l = [x; y] /\ x <> VUndefined /\ y <> VUndefined).
Proof.
  cbv zeta.
  apply (modifySpecFromSet_pairs_defined famous_build_unrotated famous_translate
           empty_spec _ boxed_set boxed_store _).
  apply surjective_pairing.
Defined.

Lemma boxed_node_valid : valid_set (arrays (after_set boxed_set new_node_state)) boxed_set.
Proof. intros [| | | | | | |]; vm_compute; try exact I; lia. Qed.

(** The boxed node, set once, is told to animate with no duration given: the
    transitionable runs for 200, and the read midway shows the defaults the
    set lacks (an align of [[0, 0]]) and no opacity, although the set gave
    1/2. *)
Lemma transition_on_still_node_witness :
  let st := after_set boxed_set new_node_state in
  let clock' := mkClock (1 # 2) true in
  (exists st1 q,
     transition_ (mkClock 0 true) (mkTransition VUndefined) st = Normal tt st1 /\
     arrays st1 = arrays st /\
     _spec (this st1) = _spec (this st) /\
     _transitionable (this st1) = Some (mkTransitionable (mkTransition (VNum q))) /\
     (forall d, VUndefined = VNum d -> ~ d == 0 -> q = d) /\
     ((forall d, VUndefined = VNum d -> d == 0) -> q = 200) /\
     _originalSet (this st1) = Some boxed_set /\
     (s_hide (_spec (this st)) = true ->
      getSpec famous_build_unrotated famous_translate clock' st1
      = Normal Committed (flagged st1)) /\
     (s_hide (_spec (this st)) = false ->
      active clock' = true ->
      exists spec st2,
        getSpec famous_build_unrotated famous_translate clock' st1
          = Normal (Fresh spec) st2 /\
        spec_view (arrays st2) spec =
        if Qeq_bool (tween clock') 1
        then view_from_channels famous_build_unrotated famous_translate
               (s_renderNode (_spec (this st))) false (hide boxed_set)
               (fun c => prop_view (arrays st) (channels boxed_set c))
        else view_from_channels famous_build_unrotated famous_translate
               (s_renderNode (_spec (this st))) false false
               (fun c =>
                  if channel_eqb c Opacity
                  then VV (view_index (still_view (arrays st) boxed_set Opacity) 0)
                  else still_view (arrays st) boxed_set c))) /\
  s_hide (_spec (this st)) = false /\
  v_align
    (view_from_channels famous_build_unrotated famous_translate
       (s_renderNode (_spec (this st))) false false
       (fun c =>
          if channel_eqb c Opacity
          then VV (view_index (still_view (arrays st) boxed_set Opacity) 0)
          else still_view (arrays st) boxed_set c))
  = Some [VNum 0; VNum 0] /\
  v_opacity
    (view_from_channels famous_build_unrotated famous_translate
       (s_renderNode (_spec (this st))) false false
       (fun c =>
          if channel_eqb c Opacity
          then VV (view_index (still_view (arrays st) boxed_set Opacity) 0)
          else still_view (arrays st) boxed_set c))
  = VV VUndefined.
Proof.
  cbv zeta. split.
  - exact (transition_on_still_node famous_build_unrotated famous_translate
             (mkClock 0 true) (mkClock (1 # 2) true) (mkTransition VUndefined)
             (after_set boxed_set new_node_state) boxed_set
             eq_refl eq_refl boxed_node_valid).
  - vm_compute. repeat split; reflexivity.
Defined.

End LayoutNodeMore.
